(** * goNEAT: the [Species] entity of package [genetics]

    A shallow embedding of [neat/genetics/species.go] and the properties
    its specification states about it.

    Conventions of the embedding.
    - Go [int] is a 64-bit two's complement integer: a [Z] kept in range
      by [wrap64]; [+], [-] and [++] wrap around as in Go.
    - Go [float64] is modelled by the rationals [Q].  The arithmetic on
      fitness values and on offspring shares is kept exact.  At line
      129, where an integer (the number of parents) is read off a float
      expression, every operation is rounded to the nearest double by
      [round64], as the processor does.  Infinities and NaN (so also a
      division by zero) are outside the model.
    - [*Organism], [*Species] and [*Genome] are addresses ([nat], [0] is
      [nil]) into explicit stores, so that in-place mutation and aliasing
      are visible.  Organism and species addresses held in a slice are
      assumed to be allocated: the stores are total.
    - A Go run-time panic (index out of range) is the outcome [Panic];
      a returned [error] is an ordinary value. *)

From Stdlib Require Import String.
From Stdlib Require Import ZArith QArith Qround Qpower Lia Lqa Bool List.
From Stdlib Require Import Permutation Sorted.
Import ListNotations.

Local Open Scope Z_scope.

(** ** Machine integers and floats *)

Definition minInt64 : Z := - 2 ^ 63.
Definition maxInt64 : Z := 2 ^ 63 - 1.

Definition wrap64 (z : Z) : Z := (z + 2 ^ 63) mod 2 ^ 64 - 2 ^ 63.

Definition add64 (a b : Z) : Z := wrap64 (a + b).
Definition sub64 (a b : Z) : Z := wrap64 (a - b).

Definition in_int64 (z : Z) : bool := (minInt64 <=? z) && (z <=? maxInt64).

Abbreviation float64 := Q (only parsing).

(** [x < y] on floats, as a boolean. *)
Definition Qltb (x y : Q) : bool := negb (Qle_bool y x).

(** [math.Floor], kept as the integer it denotes. *)
Definition math_Floor (x : float64) : Z := Qfloor x.

(** [math.Mod(x, 1.0)]: the remainder has the sign of [x], so the
    quotient is truncated toward zero. *)
Definition math_Mod1 (x : float64) : float64 :=
  (x - inject_Z (Z.quot (Qnum x) (Zpos (Qden x))))%Q.

(** [int(f)] for an integral float [f = z]: exact when [z] fits; out of
    range Go leaves the result to the implementation, and amd64 yields
    the smallest [int]. *)
Definition int_of_float (z : Z) : Z := if in_int64 z then z else minInt64.

(** [float64(n)] for an [int]. *)
Definition float_of_int (n : Z) : float64 := inject_Z n.

(** *** Rounding to IEEE 754 binary64

    A double is [m * 2^q] with [|m| < 2^53] and [q >= -1074].  The
    result of an operation is the double nearest to the exact value,
    a tie going to the even significand.  Overflow to infinity (beyond
    about [1.8e308]) is not modelled. *)

Definition pow2 (z : Z) : Q := Qpower 2 z.

(** The binary exponent of [x > 0]: [2^(ilog2 x) <= x < 2^(ilog2 x + 1)]. *)
Definition ilog2 (x : Q) : Z :=
  if Qle_bool 1 x then Z.log2 (Qfloor x) else - Z.log2_up (Qceiling (/ x)).

(** Nearest integer, ties to even. *)
Definition rne (m : Q) : Z :=
  let f := Qfloor m in
  match Qcompare (m - inject_Z f) (1 # 2) with
  | Lt => f
  | Gt => f + 1
  | Eq => if Z.even f then f else f + 1
  end.

Definition round64_pos (x : Q) : Q :=
  let q := Z.max (ilog2 x - 52) (-1074) in
  (inject_Z (rne (x / pow2 q)) * pow2 q)%Q.

Definition round64 (x : Q) : float64 :=
  match Qcompare x 0 with
  | Eq => 0%Q
  | Gt => round64_pos x
  | Lt => (- round64_pos (- x))%Q
  end.

(** [len(sl)] as a Go [int]. *)
Definition len {A : Type} (l : list A) : Z := Z.of_nat (length l).

(** ** Outcomes *)

Inductive outcome (A : Type) : Type :=
| Ok (a : A)
| Panic.
Arguments Ok {A} a.
Arguments Panic {A}.

Definition bind {A B : Type} (m : outcome A) (k : A -> outcome B) : outcome B :=
  match m with
  | Ok a => k a
  | Panic => Panic
  end.

Notation "x <- m ;; k" := (bind m (fun x => k))
  (at level 61, m at next level, right associativity).

(** [sl[i]] with Go's bounds check. *)
Definition index {A : Type} (l : list A) (i : Z) : outcome A :=
  if i <? 0 then Panic
  else match nth_error l (Z.to_nat i) with
       | Some a => Ok a
       | None => Panic
       end.

(** A Go [error]: [nil] or a message. *)
Definition error := option string.

(** ** Data model *)

Abbreviation optr := nat (only parsing).
Abbreviation sptr := nat (only parsing).
Abbreviation gptr := nat (only parsing).
Definition nil_ptr : nat := 0%nat.

(** Modelled from the spec: the [Organism] struct is declared outside
    [species.go]; these are the fields that file reads and writes. *)
Record Organism : Type := mkOrganism {
  Fitness : float64;
  OriginalFitness : float64;
  OrgExpectedOffspring : float64;
  IsChampion : bool;
  ToEliminate : bool;
  SuperChampOffspring : Z;
  IsPopulationChampion : bool;
  IsPopulationChampionChild : bool;
  highestFitness : float64;
  GNome : gptr;
  SpeciesOf : sptr;
  Generation : Z;
  mutationStructBaby : bool;
  mateBaby : bool
}.

Record Species : Type := mkSpecies {
  Id : Z;
  Age : Z;
  AvgFitness : float64;
  MaxFitness : float64;
  MaxFitnessEver : float64;
  ExpectedOffspring : Z;
  IsNovel : bool;
  IsChecked : bool;
  Organisms : list optr;
  AgeOfLastImprovement : Z
}.

(** Modelled from the spec: the options of [neat.Neat] that
    [species.go] reads. *)
Record Neat : Type := mkNeat {
  DropOffAge : Z;
  AgeSignificance : float64;
  SurvivalThresh : float64;
  WeightMutPower : float64;
  MutateOnlyProb : float64;
  MutateAddNodeProb : float64;
  MutateAddLinkProb : float64;
  InterspeciesMateRate : float64;
  MateMultipointProb : float64;
  MateMultipointAvgProb : float64;
  MateSinglepointProb : float64;
  MateOnlyProb : float64;
  NewLinkTries : Z;
  CompatThreshold : float64;
  PopSize : Z
}.

(** The organism store. *)
Definition OrgHeap := optr -> Organism.

Definition upd {A : Type} (h : nat -> A) (p : nat) (v : A) : nat -> A :=
  fun q => if Nat.eqb q p then v else h q.

(** *** Field updates *)

Definition set_Fitness (o : Organism) (f : float64) : Organism :=
  mkOrganism f (OriginalFitness o) (OrgExpectedOffspring o) (IsChampion o)
    (ToEliminate o) (SuperChampOffspring o) (IsPopulationChampion o)
    (IsPopulationChampionChild o) (highestFitness o) (GNome o) (SpeciesOf o)
    (Generation o) (mutationStructBaby o) (mateBaby o).

Definition set_OriginalFitness (o : Organism) (f : float64) : Organism :=
  mkOrganism (Fitness o) f (OrgExpectedOffspring o) (IsChampion o)
    (ToEliminate o) (SuperChampOffspring o) (IsPopulationChampion o)
    (IsPopulationChampionChild o) (highestFitness o) (GNome o) (SpeciesOf o)
    (Generation o) (mutationStructBaby o) (mateBaby o).

Definition set_IsChampion (o : Organism) (b : bool) : Organism :=
  mkOrganism (Fitness o) (OriginalFitness o) (OrgExpectedOffspring o) b
    (ToEliminate o) (SuperChampOffspring o) (IsPopulationChampion o)
    (IsPopulationChampionChild o) (highestFitness o) (GNome o) (SpeciesOf o)
    (Generation o) (mutationStructBaby o) (mateBaby o).

Definition set_ToEliminate (o : Organism) (b : bool) : Organism :=
  mkOrganism (Fitness o) (OriginalFitness o) (OrgExpectedOffspring o)
    (IsChampion o) b (SuperChampOffspring o) (IsPopulationChampion o)
    (IsPopulationChampionChild o) (highestFitness o) (GNome o) (SpeciesOf o)
    (Generation o) (mutationStructBaby o) (mateBaby o).

Definition set_SuperChampOffspring (o : Organism) (n : Z) : Organism :=
  mkOrganism (Fitness o) (OriginalFitness o) (OrgExpectedOffspring o)
    (IsChampion o) (ToEliminate o) n (IsPopulationChampion o)
    (IsPopulationChampionChild o) (highestFitness o) (GNome o) (SpeciesOf o)
    (Generation o) (mutationStructBaby o) (mateBaby o).

Definition set_PopChampChild (o : Organism) (hf : float64) : Organism :=
  mkOrganism (Fitness o) (OriginalFitness o) (OrgExpectedOffspring o)
    (IsChampion o) (ToEliminate o) (SuperChampOffspring o)
    (IsPopulationChampion o) true hf (GNome o) (SpeciesOf o)
    (Generation o) (mutationStructBaby o) (mateBaby o).

Definition set_SpeciesOf (o : Organism) (sp : sptr) : Organism :=
  mkOrganism (Fitness o) (OriginalFitness o) (OrgExpectedOffspring o)
    (IsChampion o) (ToEliminate o) (SuperChampOffspring o)
    (IsPopulationChampion o) (IsPopulationChampionChild o) (highestFitness o)
    (GNome o) sp (Generation o) (mutationStructBaby o) (mateBaby o).

Definition set_origin (o : Organism) (mut_struct mate : bool) : Organism :=
  mkOrganism (Fitness o) (OriginalFitness o) (OrgExpectedOffspring o)
    (IsChampion o) (ToEliminate o) (SuperChampOffspring o)
    (IsPopulationChampion o) (IsPopulationChampionChild o) (highestFitness o)
    (GNome o) (SpeciesOf o) (Generation o) mut_struct mate.

Definition set_Organisms (s : Species) (orgs : list optr) : Species :=
  mkSpecies (Id s) (Age s) (AvgFitness s) (MaxFitness s) (MaxFitnessEver s)
    (ExpectedOffspring s) (IsNovel s) (IsChecked s) orgs
    (AgeOfLastImprovement s).

Definition set_ExpectedOffspring (s : Species) (n : Z) : Species :=
  mkSpecies (Id s) (Age s) (AvgFitness s) (MaxFitness s) (MaxFitnessEver s)
    n (IsNovel s) (IsChecked s) (Organisms s) (AgeOfLastImprovement s).

Definition set_AvgFitness (s : Species) (f : float64) : Species :=
  mkSpecies (Id s) (Age s) f (MaxFitness s) (MaxFitnessEver s)
    (ExpectedOffspring s) (IsNovel s) (IsChecked s) (Organisms s)
    (AgeOfLastImprovement s).

Definition set_MaxFitness (s : Species) (f : float64) : Species :=
  mkSpecies (Id s) (Age s) (AvgFitness s) f (MaxFitnessEver s)
    (ExpectedOffspring s) (IsNovel s) (IsChecked s) (Organisms s)
    (AgeOfLastImprovement s).

Definition set_improved (s : Species) (f : float64) : Species :=
  mkSpecies (Id s) (Age s) (AvgFitness s) (MaxFitness s) f
    (ExpectedOffspring s) (IsNovel s) (IsChecked s) (Organisms s) (Age s).

(** ** Construction, membership *)

Definition newSpecies (id : Z) : Species :=
  mkSpecies id 1 0%Q 0%Q 0%Q 0 false false [] 0.

Definition NewSpecies (id : Z) : Species := newSpecies id.

Definition NewSpeciesNovel (id : Z) (novel : bool) : Species :=
  let s := newSpecies id in
  mkSpecies (Id s) (Age s) (AvgFitness s) (MaxFitness s) (MaxFitnessEver s)
    (ExpectedOffspring s) novel (IsChecked s) (Organisms s)
    (AgeOfLastImprovement s).

Definition addOrganism (s : Species) (o : optr) : Species :=
  set_Organisms s (Organisms s ++ [o]).

(** [len(s.Organisms) - 1] is at least [-1]: it does not wrap. *)
Definition removeOrganism (s : Species) (org : optr)
  : (bool * error) * Species :=
  let orgs := filter (fun o => negb (Nat.eqb o org)) (Organisms s) in
  if negb (len orgs =? len (Organisms s) - 1)
  then ((false,
         Some "ALERT: Attempt to remove nonexistent Organism from Species"%string),
        s)
  else ((true, None), set_Organisms s orgs).

(** ** Aggregates *)

Definition computeAvgFitness (s : Species) (h : OrgHeap) : float64 * Species :=
  let total := fold_left (fun t o => (t + Fitness (h o))%Q) (Organisms s) 0%Q in
  let avg := (total / float_of_int (len (Organisms s)))%Q in
  (avg, set_AvgFitness s avg).

Definition computeMaxFitness (s : Species) (h : OrgHeap) : float64 * Species :=
  let max := fold_left
               (fun m o => if Qltb m (Fitness (h o)) then Fitness (h o) else m)
               (Organisms s) 0%Q in
  (max, set_MaxFitness s max).

Definition lastImproved (s : Species) : Z :=
  sub64 (Age s) (AgeOfLastImprovement s).

Definition size (s : Species) : Z := len (Organisms s).

(** [findChampion]: the loop state is [(best_fitness, champion)];
    [None] is the [nil] champion. *)
Definition findChampion_step (h : OrgHeap) (st : float64 * option optr)
  (o : optr) : float64 * option optr :=
  if Qltb (fst st) (Fitness (h o)) then (Fitness (h o), Some o) else st.

Definition findChampion (s : Species) (h : OrgHeap) : option optr :=
  snd (fold_left (findChampion_step h) (Organisms s) (0%Q, None)).

(** ** Offspring allocation *)

(** One iteration of the loop of [countOffspring]; the loop state is
    [(s.ExpectedOffspring, skim)]. *)
Definition countOffspring_step (h : OrgHeap) (st : Z * float64) (o : optr)
  : Z * float64 :=
  let e_o_intpart := int_of_float (math_Floor (OrgExpectedOffspring (h o))) in
  let e_o_fracpart := math_Mod1 (OrgExpectedOffspring (h o)) in
  let eo := add64 (fst st) e_o_intpart in
  let skim := (snd st + e_o_fracpart)%Q in
  if Qle_bool 1 skim
  then let skim_intpart := math_Floor skim in
       (add64 eo (int_of_float skim_intpart), (skim - inject_Z skim_intpart)%Q)
  else (eo, skim).

Definition countOffspring (s : Species) (h : OrgHeap) (skim : float64)
  : float64 * Species :=
  let st := fold_left (countOffspring_step h) (Organisms s) (0, skim) in
  (snd st, set_ExpectedOffspring s (fst st)).

(** The driver's chaining of [countOffspring] over the species in rank
    order: each call starts from the skim the previous one returned. *)
Fixpoint countOffspring_chain (ss : list Species) (h : OrgHeap)
  (skim : float64) : float64 * list Species :=
  match ss with
  | [] => (skim, [])
  | s :: rest =>
      let r := countOffspring s h skim in
      let r' := countOffspring_chain rest h (fst r) in
      (fst r', snd r :: snd r')
  end.

(** The sum of the individual shares of the organisms of a species. *)
Definition sum_shares (h : OrgHeap) (l : list optr) : Q :=
  fold_right (fun o acc => (OrgExpectedOffspring (h o) + acc)%Q) 0%Q l.

Definition shares (s : Species) (h : OrgHeap) : Q :=
  sum_shares h (Organisms s).

(** ** Sorting *)

(** Modelled from the spec: [ByFitness] is declared outside
    [species.go]; its [Less] puts the organism of greater fitness
    first. *)
Definition ByFitness_Less (h : OrgHeap) (a b : optr) : bool :=
  Qltb (Fitness (h b)) (Fitness (h a)).

(** What [sort.Sort] promises of its result, for a [Less] that is a
    strict weak order: a rearrangement of the slice in which no element
    is [Less] than an earlier one.  Nothing is promised about the order
    of elements neither of which is [Less] than the other. *)
Definition StrictWeak {A : Type} (less : A -> A -> bool) : Prop :=
  (forall a b, less a b = true -> less b a = false) /\
  (forall a b c, less a b = false -> less b c = false -> less a c = false).

Definition SortContract (srt : (optr -> optr -> bool) -> list optr -> list optr)
  : Prop :=
  forall less l,
    Permutation l (srt less l) /\
    (StrictWeak less ->
     StronglySorted (fun a b => less b a = false) (srt less l)).

(** Two sorts that meet the contract, as instances of it; neither
    stands for the library's [sort.Sort], whose algorithm changes from
    one release of Go to another and is not part of [species.go].
    [insertionSort] moves each element toward the front while it is
    [Less] than its left neighbour (the sorted prefix is kept reversed):
    it keeps elements that compare equal in their order, and it is what
    the library of Go 1.19 and later runs on a slice of at most 12
    elements.  [sort_small] first makes one pass of compare-and-swap at
    distance 6, as the library of Go 1.7 to 1.18 does on such a slice,
    and that pass can carry an element over others that compare equal
    to it. *)
Section GoSort.
Context {A : Type} (less : A -> A -> bool).

Fixpoint insert_back (x : A) (rp : list A) : list A :=
  match rp with
  | [] => [x]
  | y :: rp' => if less x y then y :: insert_back x rp' else x :: rp
  end.

Definition insertionSort (l : list A) : list A :=
  rev (fold_left (fun rp x => insert_back x rp) l []).

(** [data[i]] against [data[i-6]] for [i = 6, 7, ...]: on at most 12
    elements the pairs are disjoint. *)
Fixpoint gap_pass (front back : list A) : list A * list A :=
  match front, back with
  | x :: f, y :: b =>
      let r := gap_pass f b in
      if less y x then (y :: fst r, x :: snd r) else (x :: fst r, y :: snd r)
  | _, _ => (front, back)
  end.

Definition sort_small (l : list A) : list A :=
  let r := gap_pass (firstn 6 l) (skipn 6 l) in
  insertionSort (fst r ++ snd r).
End GoSort.

(** ** Fitness adjustment *)

(** The body of the loop over the organisms. *)
Definition adjust_org (conf : Neat) (s : Species) (age_debt : Z)
  (o : Organism) : Organism :=
  let o := set_OriginalFitness o (Fitness o) in
  let o := if 1 <=? age_debt
           then set_Fitness o (Fitness o * 0.01)%Q else o in
  let o := if Age s <=? 10
           then set_Fitness o (Fitness o * AgeSignificance conf)%Q else o in
  let o := if Qltb (Fitness o) 0 then set_Fitness o 0.0001%Q else o in
  set_Fitness o (Fitness o / float_of_int (len (Organisms s)))%Q.

(** [for c := num_parents; c < len(s.Organisms); c++]: the indices from
    [num_parents] on, in order; a negative index panics at the first
    access. *)
Definition mark_eliminate (orgs : list optr) (num_parents : Z) (h : OrgHeap)
  : outcome OrgHeap :=
  if num_parents <? len orgs
  then if num_parents <? 0 then Panic
       else Ok (fold_left (fun h p => upd h p (set_ToEliminate (h p) true))
                  (skipn (Z.to_nat num_parents) orgs) h)
  else Ok h.

Definition age_debt_of (conf : Neat) (s : Species) : Z :=
  sub64 (add64 (sub64 (Age s) (AgeOfLastImprovement s)) 1) (DropOffAge conf).

(** [age_debt] once a value of 0 has been forced to 1. *)
Definition forced_debt (conf : Neat) (s : Species) : Z :=
  let age_debt := age_debt_of conf s in
  if age_debt =? 0 then 1 else age_debt.

(** The loop over the organisms: each is adjusted in place. *)
Definition adjust_loop (conf : Neat) (s : Species) (age_debt : Z)
  (h : OrgHeap) : OrgHeap :=
  fold_left (fun h p => upd h p (adjust_org conf s age_debt (h p)))
    (Organisms s) h.

(** [math.Floor(conf.SurvivalThresh * float64(len(s.Organisms)) + 1.0)]
    and its conversion to [int].  The field holds a double (the one
    nearest to the configured value), the conversion of the length
    gives a double, and the product and the sum are each rounded (the
    amd64 compiler does not fuse them). *)
Definition survivors (conf : Neat) (orgs : list optr) : Z :=
  math_Floor
    (round64
       (round64 (round64 (SurvivalThresh conf)
                 * round64 (float_of_int (len orgs))) + 1))%Q.

Definition num_parents_of (conf : Neat) (orgs : list optr) : Z :=
  int_of_float (survivors conf orgs).

(** [sort_Sort less] stands for the library's [sort.Sort] on a slice
    whose [Less] method is [less]; [adjustFitness] is stated for any such
    function, and the properties below assume [SortContract] of it. *)
Section AdjustFitness.
Variable sort_Sort : (optr -> optr -> bool) -> list optr -> list optr.

Definition adjustFitness (conf : Neat) (s : Species) (h : OrgHeap)
  : outcome (Species * OrgHeap) :=
  let age_debt := forced_debt conf s in
  let h := adjust_loop conf s age_debt h in
  let s := set_Organisms s (sort_Sort (ByFitness_Less h) (Organisms s)) in
  top <- index (Organisms s) 0 ;;
  let s := if Qltb (MaxFitnessEver s) (OriginalFitness (h top))
           then set_improved s (OriginalFitness (h top)) else s in
  let num_parents := num_parents_of conf (Organisms s) in
  champ <- index (Organisms s) 0 ;;
  let h := upd h champ (set_IsChampion (h champ) true) in
  h <- mark_eliminate (Organisms s) num_parents h ;;
  Ok (s, h).
End AdjustFitness.

(** ** Reproduction *)

(** Modelled from the spec: the genome collaborator and the shared
    random generator, both outside [species.go].  Genomes live in the
    collaborator's own state [World], with the generator and the
    population's innovation records; an operation that mutates its
    receiver or consumes random draws transforms that state.  What an
    operation does on a [nil] receiver is the collaborator's business. *)
Class Collaborators (World : Type) : Type := {
  rand_Float64 : World -> float64 * World;
  rand_Int31n : Z -> World -> Z * World;
  gaussian_StdGaussian : World -> float64 * World;
  duplicate : gptr -> Z -> World -> gptr * World;
  compatibility : gptr -> gptr -> World -> float64;
  GenomeId : gptr -> World -> Z;
  mutateLinkWeights : gptr -> float64 -> float64 -> World -> World;
  mutateAddNode : gptr -> World -> World;
  mutateAddLink : gptr -> Z -> World -> World;
  mutateAllNonstructural : gptr -> Neat -> World -> World;
  genesis : gptr -> Z -> World -> World;
  mateMultipoint : gptr -> gptr -> Z -> float64 -> float64 -> World -> gptr * World;
  mateMultipointAvg : gptr -> gptr -> Z -> float64 -> float64 -> World -> gptr * World;
  mateSinglepoint : gptr -> gptr -> Z -> World -> gptr * World
}.

(** The calls [reproduce] makes on genomes, with receiver and arguments,
    in the order they are made. *)
Inductive Call : Type :=
| CDuplicate (recv : gptr) (count : Z)
| CMutateLinkWeights (recv : gptr) (power rate : float64)
| CMutateAddNode (recv : gptr)
| CMutateAddLink (recv : gptr) (tries : Z)
| CMutateAllNonstructural (recv : gptr)
| CGenesis (recv : gptr) (generation : Z)
| CMateMultipoint (recv other : gptr) (count : Z) (fitness1 fitness2 : float64)
| CMateMultipointAvg (recv other : gptr) (count : Z) (fitness1 fitness2 : float64)
| CMateSinglepoint (recv other : gptr) (count : Z).

(** Modelled from the spec: the fields of [Population] that
    [species.go] uses. *)
Record Population : Type := mkPopulation {
  species : list sptr;
  lastSpecies : Z
}.

(** Modelled from the spec: [NewOrganism(fit, g, generation)], declared
    outside [species.go], makes an organism of that fitness, genome and
    generation, every other field at its zero value. *)
Definition NewOrganism_value (fit : float64) (g : gptr) (generation : Z)
  : Organism :=
  mkOrganism fit 0%Q 0%Q false false 0 false false 0%Q g nil_ptr generation
    false false.

Section Reproduce.
Context {World : Type} {C : Collaborators World}.

(** Everything [reproduce] can read or write: the two stores with
    their next free address, the population, the collaborators' state;
    [calls] and [babies] record the genome calls made and the
    organisms created. *)
Record RState : Type := mkRState {
  orgs : OrgHeap;
  next_org : optr;
  specs : sptr -> Species;
  next_spec : sptr;
  pop : Population;
  world : World;
  calls : list Call;
  babies : list optr
}.

Definition M (A : Type) : Type := RState -> outcome (A * RState).

Definition ret {A : Type} (a : A) : M A := fun st => Ok (a, st).

Definition mbind {A B : Type} (m : M A) (k : A -> M B) : M B :=
  fun st => match m st with
            | Ok (a, st') => k a st'
            | Panic => Panic
            end.

Definition lift {A : Type} (o : outcome A) : M A :=
  fun st => match o with
            | Ok a => Ok (a, st)
            | Panic => Panic
            end.

Definition get_org (p : optr) : M Organism := fun st => Ok (orgs st p, st).

Definition get_spec (p : sptr) : M Species := fun st => Ok (specs st p, st).

Definition get_pop : M Population := fun st => Ok (pop st, st).

Definition put_org (p : optr) (o : Organism) : M unit :=
  fun st => Ok (tt, mkRState (upd (orgs st) p o) (next_org st) (specs st)
                      (next_spec st) (pop st) (world st) (calls st)
                      (babies st)).

Definition put_spec (p : sptr) (s : Species) : M unit :=
  fun st => Ok (tt, mkRState (orgs st) (next_org st) (upd (specs st) p s)
                      (next_spec st) (pop st) (world st) (calls st)
                      (babies st)).

Definition put_pop (q : Population) : M unit :=
  fun st => Ok (tt, mkRState (orgs st) (next_org st) (specs st)
                      (next_spec st) q (world st) (calls st) (babies st)).

(** A read of the collaborators' state. *)
Definition ask {A : Type} (f : World -> A) : M A :=
  fun st => Ok (f (world st), st).

(** A draw from the shared generator. *)
Definition draw {A : Type} (f : World -> A * World) : M A :=
  fun st => let r := f (world st) in
            Ok (fst r, mkRState (orgs st) (next_org st) (specs st)
                      (next_spec st) (pop st) (snd r) (calls st)
                      (babies st)).

(** A call on a genome: it is recorded, and transforms the state. *)
Definition call {A : Type} (c : Call) (f : World -> A * World) : M A :=
  fun st => let r := f (world st) in
            Ok (fst r, mkRState (orgs st) (next_org st) (specs st)
                      (next_spec st) (pop st) (snd r) (calls st ++ [c])
                      (babies st)).

Definition call_ (c : Call) (f : World -> World) : M unit :=
  call c (fun w => (tt, f w)).

(** [rand.Int31n(n)] panics unless [n > 0]. *)
Definition Int31n (n : Z) : M Z :=
  if n <=? 0 then lift Panic else draw (rand_Int31n n).

(** [NewOrganism]: a fresh address. *)
Definition NewOrganism (fit : float64) (g : gptr) (generation : Z) : M optr :=
  fun st => let p := next_org st in
            Ok (p, mkRState (upd (orgs st) p (NewOrganism_value fit g generation))
                     (S p) (specs st) (next_spec st) (pop st) (world st)
                     (calls st) (babies st ++ [p])).
End Reproduce.

Arguments RState World : clear implicits.
Arguments M World A : clear implicits.

Notation "x <-- m ;; k" := (mbind m (fun x => k))
  (at level 61, m at next level, right associativity).
Notation "m ;;; k" := (mbind m (fun _ => k))
  (at level 61, right associativity).

Section ReproduceBody.
Context {World : Type} {C : Collaborators World}.
Variables (generation : Z) (s : sptr) (sorted_species : list sptr)
          (conf : Neat).

(** The mutation cascade shared by the mutation-only and the mating
    branch; the result is [mut_struct_baby]. *)
Definition mutate_cascade (new_genome : gptr) : M World bool :=
  r <-- draw rand_Float64 ;;
  if Qltb r (MutateAddNodeProb conf)
  then call_ (CMutateAddNode new_genome) (mutateAddNode new_genome) ;;;
       ret true
  else
    r <-- draw rand_Float64 ;;
    if Qltb r (MutateAddLinkProb conf)
    then call_ (CGenesis new_genome generation) (genesis new_genome generation) ;;;
         call_ (CMutateAddLink new_genome (NewLinkTries conf))
               (mutateAddLink new_genome (NewLinkTries conf)) ;;;
         ret true
    else call_ (CMutateAllNonstructural new_genome)
               (mutateAllNonstructural new_genome conf) ;;;
         ret false.

(** The loop [for ; randspecies == s && giveup < 5; ]: [fuel] is
    [5 - giveup]. *)
Fixpoint pick_randspecies (fuel : nat) (randspecies : sptr) : M World sptr :=
  match fuel with
  | O => ret randspecies
  | S fuel' =>
      if Nat.eqb randspecies s
      then
        g <-- draw gaussian_StdGaussian ;;
        let randmult := (g / 4)%Q in
        let randmult := if Qltb 1 randmult then 1%Q else randmult in
        let randspeciesnum :=
          int_of_float
            (math_Floor (randmult * (float_of_int (len sorted_species) - 1) + 0.5)%Q) in
        rs <-- lift (index sorted_species randspeciesnum) ;;
        pick_randspecies fuel' rs
      else ret randspecies
  end.

(** The choice of the second parent. *)
Definition choose_dad (poolsize : Z) : M World optr :=
  r <-- draw rand_Float64 ;;
  if Qltb (InterspeciesMateRate conf) r
  then
    orgnum <-- Int31n poolsize ;;
    sp <-- get_spec s ;;
    lift (index (Organisms sp) orgnum)
  else
    randspecies <-- pick_randspecies 5 s ;;
    rsp <-- get_spec randspecies ;;
    lift (index (Organisms rsp) 0).

(** The choice of the crossover operator; the result is the value of
    [new_genome] afterwards.  The two multipoint operators are called
    on [new_genome] and their result is dropped. *)
Definition crossover (mom dad : optr) (count : Z) (new_genome : gptr)
  : M World gptr :=
  momo <-- get_org mom ;;
  dado <-- get_org dad ;;
  r <-- draw rand_Float64 ;;
  if Qltb r (MateMultipointProb conf)
  then
    call (CMateMultipoint new_genome (GNome dado) count
            (OriginalFitness momo) (OriginalFitness dado))
         (mateMultipoint new_genome (GNome dado) count
            (OriginalFitness momo) (OriginalFitness dado)) ;;;
    ret new_genome
  else
    r <-- draw rand_Float64 ;;
    if Qltb r (MateMultipointAvgProb conf
               / (MateMultipointAvgProb conf + MateSinglepointProb conf))%Q
    then
      call (CMateMultipointAvg new_genome (GNome dado) count
              (OriginalFitness momo) (OriginalFitness dado))
           (mateMultipointAvg new_genome (GNome dado) count
              (OriginalFitness momo) (OriginalFitness dado)) ;;;
      ret new_genome
    else
      call (CMateSinglepoint (GNome momo) (GNome dado) count)
           (mateSinglepoint (GNome momo) (GNome dado) count).

Definition createFirstSpecies (baby : optr) : M World unit :=
  fun st =>
    let last := add64 (lastSpecies (pop st)) 1 in
    let new_species := next_spec st in
    let sp := addOrganism (NewSpeciesNovel last true) baby in
    Ok (tt, mkRState (upd (orgs st) baby (set_SpeciesOf (orgs st baby) new_species))
              (next_org st) (upd (specs st) new_species sp) (S new_species)
              (mkPopulation (species (pop st) ++ [new_species]) last)
              (world st) (calls st) (babies st)).

(** The search for a compatible species, over [pop.species] in order;
    the result is [found]. *)
Fixpoint find_species (sps : list sptr) (baby : optr) : M World bool :=
  match sps with
  | [] => ret false
  | _specie :: rest =>
      sp <-- get_spec _specie ;;
      if 0 <? len (Organisms sp)
      then
        compare_org <-- lift (index (Organisms sp) 0) ;;
        co <-- get_org compare_org ;;
        bo <-- get_org baby ;;
        curr_compat <-- ask (compatibility (GNome bo) (GNome co)) ;;
        if Qltb curr_compat (CompatThreshold conf)
        then
          put_spec _specie (addOrganism sp baby) ;;;
          bo <-- get_org baby ;;
          put_org baby (set_SpeciesOf bo _specie) ;;;
          ret true
        else find_species rest baby
      else find_species rest baby
  end.

Definition assign_species (baby : optr) : M World unit :=
  p <-- get_pop ;;
  match species p with
  | [] => createFirstSpecies baby
  | _ =>
      found <-- find_species (species p) baby ;;
      if found then ret tt else createFirstSpecies baby
  end.

(** The superchampion branch. *)
Definition superchamp_branch (thechamp : optr) (count : Z) : M World gptr :=
  let mom := thechamp in
  momo <-- get_org mom ;;
  new_genome <-- call (CDuplicate (GNome momo) count)
                      (duplicate (GNome momo) count) ;;
  champ <-- get_org thechamp ;;
  (if 1 <? SuperChampOffspring champ
   then
     r <-- draw rand_Float64 ;;
     if Qltb r 0.8%Q || Qeq_bool (MutateAddLinkProb conf) 0%Q
     then call_ (CMutateLinkWeights new_genome (WeightMutPower conf) 1%Q)
                (mutateLinkWeights new_genome (WeightMutPower conf) 1%Q)
     else call_ (CGenesis new_genome generation) (genesis new_genome generation) ;;;
          call_ (CMutateAddLink new_genome (NewLinkTries conf))
                (mutateAddLink new_genome (NewLinkTries conf))
   else ret tt) ;;;
  baby <-- NewOrganism 0%Q new_genome generation ;;
  champ <-- get_org thechamp ;;
  (if SuperChampOffspring champ =? 1
   then if IsPopulationChampion champ
        then bo <-- get_org baby ;;
             momo <-- get_org mom ;;
             put_org baby (set_PopChampChild bo (OriginalFitness momo))
        else ret tt
   else ret tt) ;;;
  champ <-- get_org thechamp ;;
  put_org thechamp
    (set_SuperChampOffspring champ (sub64 (SuperChampOffspring champ) 1)) ;;;
  ret new_genome.

(** The species-champion branch. *)
Definition champ_clone_branch (thechamp : optr) (count : Z) : M World gptr :=
  momo <-- get_org thechamp ;;
  new_genome <-- call (CDuplicate (GNome momo) count)
                      (duplicate (GNome momo) count) ;;
  NewOrganism 0%Q new_genome generation ;;;
  ret new_genome.

(** The mutation-only branch. *)
Definition mutate_branch (poolsize count : Z) : M World gptr :=
  orgnum <-- Int31n poolsize ;;
  sp <-- get_spec s ;;
  mom <-- lift (index (Organisms sp) orgnum) ;;
  momo <-- get_org mom ;;
  new_genome <-- call (CDuplicate (GNome momo) count)
                      (duplicate (GNome momo) count) ;;
  mutate_cascade new_genome ;;;
  NewOrganism 0%Q new_genome generation ;;;
  ret new_genome.

(** The mating branch, the only one that goes on to place the baby in
    a species. *)
Definition mate_branch (poolsize count : Z) (new_genome : gptr)
  : M World gptr :=
  orgnum <-- Int31n poolsize ;;
  sp <-- get_spec s ;;
  mom <-- lift (index (Organisms sp) orgnum) ;;
  dad <-- choose_dad poolsize ;;
  new_genome <-- crossover mom dad count new_genome ;;
  r <-- draw rand_Float64 ;;
  momo <-- get_org mom ;;
  dado <-- get_org dad ;;
  dad_id <-- ask (GenomeId (GNome dado)) ;;
  mom_id <-- ask (GenomeId (GNome momo)) ;;
  compat <-- ask (compatibility (GNome dado) (GNome momo)) ;;
  mut_struct_baby <--
    (if Qltb (MateOnlyProb conf) r || (dad_id =? mom_id) || Qeq_bool compat 0%Q
     then mutate_cascade new_genome
     else ret false) ;;
  baby <-- NewOrganism 0%Q new_genome generation ;;
  bo <-- get_org baby ;;
  put_org baby (set_origin bo mut_struct_baby true) ;;;
  assign_species baby ;;;
  ret new_genome.

(** One iteration of the loop of [reproduce]; [new_genome] and
    [champ_done] outlive the iteration. *)
Definition reproduce_one (poolsize : Z) (thechamp : optr) (count : Z)
  (loc : gptr * bool) : M World (gptr * bool) :=
  champ <-- get_org thechamp ;;
  sp <-- get_spec s ;;
  if 0 <? SuperChampOffspring champ
  then g <-- superchamp_branch thechamp count ;; ret (g, snd loc)
  else if negb (snd loc) && (5 <? ExpectedOffspring sp)
  then g <-- champ_clone_branch thechamp count ;; ret (g, true)
  else
    r <-- draw rand_Float64 ;;
    if Qltb r (MutateOnlyProb conf) || (poolsize =? 1)
    then g <-- mutate_branch poolsize count ;; ret (g, snd loc)
    else g <-- mate_branch poolsize count (fst loc) ;; ret (g, snd loc).

(** [for count := 0; count < s.ExpectedOffspring; count++]: nothing in
    the loop writes [s.ExpectedOffspring], so [fuel] is the number of
    iterations left. *)
Fixpoint reproduce_loop (fuel : nat) (poolsize : Z) (thechamp : optr)
  (count : Z) (loc : gptr * bool) : M World unit :=
  match fuel with
  | O => ret tt
  | S fuel' =>
      loc' <-- reproduce_one poolsize thechamp count loc ;;
      reproduce_loop fuel' poolsize thechamp (add64 count 1) loc'
  end.

(** [reproduce].  The guard is read as
    [s.ExpectedOffspring > 0 && len(s.Organisms) == 0], the final
    [return true] as [return true, nil], and [sorted_species] as the
    slice of species it is indexed as; the [fmt.Printf] of the debug
    trap changes nothing and is left out. *)
Definition reproduce : M World (bool * error) :=
  sp <-- get_spec s ;;
  if (0 <? ExpectedOffspring sp) && (len (Organisms sp) =? 0)
  then ret (false, Some "ATTEMPT TO REPRODUCE OUT OF EMPTY SPECIES"%string)
  else
    let poolsize := len (Organisms sp) in
    thechamp <-- lift (index (Organisms sp) 0) ;;
    reproduce_loop (Z.to_nat (ExpectedOffspring sp)) poolsize thechamp 0
      (nil_ptr, false) ;;;
    ret (true, None).
End ReproduceBody.

(** ** A scripted collaborator

    For running the embedding: the random draws are read off a list
    ([0] once it is used up), a new genome gets the next free address,
    the mutation operators leave the state alone, a genome's id is its
    address and the compatibility distance of two genomes is the
    distance of their addresses. *)

Record Script : Type := mkScript {
  script : list Q;
  next_genome : gptr
}.

Definition next_draw (w : Script) : Q * Script :=
  (hd 0%Q (script w), mkScript (tl (script w)) (next_genome w)).

Definition fresh_genome (w : Script) : gptr * Script :=
  (next_genome w, mkScript (script w) (S (next_genome w))).

#[export] Instance ScriptCollab : Collaborators Script := {|
  rand_Float64 := next_draw;
  rand_Int31n := fun n w => let r := next_draw w in (Qfloor (fst r) mod n, snd r);
  gaussian_StdGaussian := next_draw;
  duplicate := fun _ _ w => fresh_genome w;
  compatibility := fun a b _ => inject_Z (Z.abs (Z.of_nat a - Z.of_nat b));
  GenomeId := fun g _ => Z.of_nat g;
  mutateLinkWeights := fun _ _ _ w => w;
  mutateAddNode := fun _ w => w;
  mutateAddLink := fun _ _ w => w;
  mutateAllNonstructural := fun _ _ w => w;
  genesis := fun _ _ w => w;
  mateMultipoint := fun _ _ _ _ _ w => fresh_genome w;
  mateMultipointAvg := fun _ _ _ _ _ w => fresh_genome w;
  mateSinglepoint := fun _ _ _ w => fresh_genome w
|}.

(** An organism of a given fitness and genome, every flag unset. *)
Definition plain_org (fit : float64) (g : gptr) : Organism :=
  mkOrganism fit 0%Q 0%Q false false 0 false false 0%Q g nil_ptr 0 false false.

(** A configuration with every probability at one half. *)
Definition demo_conf : Neat :=
  mkNeat 15 1%Q 0.4%Q 1%Q 0.5%Q 0.5%Q 0.5%Q 0.5%Q 0.5%Q 0.5%Q 0.5%Q 0.5%Q 3
    3%Q 10.

(** ** Fixtures

    A store holding the organisms of a list at the addresses 1, 2, ...;
    every other address holds a plain organism of fitness 0. *)
Definition heap_of_list (l : list Organism) : OrgHeap :=
  fun p => match p with
           | O => plain_org 0%Q nil_ptr
           | S i => nth i l (plain_org 0%Q nil_ptr)
           end.

(** A species holding the organisms at the given addresses. *)
Definition species_of (orgs : list optr) : Species :=
  set_Organisms (newSpecies 1) orgs.

(** The shares of all the organisms of a list of species, and the
    offspring allotted to the species of a list. *)
Definition total_shares (ss : list Species) (h : OrgHeap) : Q :=
  fold_right (fun s acc => (shares s h + acc)%Q) 0%Q ss.

Definition total_offspring (ss : list Species) : Z :=
  fold_right (fun s acc => ExpectedOffspring s + acc) 0 ss.

(** An organism with a given individual share of offspring. *)
Definition share_org (e : float64) : Organism :=
  mkOrganism 0%Q 0%Q e false false 0 false false 0%Q nil_ptr nil_ptr 0
    false false.

Definition shares_heap : OrgHeap :=
  heap_of_list [share_org 1.6%Q; share_org 1.6%Q; share_org 0.7%Q].

(** The steps of the fitness adjustment as the specification words them
    (steps 3 to 6 of its algorithm), to be compared with [adjust_org]:
    the stagnation penalty applies when the age debt is at least 1 or
    exactly 0. *)
Definition stagnant (conf : Neat) (s : Species) : bool :=
  (1 <=? age_debt_of conf s) || (age_debt_of conf s =? 0).

Definition spec_penalty (conf : Neat) (s : Species) (f : Q) : Q :=
  if stagnant conf s then (f * 0.01)%Q else f.

Definition spec_boost (conf : Neat) (s : Species) (f : Q) : Q :=
  if Age s <=? 10 then (f * AgeSignificance conf)%Q else f.

Definition spec_clamp (f : Q) : Q := if Qltb f 0 then 0.0001%Q else f.

Definition spec_share (s : Species) (f : Q) : Q :=
  (f / float_of_int (len (Organisms s)))%Q.

(** A species of five organisms, of age 20, that last improved at age
    0 and whose best fitness ever is 100: with [DropOffAge] 15 its age
    debt is 6. *)
Definition stagnant_species : Species :=
  mkSpecies 1 20 0%Q 0%Q 100%Q 0 false false [1; 2; 3; 4; 5]%nat 0.

(** [p] comes before [q] in [l]. *)
Definition precedes (l : list optr) (p q : optr) : Prop :=
  exists i j, (i < j)%nat /\ nth_error l i = Some p /\ nth_error l j = Some q.

(** The scenario of the specification: five organisms of fitness 10, 8,
    6, 4 and 2. *)
Definition scenario_heap : OrgHeap :=
  heap_of_list [plain_org 10%Q 1; plain_org 8%Q 2; plain_org 6%Q 3;
                plain_org 4%Q 4; plain_org 2%Q 5].

(** The same configuration with a given survival threshold. *)
Definition thresh_conf (t : float64) : Neat :=
  mkNeat 15 1%Q t 1%Q 0.5%Q 0.5%Q 0.5%Q 0.5%Q 0.5%Q 0.5%Q 0.5%Q 0.5%Q 3
    3%Q 10.

(** Ten organisms of fitness 10, 9, ..., 1. *)
Definition ten_heap : OrgHeap :=
  heap_of_list [plain_org 10%Q 1; plain_org 9%Q 2; plain_org 8%Q 3;
                plain_org 7%Q 4; plain_org 6%Q 5; plain_org 5%Q 6;
                plain_org 4%Q 7; plain_org 3%Q 8; plain_org 2%Q 9;
                plain_org 1%Q 10].

(** Eight organisms, all of fitness 1 but the seventh. *)
Definition ties_heap : OrgHeap :=
  heap_of_list [plain_org 1%Q 1; plain_org 1%Q 2; plain_org 1%Q 3;
                plain_org 1%Q 4; plain_org 1%Q 5; plain_org 1%Q 6;
                plain_org 5%Q 7; plain_org 1%Q 8].

(** The fitness arguments a crossover call carries, if any. *)
Definition call_fitness (c : Call) : option (float64 * float64) :=
  match c with
  | CMateMultipoint _ _ _ f1 f2 => Some (f1, f2)
  | CMateMultipointAvg _ _ _ f1 f2 => Some (f1, f2)
  | _ => None
  end.

(** A state for the scripted collaborator: species 1 holds [members]
    and expects [k] offspring, species 2 and 3 hold the organisms 8 and
    9, the population lists the species [sps], nothing has been called
    or created yet. *)
Definition script_state (h : OrgHeap) (members : list optr) (k : Z)
  (sps : list sptr) (draws : list Q) : RState Script :=
  mkRState h 10%nat
    (fun p => match p with
              | 1%nat => set_ExpectedOffspring (species_of members) k
              | 2%nat => species_of [8%nat]
              | 3%nat => species_of [9%nat]
              | _ => newSpecies 0
              end)
    4%nat (mkPopulation sps 3) (mkScript draws 20%nat) [] [].

(** Two organisms of original fitness 3 and 2, with the genomes 11 and
    12. *)
Definition pair_heap : OrgHeap :=
  heap_of_list [set_OriginalFitness (plain_org 3%Q 11) 3%Q;
                set_OriginalFitness (plain_org 2%Q 12) 2%Q].

(** A step of [reproduce] that leaves the population's species list and
    the membership of every species as they were. *)
Definition keeps_species {World A : Type} (m : M World A) : Prop :=
  forall st a st',
    m st = Ok (a, st') -> pop st' = pop st /\ specs st' = specs st.

(** Whether the search of [reproduce] for a species to put [baby] in
    accepts the species [sp], in the state [st]: [sp] has an organism,
    and the compatibility distance from the baby's genome to the genome
    of its first organism is below [CompatThreshold]. *)
Definition compatible_species {World : Type} {C : Collaborators World}
  (conf : Neat) (st : RState World) (baby : optr) (sp : sptr) : bool :=
  (0 <? len (Organisms (specs st sp))) &&
  Qltb (compatibility (GNome (orgs st baby))
          (GNome (orgs st (hd nil_ptr (Organisms (specs st sp)))))
          (world st))
       (CompatThreshold conf).
(** A step of [reproduce] that, whenever it returns, has created exactly
    [n] organisms, at the next [n] free addresses. *)
Definition creates {World A : Type} (n : nat) (m : M World A) : Prop :=
  forall st a st',
    m st = Ok (a, st') ->
    next_org st' = (next_org st + n)%nat /\
    babies st' = babies st ++ seq (next_org st) n.

(** The calls of the three crossover operators. *)
Definition is_crossover (c : Call) : bool :=
  match c with
  | CMateMultipoint _ _ _ _ _ => true
  | CMateMultipointAvg _ _ _ _ _ => true
  | CMateSinglepoint _ _ _ => true
  | _ => false
  end.

(** A step of [reproduce] that, from the state [st], returns, leaves
    the species and the list of species as they were, and calls no
    crossover operator. *)
Definition steady_at {World A : Type} (m : M World A) (st : RState World)
  : Prop :=
  exists a st',
    m st = Ok (a, st') /\
    specs st' = specs st /\
    pop st' = pop st /\
    exists cs, calls st' = calls st ++ cs /\
               Forall (fun c => is_crossover c = false) cs.

(** A step of [reproduce] that, whenever it returns, has left the
    organisms alone and created none, every genome call it made
    satisfying [P]. *)
Definition gentle {World A : Type} (P : Call -> Prop) (m : M World A) : Prop :=
  forall st a st',
    m st = Ok (a, st') ->
    orgs st' = orgs st /\ next_org st' = next_org st /\
    babies st' = babies st /\
    exists cs, calls st' = calls st ++ cs /\ Forall P cs.

(** The genome a call is made on. *)
Definition call_receiver (c : Call) : gptr :=
  match c with
  | CDuplicate r _ => r
  | CMutateLinkWeights r _ _ => r
  | CMutateAddNode r => r
  | CMutateAddLink r _ => r
  | CMutateAllNonstructural r => r
  | CGenesis r _ => r
  | CMateMultipoint r _ _ _ _ => r
  | CMateMultipointAvg r _ _ _ _ => r
  | CMateSinglepoint r _ _ => r
  end.

(** A call that clones the genome [g0], or is made on the genome of one
    of the [k] organisms created from the address [from] on. *)
Definition clone_call (g0 : gptr) (h : OrgHeap) (from : optr) (k : nat)
  (c : Call) : Prop :=
  match c with
  | CDuplicate r _ => r = g0
  | _ => exists b, (from <= b < from + k)%nat /\ call_receiver c = GNome (h b)
  end.

(** From [st] to [st'], [k] organisms were created, each with a clone
    of the genome [g0]; the genome of no organism that existed has been
    replaced; every call made was [clone_call]. *)
Definition cloned {World : Type} {C : Collaborators World} (g0 : gptr)
  (k : nat) (st st' : RState World) : Prop :=
  next_org st' = (next_org st + k)%nat /\
  (forall p, (p < next_org st)%nat -> GNome (orgs st' p) = GNome (orgs st p)) /\
  (forall b, (next_org st <= b < next_org st + k)%nat ->
     exists n w, GNome (orgs st' b) = fst (duplicate g0 n w)) /\
  exists cs, calls st' = calls st ++ cs /\
             Forall (clone_call g0 (orgs st') (next_org st) k) cs.

(** [m], run from [st], returns a result and a state that satisfy [Q]. *)
Definition wp {World A : Type} (m : M World A) (st : RState World)
  (Q : A -> RState World -> Prop) : Prop :=
  exists a st', m st = Ok (a, st') /\ Q a st'.

(** A call other than a duplication, made on the genome [g]. *)
Definition mutation_on (g : gptr) (c : Call) : Prop :=
  match c with
  | CDuplicate _ _ => False
  | _ => call_receiver c = g
  end.

(* ================================================================= *)
(** * Properties *)

(** Closed comparisons of rationals, by computation. *)
Ltac qcompute :=
  vm_compute; first [reflexivity | discriminate | intro; discriminate].

(** A closed list of addresses has no repetition. *)
Ltac nodup_tac :=
  repeat (constructor; [simpl; intuition discriminate|]); constructor.

(** ** Arithmetic helpers *)

Lemma Qltb_lt (x y : Q) : Qltb x y = true <-> (x < y)%Q.
Proof.
  unfold Qltb. rewrite negb_true_iff. split; intro H.
  - apply Qnot_le_lt. intro Hle. apply Qle_bool_iff in Hle. congruence.
  - destruct (Qle_bool y x) eqn:E; [|reflexivity].
    apply Qle_bool_iff in E. exfalso. apply (Qlt_not_le _ _ H E).
Qed.

Lemma Qltb_ge (x y : Q) : Qltb x y = false <-> (y <= x)%Q.
Proof.
  unfold Qltb. rewrite negb_false_iff. apply Qle_bool_iff.
Qed.

Lemma wrap64_small (z : Z) : minInt64 <= z <= maxInt64 -> wrap64 z = z.
Proof.
  unfold wrap64, minInt64, maxInt64. intros H.
  rewrite Z.mod_small; lia.
Qed.

Lemma int_of_float_small (z : Z) :
  minInt64 <= z <= maxInt64 -> int_of_float z = z.
Proof.
  unfold int_of_float, in_int64. intros [H1 H2].
  apply Z.leb_le in H1. apply Z.leb_le in H2. now rewrite H1, H2.
Qed.

(** ** Membership: [addOrganism] and [removeOrganism] *)

Lemma filter_neq_notin (o : optr) (l : list optr) :
  ~ In o l -> filter (fun x => negb (Nat.eqb x o)) l = l.
Proof.
  induction l as [|a l IH]; simpl; intros Hn; [reflexivity|].
  destruct (Nat.eqb_spec a o) as [->|Hne]; simpl.
  - exfalso. apply Hn. now left.
  - f_equal. apply IH. intro Hin. apply Hn. now right.
Qed.

Lemma filter_neq_length_le (o : optr) (l : list optr) :
  (length (filter (fun x => negb (Nat.eqb x o)) l) <= length l)%nat.
Proof.
  induction l as [|a l IH]; simpl; [lia|].
  destruct (negb (Nat.eqb a o)); simpl; lia.
Qed.

Lemma filter_neq_in_length (o : optr) (l : list optr) :
  In o l -> (length (filter (fun x => negb (Nat.eqb x o)) l) < length l)%nat.
Proof.
  induction l as [|a l IH]; simpl; intros Hin; [contradiction|].
  destruct (Nat.eqb_spec a o) as [->|Hne]; simpl.
  - pose proof (filter_neq_length_le o l). lia.
  - destruct Hin as [->|Hin]; [congruence|]. specialize (IH Hin). lia.
Qed.

Lemma filter_neq_snoc (o : optr) (l : list optr) :
  filter (fun x => negb (Nat.eqb x o)) (l ++ [o])
  = filter (fun x => negb (Nat.eqb x o)) l.
Proof.
  rewrite filter_app. simpl. rewrite Nat.eqb_refl. simpl. apply app_nil_r.
Qed.

Lemma set_Organisms_same (s : Species) :
  set_Organisms s (Organisms s) = s.
Proof. now destruct s. Qed.

Lemma set_Organisms_add (s : Species) (o : optr) :
  set_Organisms (addOrganism s o) (Organisms s) = s.
Proof. now destruct s. Qed.

Lemma removeOrganism_absent (s : Species) (o : optr) :
  ~ In o (Organisms s) ->
  exists msg, removeOrganism s o = ((false, Some msg), s).
Proof.
  intros Hn. unfold removeOrganism.
  rewrite (filter_neq_notin o _ Hn).
  destruct (len (Organisms s) =? len (Organisms s) - 1) eqn:E.
  - apply Z.eqb_eq in E. lia.
  - simpl. eexists. reflexivity.
Qed.

(** ** The champion by fitness *)

Lemma findChampion_fold (h : OrgHeap) (l : list optr) :
  forall (b : float64) (c : option optr),
    let r := fold_left (findChampion_step h) l (b, c) in
    (r = (b, c) /\ forall q, In q l -> (Fitness (h q) <= b)%Q) \/
    (exists i c0,
        nth_error l i = Some c0 /\
        r = (Fitness (h c0), Some c0) /\
        (b < Fitness (h c0))%Q /\
        (forall q, In q l -> (Fitness (h q) <= Fitness (h c0))%Q) /\
        (forall j q, (j < i)%nat -> nth_error l j = Some q ->
                     (Fitness (h q) < Fitness (h c0))%Q)).
Proof.
  induction l as [|o l IH]; intros b c; cbv zeta; simpl.
  - left. split; [reflexivity|]. intros q Hq. contradiction.
  - replace (findChampion_step h (b, c) o)
      with (if Qltb b (Fitness (h o)) then (Fitness (h o), Some o) else (b, c))
      by reflexivity.
    destruct (Qltb b (Fitness (h o))) eqn:E.
    + apply Qltb_lt in E. right.
      destruct (IH (Fitness (h o)) (Some o))
        as [[Hr Hall]|(i & c0 & Hn & Hr & Hlt & Hall & Hbef)].
      * exists 0%nat, o. simpl.
        split; [reflexivity|]. split; [exact Hr|]. split; [exact E|]. split.
        -- intros q [<-|Hq]; [apply Qle_refl|auto].
        -- intros j q Hj. lia.
      * exists (S i), c0. simpl.
        split; [exact Hn|]. split; [exact Hr|]. split; [lra|]. split.
        -- intros q [<-|Hq]; [lra|auto].
        -- intros [|j] q Hj Hq; simpl in Hq.
           ++ injection Hq as <-. exact Hlt.
           ++ apply (Hbef j q); [lia|exact Hq].
    + apply Qltb_ge in E.
      destruct (IH b c) as [[Hr Hall]|(i & c0 & Hn & Hr & Hlt & Hall & Hbef)].
      * left. split; [exact Hr|]. intros q [<-|Hq]; auto.
      * right. exists (S i), c0. simpl.
        split; [exact Hn|]. split; [exact Hr|]. split; [exact Hlt|]. split.
        -- intros q [<-|Hq]; [lra|auto].
        -- intros [|j] q Hj Hq; simpl in Hq.
           ++ injection Hq as <-. lra.
           ++ apply (Hbef j q); [lia|exact Hq].
Qed.

(** C9. Removing an organism right after adding it gives back the
    organism set the species had before the addition; when the organism
    was not yet a member the removal succeeds and gives back the species
    itself. Removing an organism that is not a member returns an error
    and leaves the species as it was. *)
Theorem removeOrganism_addOrganism_symmetry (s : Species) (o : optr) :
  (forall x,
      In x (Organisms (snd (removeOrganism (addOrganism s o) o)))
      <-> In x (Organisms s)) /\
  (~ In o (Organisms s) ->
   removeOrganism (addOrganism s o) o = ((true, None), s)) /\
  (~ In o (Organisms s) ->
   exists msg, removeOrganism s o = ((false, Some msg), s)).
Proof.
  assert (Hlen : len (Organisms (addOrganism s o)) - 1 = len (Organisms s)).
  { unfold len, addOrganism. simpl. rewrite length_app. simpl. lia. }
  assert (Hnotin : ~ In o (Organisms s) ->
                   removeOrganism (addOrganism s o) o = ((true, None), s)).
  { intros Hn. unfold removeOrganism. rewrite Hlen.
    replace (Organisms (addOrganism s o)) with (Organisms s ++ [o]) by reflexivity.
    rewrite filter_neq_snoc, (filter_neq_notin o _ Hn), Z.eqb_refl. simpl.
    now rewrite set_Organisms_add. }
  split; [|split; [exact Hnotin|apply removeOrganism_absent]].
  intros x. destruct (in_dec Nat.eq_dec o (Organisms s)) as [Hin|Hn].
  - unfold removeOrganism. rewrite Hlen.
    replace (Organisms (addOrganism s o)) with (Organisms s ++ [o]) by reflexivity.
    rewrite filter_neq_snoc.
    pose proof (filter_neq_in_length o _ Hin) as Hlt.
    destruct (len (filter (fun x0 => negb (Nat.eqb x0 o)) (Organisms s))
              =? len (Organisms s)) eqn:E.
    + apply Z.eqb_eq in E. unfold len in E. lia.
    + simpl. rewrite in_app_iff. simpl. split.
      * intros [Hx|[<-|[]]]; assumption.
      * intros Hx. now left.
  - rewrite (Hnotin Hn). simpl. reflexivity.
Qed.

Lemma removeOrganism_addOrganism_symmetry_witness :
  removeOrganism (addOrganism (species_of [1; 2]%nat) 3%nat) 3%nat
  = ((true, None), species_of [1; 2]%nat) /\
  exists msg,
    removeOrganism (species_of [1; 2]%nat) 3%nat
    = ((false, Some msg), species_of [1; 2]%nat).
Proof.
  assert (Hn : ~ In 3%nat (Organisms (species_of [1; 2]%nat))).
  { simpl. intros [H|[H|[]]]; discriminate. }
  destruct (removeOrganism_addOrganism_symmetry (species_of [1; 2]%nat) 3%nat)
    as (_ & Hadd & Habs).
  split; [exact (Hadd Hn)|exact (Habs Hn)].
Defined.

(** C10. [findChampion] returns no organism when every organism of the
    species has fitness at most 0; otherwise it returns the first
    organism, in list order, whose fitness is the greatest. *)
Theorem findChampion_first_greatest (s : Species) (h : OrgHeap) :
  ((forall p, In p (Organisms s) -> (Fitness (h p) <= 0)%Q) ->
   findChampion s h = None) /\
  ((exists p, In p (Organisms s) /\ (0 < Fitness (h p))%Q) ->
   exists i c,
     findChampion s h = Some c /\
     nth_error (Organisms s) i = Some c /\
     (forall q, In q (Organisms s) -> (Fitness (h q) <= Fitness (h c))%Q) /\
     (forall j q, (j < i)%nat -> nth_error (Organisms s) j = Some q ->
                  (Fitness (h q) < Fitness (h c))%Q)).
Proof.
  unfold findChampion.
  destruct (findChampion_fold h (Organisms s) 0%Q None)
    as [[Hr Hall]|(i & c0 & Hn & Hr & Hlt & Hall & Hbef)]; rewrite Hr; simpl.
  - split; [reflexivity|]. intros (p & Hp & Hpos).
    specialize (Hall p Hp). lra.
  - split.
    + intros Hle. apply nth_error_In in Hn. specialize (Hle c0 Hn). lra.
    + intros _. exists i, c0. auto.
Qed.

Lemma findChampion_first_greatest_witness :
  findChampion (species_of [1; 2; 3]%nat)
    (heap_of_list [plain_org (-1)%Q 1; plain_org 0%Q 2; plain_org (-3)%Q 3])
  = None /\
  exists i c,
    findChampion (species_of [1; 2; 3]%nat)
      (heap_of_list [plain_org 2%Q 1; plain_org 5%Q 2; plain_org 5%Q 3])
    = Some c /\
    nth_error [1; 2; 3]%nat i = Some c.
Proof.
  split.
  - apply (proj1 (findChampion_first_greatest _ _)).
    simpl. intros p [<-|[<-|[<-|[]]]]; simpl; lra.
  - destruct (proj2 (findChampion_first_greatest (species_of [1; 2; 3]%nat)
        (heap_of_list [plain_org 2%Q 1; plain_org 5%Q 2; plain_org 5%Q 3])))
      as (i & c & Hc & Hn & _).
    + exists 1%nat. split; [simpl; now left|simpl; lra].
    + exists i, c. split; [exact Hc|exact Hn].
Defined.

(** ** Offspring allocation *)

Lemma math_Mod1_nonneg (x : Q) :
  (0 <= x)%Q -> math_Mod1 x = (x - inject_Z (Qfloor x))%Q.
Proof.
  intros Hx. unfold math_Mod1. destruct x as [n d]. simpl.
  unfold Qle in Hx. simpl in Hx.
  rewrite Z.quot_div_nonneg; [reflexivity|lia|lia].
Qed.

Lemma Qfloor_nonneg (x : Q) : (0 <= x)%Q -> 0 <= Qfloor x.
Proof.
  intros Hx. change 0 with (Qfloor 0). now apply Qfloor_resp_le.
Qed.

Lemma pow2_pos (z : Z) : (0 < pow2 z)%Q.
Proof. apply Qpower_0_lt. reflexivity. Qed.

Lemma rne_ge_floor (m : Q) : Qfloor m <= rne m.
Proof.
  unfold rne. destruct (Qcompare _ _); [destruct (Z.even _)| |]; lia.
Qed.

Lemma rne_ge (m : Q) (k : Z) : (inject_Z k <= m)%Q -> k <= rne m.
Proof.
  intros H. pose proof (rne_ge_floor m).
  apply Qfloor_resp_le in H. rewrite Qfloor_Z in H. lia.
Qed.

Lemma round64_pos_nonneg (x : Q) : (0 <= x)%Q -> (0 <= round64_pos x)%Q.
Proof.
  intros Hx. unfold round64_pos.
  set (q := Z.max _ _). pose proof (pow2_pos q) as Hp.
  apply Qmult_le_0_compat; [|lra].
  change 0%Q with (inject_Z 0). rewrite <- Zle_Qle.
  apply rne_ge. change (inject_Z 0) with 0%Q.
  apply Qle_shift_div_l; [exact Hp|]. lra.
Qed.

Lemma round64_nonneg (x : Q) : (0 <= x)%Q -> (0 <= round64 x)%Q.
Proof.
  intros Hx. unfold round64.
  destruct (Qcompare x 0) eqn:E.
  - lra.
  - apply Qlt_alt in E. lra.
  - apply round64_pos_nonneg, Hx.
Qed.

Lemma round64_ge_1 (x : Q) : (1 <= x)%Q -> (1 <= round64 x)%Q.
Proof.
  intros Hx. unfold round64.
  destruct (Qcompare x 0) eqn:E.
  - apply Qeq_alt in E. lra.
  - apply Qlt_alt in E. lra.
  - clear E. unfold round64_pos, ilog2.
    assert (Hb : Qle_bool 1 x = true) by (apply Qle_bool_iff; exact Hx).
    rewrite Hb.
    set (e := Z.log2 (Qfloor x)).
    assert (Hf : 1 <= Qfloor x).
    { apply Qfloor_resp_le in Hx. exact Hx. }
    assert (He : 0 <= e) by apply Z.log2_nonneg.
    assert (Hpe : (pow2 e <= x)%Q).
    { unfold pow2. change 2%Q with (inject_Z 2).
      rewrite <- Zpower_Qpower by exact He.
      apply Qle_trans with (inject_Z (Qfloor x)); [|apply Qfloor_le].
      rewrite <- Zle_Qle.
      destruct (Z.log2_spec (Qfloor x)) as [H _]; [lia|exact H]. }
    replace (Z.max (e - 52) (-1074)) with (e - 52) by lia.
    set (q := e - 52).
    pose proof (pow2_pos q) as Hq.
    assert (Hsum : (pow2 52 * pow2 q == pow2 e)%Q).
    { unfold pow2. rewrite <- Qpower_plus by discriminate.
      replace (52 + q) with e by (unfold q; lia). reflexivity. }
    assert (Hk : 2 ^ 52 <= rne (x / pow2 q)).
    { apply rne_ge. apply Qle_shift_div_l; [exact Hq|].
      change (inject_Z (2 ^ 52)) with (pow2 52).
      rewrite Hsum. exact Hpe. }
    apply Qle_trans with (pow2 e).
    + apply Qpower_1_le; [discriminate|exact He].
    + rewrite <- Hsum. apply Qmult_le_compat_r; [|lra].
      change (pow2 52) with (inject_Z (2 ^ 52)).
      rewrite <- Zle_Qle. exact Hk.
Qed.

Lemma Qfloor_ge_1 (x : Q) : (1 <= x)%Q -> 1 <= Qfloor x.
Proof.
  intros Hx. change 1 with (Qfloor 1). now apply Qfloor_resp_le.
Qed.

Lemma inject_Z_lt_bound (z : Z) (q : Q) :
  (inject_Z z <= q)%Q -> (q < inject_Z (2 ^ 63))%Q -> z <= maxInt64.
Proof.
  intros H1 H2. assert (H : (inject_Z z < inject_Z (2 ^ 63))%Q) by lra.
  rewrite <- Zlt_Qlt in H. unfold maxInt64. lia.
Qed.

Lemma inject_Z_le_mono (a b : Z) : a <= b -> (inject_Z a <= inject_Z b)%Q.
Proof. intros H. now rewrite <- Zle_Qle. Qed.

Lemma countOffspring_step_ok (h : OrgHeap) (eo : Z) (skim : Q) (o : nat) :
  0 <= eo -> (0 <= skim)%Q -> (0 <= OrgExpectedOffspring (h o))%Q ->
  (inject_Z eo + skim + OrgExpectedOffspring (h o) < inject_Z (2 ^ 63))%Q ->
  let r := countOffspring_step h (eo, skim) o in
  0 <= fst r /\ (0 <= snd r)%Q /\
  (inject_Z (fst r) + snd r == inject_Z eo + skim + OrgExpectedOffspring (h o))%Q /\
  ((skim < 1)%Q -> (snd r < 1)%Q).
Proof.
  intros Heo Hsk He Hb. cbv zeta. unfold countOffspring_step, math_Floor, add64. cbn [fst snd].
  set (e := OrgExpectedOffspring (h o)) in *. clearbody e.
  pose proof (Qfloor_le e) as Hf1. pose proof (Qlt_floor e) as Hf2.
  pose proof (Qfloor_nonneg e He) as Hf0.
  rewrite inject_Z_plus in Hf2. 
  pose proof (inject_Z_le_mono 0 eo Heo) as Heo'.
  pose proof (inject_Z_le_mono 0 _ Hf0) as Hf0'.
  change (inject_Z 0) with 0%Q in Heo', Hf0'.
  rewrite (math_Mod1_nonneg e He).
  rewrite !(int_of_float_small (Qfloor e)).
  2:{ split; [unfold minInt64; lia|]. apply (inject_Z_lt_bound _ e); [exact Hf1|lra]. }
  rewrite !(wrap64_small (eo + Qfloor e)).
  2:{ split; [unfold minInt64; lia|].
      apply (inject_Z_lt_bound _ (inject_Z eo + e)%Q); [rewrite inject_Z_plus; lra|lra]. }
  destruct (Qle_bool 1 (skim + (e - inject_Z (Qfloor e)))) eqn:E.
  - apply Qle_bool_iff in E.
    set (sk := (skim + (e - inject_Z (Qfloor e)))%Q) in *.
    assert (Hdef : (sk == skim + (e - inject_Z (Qfloor e)))%Q) by reflexivity.
    clearbody sk.
    pose proof (Qfloor_le sk) as Hs1. pose proof (Qlt_floor sk) as Hs2.
    pose proof (Qfloor_ge_1 sk E) as Hs0.
    rewrite inject_Z_plus in Hs2.
    pose proof (inject_Z_le_mono 1 _ Hs0) as Hs0'.
    change (inject_Z 1) with 1%Q in Hs0'.
    rewrite (int_of_float_small (Qfloor sk)).
    2:{ split; [unfold minInt64; lia|].
        apply (inject_Z_lt_bound _ sk); [exact Hs1|lra]. }
    rewrite !(wrap64_small (eo + Qfloor e + Qfloor sk)).
    2:{ split; [unfold minInt64; lia|].
        apply (inject_Z_lt_bound _ (inject_Z eo + inject_Z (Qfloor e) + sk)%Q);
          [rewrite !inject_Z_plus; lra|lra]. }
    cbn [fst snd].
    split; [lia|]. rewrite !inject_Z_plus.
    change (inject_Z 1) with 1%Q in *.
    generalize dependent (inject_Z (Qfloor sk)).
    generalize dependent (inject_Z (Qfloor e)).
    generalize dependent (inject_Z eo).
    intros qeo _ _ qe Hq1 Hq2 _ Hq3 qs Hq4 Hq5 _.
    split; [lra|]. split; [lra|].
    intros _. lra.
  - assert (E' : (skim + (e - inject_Z (Qfloor e)) < 1)%Q).
    { apply Qnot_le_lt. intro Hle. apply Qle_bool_iff in Hle. congruence. }
    cbn [fst snd].
    split; [lia|]. split; [lra|]. split; [|intros _; exact E'].
    rewrite !inject_Z_plus.
    generalize dependent (inject_Z (Qfloor e)).
    generalize dependent (inject_Z eo).
    intros qeo _ _ qe Hq1 Hq2 _ _. lra.
Qed.

Lemma sum_shares_nonneg (h : OrgHeap) (l : list nat) :
  (forall o, In o l -> (0 <= OrgExpectedOffspring (h o))%Q) ->
  (0 <= sum_shares h l)%Q.
Proof.
  induction l as [|a l IH]; intros H.
  - apply Qle_refl.
  - change (sum_shares h (a :: l))
      with (OrgExpectedOffspring (h a) + sum_shares h l)%Q.
    assert (H1 := H a (or_introl eq_refl)).
    assert (H2 : (0 <= sum_shares h l)%Q)
      by (apply IH; intros; apply H; now right).
    lra.
Qed.

Lemma countOffspring_fold (h : OrgHeap) (l : list nat) :
  forall (eo : Z) (skim : Q),
    0 <= eo -> (0 <= skim)%Q ->
    (forall o, In o l -> (0 <= OrgExpectedOffspring (h o))%Q) ->
    (inject_Z eo + skim + sum_shares h l < inject_Z (2 ^ 63))%Q ->
    let r := fold_left (countOffspring_step h) l (eo, skim) in
    0 <= fst r /\ (0 <= snd r)%Q /\
    (inject_Z (fst r) + snd r == inject_Z eo + skim + sum_shares h l)%Q /\
    ((skim < 1)%Q -> (snd r < 1)%Q).
Proof.
  induction l as [|a l IH]; intros eo skim Heo Hsk Hall Hb; cbv zeta.
  - cbn [fold_left fst snd]. change (sum_shares h []) with 0%Q.
    split; [exact Heo|]. split; [exact Hsk|]. split; [lra|auto].
  - simpl fold_left. change (sum_shares h (a :: l))
      with (OrgExpectedOffspring (h a) + sum_shares h l)%Q in *.
    assert (Ha := Hall a (or_introl eq_refl)).
    assert (Hl : forall o, In o l -> (0 <= OrgExpectedOffspring (h o))%Q)
      by (intros; apply Hall; now right).
    pose proof (sum_shares_nonneg h l Hl) as Hs.
    destruct (countOffspring_step_ok h eo skim a Heo Hsk Ha) as (H1 & H2 & H3 & H4);
      [lra|].
    destruct (countOffspring_step h (eo, skim) a) as [eo1 sk1] eqn:E.
    cbn [fst snd] in *.
    destruct (IH eo1 sk1 H1 H2 Hl) as (K1 & K2 & K3 & K4); [lra|].
    split; [exact K1|]. split; [exact K2|]. split; [lra|].
    intros Hlt. auto.
Qed.

Lemma countOffspring_ok (h : OrgHeap) (s : Species) (skim : Q) :
  (forall o, In o (Organisms s) -> (0 <= OrgExpectedOffspring (h o))%Q) ->
  (0 <= skim)%Q ->
  (skim + shares s h < inject_Z (2 ^ 63))%Q ->
  let r := countOffspring s h skim in
  0 <= ExpectedOffspring (snd r) /\ (0 <= fst r)%Q /\
  (inject_Z (ExpectedOffspring (snd r)) + fst r == skim + shares s h)%Q /\
  ((skim < 1)%Q -> (fst r < 1)%Q).
Proof.
  intros Hall Hsk Hb. cbv zeta. unfold countOffspring, shares in *.
  cbn [fst snd ExpectedOffspring set_ExpectedOffspring].
  destruct (countOffspring_fold h (Organisms s) 0 skim) as (H1 & H2 & H3 & H4);
    auto; [lia| |].
  - change (inject_Z 0) with 0%Q. lra.
  - change (inject_Z 0) with 0%Q in H3. repeat split; auto. lra.
Qed.

Lemma countOffspring_chain_ok (h : OrgHeap) (ss : list Species) :
  forall skim : Q,
    (forall s o, In s ss -> In o (Organisms s) ->
                 (0 <= OrgExpectedOffspring (h o))%Q) ->
    (0 <= skim)%Q ->
    (skim + total_shares ss h < inject_Z (2 ^ 63))%Q ->
    let r := countOffspring_chain ss h skim in
    Forall (fun s => 0 <= ExpectedOffspring s) (snd r) /\
    (0 <= fst r)%Q /\
    (inject_Z (total_offspring (snd r)) + fst r == skim + total_shares ss h)%Q /\
    ((skim < 1)%Q -> (fst r < 1)%Q).
Proof.
  induction ss as [|s ss IH]; intros skim Hall Hsk Hb; cbv zeta.
  - cbn [countOffspring_chain fst snd total_offspring fold_right].
    change (total_shares [] h) with 0%Q. change (inject_Z 0) with 0%Q.
    split; [constructor|]. split; [exact Hsk|]. split; [lra|auto].
  - change (total_shares (s :: ss) h)
      with (shares s h + total_shares ss h)%Q in *.
    assert (Hs : forall o, In o (Organisms s) ->
                           (0 <= OrgExpectedOffspring (h o))%Q)
      by (intros o Ho; apply (Hall s o); [now left|exact Ho]).
    assert (Hss : forall s' o, In s' ss -> In o (Organisms s') ->
                               (0 <= OrgExpectedOffspring (h o))%Q)
      by (intros s' o Hs' Ho; apply (Hall s' o); [now right|exact Ho]).
    assert (Hrest : (0 <= total_shares ss h)%Q).
    { clear - Hss. induction ss as [|t ss IH].
      - apply Qle_refl.
      - change (total_shares (t :: ss) h)
          with (shares t h + total_shares ss h)%Q.
        assert (0 <= shares t h)%Q
          by (apply sum_shares_nonneg; intros o Ho; apply (Hss t o); [now left|exact Ho]).
        assert (0 <= total_shares ss h)%Q
          by (apply IH; intros s' o Hs' Ho; apply (Hss s' o); [now right|exact Ho]).
        lra. }
    destruct (countOffspring_ok h s skim Hs Hsk) as (H1 & H2 & H3 & H4); [lra|].
    cbn [countOffspring_chain fst snd].
    destruct (countOffspring s h skim) as [sk1 s1] eqn:E. cbn [fst snd] in *.
    assert (Heo1 : (0 <= inject_Z (ExpectedOffspring s1))%Q)
      by (apply (inject_Z_le_mono 0); exact H1).
    destruct (IH sk1 Hss H2) as (K1 & K2 & K3 & K4); [lra|].
    split; [constructor; assumption|]. split; [exact K2|]. split; [|auto].
    change (total_offspring (s1 :: snd (countOffspring_chain ss h sk1)))
      with (ExpectedOffspring s1 + total_offspring (snd (countOffspring_chain ss h sk1))).
    rewrite inject_Z_plus. lra.
Qed.

(** C3. With non-negative individual shares and a non-negative initial
    skim, the total fitting a Go [int], [countOffspring] leaves a
    non-negative [ExpectedOffspring] and returns a skim such that the two
    add up to the initial skim plus the sum of the individual shares.
    Chained over the species in rank order from a skim of 0, the integer
    totals plus the final skim equal the sum of all the shares, the final
    skim is below 1, and so the totals fall short of the ideal total by
    less than 1. *)
Theorem countOffspring_conservation (h : OrgHeap) :
  (forall (s : Species) (skim : Q),
      (forall o, In o (Organisms s) -> (0 <= OrgExpectedOffspring (h o))%Q) ->
      (0 <= skim)%Q ->
      (skim + shares s h < inject_Z (2 ^ 63))%Q ->
      let r := countOffspring s h skim in
      0 <= ExpectedOffspring (snd r) /\ (0 <= fst r)%Q /\
      (inject_Z (ExpectedOffspring (snd r)) + fst r == skim + shares s h)%Q) /\
  (forall ss : list Species,
      (forall s o, In s ss -> In o (Organisms s) ->
                   (0 <= OrgExpectedOffspring (h o))%Q) ->
      (total_shares ss h < inject_Z (2 ^ 63))%Q ->
      let r := countOffspring_chain ss h 0 in
      Forall (fun s => 0 <= ExpectedOffspring s) (snd r) /\
      (inject_Z (total_offspring (snd r)) + fst r == total_shares ss h)%Q /\
      (0 <= fst r)%Q /\ (fst r < 1)%Q /\
      (total_shares ss h - 1 < inject_Z (total_offspring (snd r)))%Q /\
      (inject_Z (total_offspring (snd r)) <= total_shares ss h)%Q).
Proof.
  split.
  - intros s skim Hall Hsk Hb.
    destruct (countOffspring_ok h s skim Hall Hsk Hb) as (H1 & H2 & H3 & _).
    cbv zeta. auto.
  - intros ss Hall Hb.
    destruct (countOffspring_chain_ok h ss 0 Hall) as (H1 & H2 & H3 & H4);
      [lra|lra|].
    cbv zeta. assert (H5 := H4 ltac:(lra)).
    split; [exact H1|]. split; [lra|]. split; [exact H2|]. split; [exact H5|].
    split; lra.
Qed.

Example countOffspring_scenario :
  let r := countOffspring (species_of [1; 2]%nat) shares_heap 0 in
  ExpectedOffspring (snd r) = 3 /\ (fst r == 0.2)%Q.
Proof. split; qcompute. Qed.

Lemma countOffspring_conservation_witness :
  (let r := countOffspring (species_of [1; 2]%nat) shares_heap 0 in
   0 <= ExpectedOffspring (snd r) /\ (0 <= fst r)%Q /\
   (inject_Z (ExpectedOffspring (snd r)) + fst r
    == 0 + shares (species_of [1; 2]%nat) shares_heap)%Q) /\
  (let ss := [species_of [1; 2]%nat; species_of [3]%nat] in
   let r := countOffspring_chain ss shares_heap 0 in
   (inject_Z (total_offspring (snd r)) + fst r == total_shares ss shares_heap)%Q /\
   (fst r < 1)%Q).
Proof.
  split.
  - apply (proj1 (countOffspring_conservation shares_heap)).
    + intros o [<-|[<-|[]]]; qcompute.
    + qcompute.
    + qcompute.
  - destruct (proj2 (countOffspring_conservation shares_heap)
                [species_of [1; 2]%nat; species_of [3]%nat])
      as (_ & H1 & _ & H2 & _).
    + intros s o [<-|[<-|[]]]; simpl.
      * intros [<-|[<-|[]]]; qcompute.
      * intros [<-|[]]; qcompute.
    + qcompute.
    + split; [exact H1|exact H2].
Defined.

(** ** The sort *)

Section GoSortFacts.
Context {A : Type} (less : A -> A -> bool).

Lemma insert_back_perm (x : A) (rp : list A) :
  Permutation (x :: rp) (insert_back less x rp).
Proof.
  induction rp as [|y rp IH]; simpl; [reflexivity|].
  destruct (less x y); [|reflexivity].
  rewrite perm_swap. now constructor.
Qed.

Lemma fold_insert_back_perm (l : list A) :
  forall acc,
    Permutation (l ++ acc)
      (fold_left (fun rp x => insert_back less x rp) l acc).
Proof.
  induction l as [|x l IH]; intros acc; simpl; [reflexivity|].
  rewrite <- IH. rewrite <- insert_back_perm.
  apply Permutation_middle.
Qed.

Lemma insertionSort_perm (l : list A) :
  Permutation l (insertionSort less l).
Proof.
  unfold insertionSort. rewrite <- Permutation_rev.
  rewrite <- fold_insert_back_perm. now rewrite app_nil_r.
Qed.

Lemma gap_pass_perm (front back : list A) :
  Permutation (front ++ back)
    (fst (gap_pass less front back) ++ snd (gap_pass less front back)).
Proof.
  revert back. induction front as [|x f IH]; intros [|y b]; simpl;
    try reflexivity.
  specialize (IH b).
  destruct (less y x); simpl.
  - rewrite <- !Permutation_middle. rewrite <- IH. apply perm_swap.
  - rewrite <- !Permutation_middle. rewrite <- IH. reflexivity.
Qed.

Lemma sort_small_perm (l : list A) : Permutation l (sort_small less l).
Proof.
  unfold sort_small. rewrite <- insertionSort_perm.
  rewrite <- gap_pass_perm. now rewrite firstn_skipn.
Qed.

Hypothesis less_swo : StrictWeak less.

Lemma insert_back_sorted (x : A) (rp : list A) :
  StronglySorted (fun a b => less a b = false) rp ->
  StronglySorted (fun a b => less a b = false) (insert_back less x rp).
Proof.
  destruct less_swo as [Hasym Hneg].
  induction rp as [|y rp IH]; intros Hs; simpl.
  - constructor; constructor.
  - inversion Hs as [|? ? Hs' Hall]; subst.
    destruct (less x y) eqn:E.
    + constructor; [now apply IH|].
      apply (Permutation_Forall (insert_back_perm x rp)).
      constructor; [now apply Hasym|exact Hall].
    + constructor; [exact Hs|].
      constructor; [exact E|].
      eapply Forall_impl; [|exact Hall]. intros z Hz. now apply (Hneg x y z).
Qed.

Lemma fold_insert_back_sorted (l : list A) :
  forall acc,
    StronglySorted (fun a b => less a b = false) acc ->
    StronglySorted (fun a b => less a b = false)
      (fold_left (fun rp x => insert_back less x rp) l acc).
Proof.
  induction l as [|x l IH]; intros acc Hs; simpl; [exact Hs|].
  apply IH. now apply insert_back_sorted.
Qed.
End GoSortFacts.

Lemma StronglySorted_snoc {A : Type} (R : A -> A -> Prop) (l : list A) (a : A) :
  StronglySorted R l -> Forall (fun z => R z a) l ->
  StronglySorted R (l ++ [a]).
Proof.
  induction l as [|x l IH]; intros Hs Hall; simpl.
  - constructor; constructor.
  - inversion Hs as [|? ? Hs' Hx]; subst.
    inversion Hall as [|? ? Hxa Hall']; subst.
    constructor; [now apply IH|].
    apply Forall_app. split; [exact Hx|]. now constructor.
Qed.

Lemma StronglySorted_rev {A : Type} (R : A -> A -> Prop) (l : list A) :
  StronglySorted R l -> StronglySorted (fun a b => R b a) (rev l).
Proof.
  induction 1 as [|a l Hs IH Hall]; simpl; [constructor|].
  apply StronglySorted_snoc; [exact IH|].
  apply Forall_rev. exact Hall.
Qed.

Lemma sort_small_contract : SortContract (@sort_small nat).
Proof.
  intros less l. split; [apply sort_small_perm|].
  intros Hswo. unfold sort_small, insertionSort.
  apply (StronglySorted_rev (fun a b => less a b = false)).
  apply fold_insert_back_sorted; [exact Hswo|constructor].
Qed.

Lemma insertionSort_contract : SortContract (@insertionSort nat).
Proof.
  intros less l. split; [apply insertionSort_perm|].
  intros Hswo. unfold insertionSort.
  apply (StronglySorted_rev (fun a b => less a b = false)).
  apply fold_insert_back_sorted; [exact Hswo|constructor].
Qed.

(** ** Stores updated along a list of addresses *)

Lemma upd_same {A : Type} (h : nat -> A) (p : nat) (v : A) : upd h p v p = v.
Proof. unfold upd. now rewrite Nat.eqb_refl. Qed.

Lemma upd_other {A : Type} (h : nat -> A) (p q : nat) (v : A) :
  q <> p -> upd h p v q = h q.
Proof. unfold upd. intros H. apply Nat.eqb_neq in H. now rewrite H. Qed.

Section FoldUpd.
Context {A : Type} (f : A -> A).

Let step := fun (h : nat -> A) (p : nat) => upd h p (f (h p)).

Lemma fold_upd_notin (l : list nat) :
  forall h p, ~ In p l -> fold_left step l h p = h p.
Proof.
  induction l as [|a l IH]; intros h p Hn; simpl; [reflexivity|].
  rewrite IH by (intro; apply Hn; now right).
  unfold step. apply upd_other. intros ->. apply Hn. now left.
Qed.

Lemma fold_upd_in (l : list nat) :
  forall h p, NoDup l -> In p l -> fold_left step l h p = f (h p).
Proof.
  induction l as [|a l IH]; intros h p Hnd Hin; simpl; [contradiction|].
  inversion Hnd as [|? ? Hna Hnd']; subst.
  destruct Hin as [->|Hin].
  - rewrite fold_upd_notin by exact Hna. unfold step. apply upd_same.
  - rewrite IH by assumption. unfold step. rewrite upd_other; [reflexivity|].
    intros ->. contradiction.
Qed.

Lemma fold_upd_image (l : list nat) :
  forall h p, In p l -> exists o, fold_left step l h p = f o.
Proof.
  induction l as [|a l IH]; intros h p Hin; simpl; [contradiction|].
  destruct (in_dec Nat.eq_dec p l) as [Hl|Hl].
  - now apply IH.
  - destruct Hin as [->|Hin]; [|contradiction].
    rewrite fold_upd_notin by exact Hl. exists (h p). unfold step.
    apply upd_same.
Qed.

Lemma fold_upd_proj {B : Type} (proj : A -> B) (l : list nat) :
  (forall o, proj (f o) = proj o) ->
  forall h p, proj (fold_left step l h p) = proj (h p).
Proof.
  intros Hp. induction l as [|a l IH]; intros h p; simpl; [reflexivity|].
  rewrite IH. unfold step, upd.
  destruct (Nat.eqb p a) eqn:E; [|reflexivity].
  apply Nat.eqb_eq in E. subst. apply Hp.
Qed.
End FoldUpd.

(** ** Fitness adjustment *)

Lemma forced_debt_stagnant (conf : Neat) (s : Species) :
  (1 <=? forced_debt conf s) = stagnant conf s.
Proof.
  unfold forced_debt, stagnant.
  destruct (age_debt_of conf s =? 0) eqn:E.
  - apply Z.eqb_eq in E. rewrite E. reflexivity.
  - now rewrite orb_false_r.
Qed.

Lemma adjust_org_fitness (conf : Neat) (s : Species) (o : Organism) :
  Fitness (adjust_org conf s (forced_debt conf s) o)
  = spec_share s (spec_clamp (spec_boost conf s (spec_penalty conf s (Fitness o)))).
Proof.
  unfold adjust_org, spec_share, spec_clamp, spec_boost, spec_penalty.
  rewrite forced_debt_stagnant.
  destruct (stagnant conf s); destruct (Age s <=? 10); cbn [Fitness set_Fitness set_OriginalFitness];
    match goal with |- context [Qltb ?x 0] => destruct (Qltb x 0) end;
    reflexivity.
Qed.

Lemma adjust_org_original (conf : Neat) (s : Species) (d : Z) (o : Organism) :
  OriginalFitness (adjust_org conf s d o) = Fitness o.
Proof.
  unfold adjust_org.
  destruct (1 <=? d); destruct (Age s <=? 10); cbn [Fitness set_Fitness set_OriginalFitness];
    match goal with |- context [Qltb ?x 0] => destruct (Qltb x 0) end;
    reflexivity.
Qed.

Lemma adjust_org_IsChampion (conf : Neat) (s : Species) (d : Z) (o : Organism) :
  IsChampion (adjust_org conf s d o) = IsChampion o.
Proof.
  unfold adjust_org.
  destruct (1 <=? d); destruct (Age s <=? 10); cbn [Fitness set_Fitness set_OriginalFitness];
    match goal with |- context [Qltb ?x 0] => destruct (Qltb x 0) end;
    reflexivity.
Qed.

Lemma adjust_org_ToEliminate (conf : Neat) (s : Species) (d : Z) (o : Organism) :
  ToEliminate (adjust_org conf s d o) = ToEliminate o.
Proof.
  unfold adjust_org.
  destruct (1 <=? d); destruct (Age s <=? 10); cbn [Fitness set_Fitness set_OriginalFitness];
    match goal with |- context [Qltb ?x 0] => destruct (Qltb x 0) end;
    reflexivity.
Qed.

Lemma survivors_perm (conf : Neat) (l l' : list nat) :
  Permutation l l' -> survivors conf l' = survivors conf l.
Proof.
  intros H. unfold survivors, len. now rewrite (Permutation_length H).
Qed.

Lemma mark_eliminate_ok (l : list nat) (np : Z) (h : OrgHeap) :
  0 <= np ->
  mark_eliminate l np h
  = Ok (fold_left (fun h p => upd h p (set_ToEliminate (h p) true))
          (skipn (Z.to_nat np) l) h).
Proof.
  intros Hnp. unfold mark_eliminate.
  destruct (np <? len l) eqn:E.
  - apply Z.ltb_lt in E. destruct (np <? 0) eqn:E0; [|reflexivity].
    apply Z.ltb_lt in E0. lia.
  - apply Z.ltb_ge in E. rewrite skipn_all2; [reflexivity|].
    unfold len in E. lia.
Qed.

Lemma adjustFitness_runs
  (srt : (nat -> nat -> bool) -> list nat -> list nat)
  (conf : Neat) (s : Species) (h : OrgHeap) :
  SortContract srt ->
  Organisms s <> [] ->
  0 <= survivors conf (Organisms s) <= maxInt64 ->
  let h1 := adjust_loop conf s (forced_debt conf s) h in
  let l' := srt (ByFitness_Less h1) (Organisms s) in
  let k := Z.to_nat (survivors conf (Organisms s)) in
  exists s' h' top,
    adjustFitness srt conf s h = Ok (s', h') /\
    Organisms s' = l' /\
    nth_error l' 0 = Some top /\
    Age s' = Age s /\
    (forall p, Fitness (h' p) = Fitness (h1 p)) /\
    (forall p, OriginalFitness (h' p) = OriginalFitness (h1 p)) /\
    (forall p, IsChampion (h' p) = Nat.eqb p top || IsChampion (h p)) /\
    (forall p, ToEliminate (h' p)
               = if in_dec Nat.eq_dec p (skipn k l') then true
                 else ToEliminate (h p)).
Proof.
  intros Hsrt Hne Hnp h1 l' k.
  destruct (Hsrt (ByFitness_Less h1) (Organisms s)) as [Hperm _].
  fold l' in Hperm.
  destruct l' as [|top rest] eqn:El'.
  { apply Permutation_sym, Permutation_nil in Hperm. contradiction. }
  set (s1 := set_Organisms s (top :: rest)).
  set (s2 := if Qltb (MaxFitnessEver s1) (OriginalFitness (h1 top))
             then set_improved s1 (OriginalFitness (h1 top)) else s1).
  assert (Hs2 : Organisms s2 = top :: rest /\ Age s2 = Age s).
  { unfold s2. destruct (Qltb _ _); split; reflexivity. }
  destruct Hs2 as [Hs2 Hage].
  set (h2 := upd h1 top (set_IsChampion (h1 top) true)).
  set (h3 := fold_left (fun h p => upd h p (set_ToEliminate (h p) true))
               (skipn k (top :: rest)) h2).
  exists s2, h3, top.
  split.
  { unfold adjustFitness. fold h1. fold l'. rewrite El'. fold s1.
    cbn [Organisms set_Organisms s1 index bind Z.ltb Z.compare Z.to_nat nth_error].
    fold s1. fold s2. rewrite Hs2. fold h2.
    unfold num_parents_of. rewrite (survivors_perm conf _ _ Hperm).
    rewrite int_of_float_small by (unfold minInt64; lia).
    cbn [bind]. fold h2. rewrite mark_eliminate_ok by lia. reflexivity. }
  split; [exact Hs2|]. split; [reflexivity|]. split; [exact Hage|].
  assert (Hfit2 : forall p, Fitness (h2 p) = Fitness (h1 p)).
  { intros p. unfold h2, upd. destruct (Nat.eqb p top) eqn:E; [|reflexivity].
    apply Nat.eqb_eq in E. now subst. }
  assert (Horig2 : forall p, OriginalFitness (h2 p) = OriginalFitness (h1 p)).
  { intros p. unfold h2, upd. destruct (Nat.eqb p top) eqn:E; [|reflexivity].
    apply Nat.eqb_eq in E. now subst. }
  assert (Helim2 : forall p, ToEliminate (h2 p) = ToEliminate (h1 p)).
  { intros p. unfold h2, upd. destruct (Nat.eqb p top) eqn:E; [|reflexivity].
    apply Nat.eqb_eq in E. now subst. }
  split.
  { intros p. unfold h3.
    rewrite (fold_upd_proj (fun o => set_ToEliminate o true) Fitness)
      by reflexivity. apply Hfit2. }
  split.
  { intros p. unfold h3.
    rewrite (fold_upd_proj (fun o => set_ToEliminate o true) OriginalFitness)
      by reflexivity. apply Horig2. }
  split.
  { intros p. unfold h3.
    rewrite (fold_upd_proj (fun o => set_ToEliminate o true) IsChampion)
      by reflexivity.
    unfold h2, upd. destruct (Nat.eqb p top) eqn:E; [reflexivity|].
    simpl. unfold h1, adjust_loop.
    apply (fold_upd_proj (adjust_org conf s (forced_debt conf s)) IsChampion).
    intros o. apply adjust_org_IsChampion. }
  intros p. destruct (in_dec Nat.eq_dec p (skipn k (top :: rest))) as [Hin|Hn].
  - unfold h3.
    destruct (fold_upd_image (fun o => set_ToEliminate o true) _ h2 p Hin)
      as [o Ho].
    rewrite Ho. reflexivity.
  - unfold h3.
    rewrite (fold_upd_notin (fun o => set_ToEliminate o true)) by exact Hn.
    rewrite Helim2. unfold h1, adjust_loop.
    apply (fold_upd_proj (adjust_org conf s (forced_debt conf s)) ToEliminate).
    intros o. apply adjust_org_ToEliminate.
Qed.

(** ** Positions in a list without repetition *)

Lemma StronglySorted_nth {A : Type} (R : A -> A -> Prop) (l : list A) :
  StronglySorted R l ->
  forall i j a b, (i < j)%nat ->
    nth_error l i = Some a -> nth_error l j = Some b -> R a b.
Proof.
  induction 1 as [|x l Hs IH Hall]; intros i j a b Hij Hi Hj.
  - destruct i; discriminate.
  - destruct j as [|j]; [lia|]. simpl in Hj.
    destruct i as [|i]; simpl in Hi.
    + injection Hi as <-. rewrite Forall_forall in Hall.
      apply Hall. eapply nth_error_In; eassumption.
    + apply (IH i j); [lia|assumption|assumption].
Qed.

Lemma StronglySorted_app_cross {A : Type} (R : A -> A -> Prop) (l1 l2 : list A) :
  StronglySorted R (l1 ++ l2) ->
  forall a b, In a l1 -> In b l2 -> R a b.
Proof.
  induction l1 as [|x l1 IH]; intros Hs a b Ha Hb; [contradiction|].
  simpl in Hs. inversion Hs as [|? ? Hs' Hall]; subst.
  destruct Ha as [->|Ha].
  - rewrite Forall_forall in Hall. apply Hall. apply in_or_app. now right.
  - now apply IH.
Qed.

Lemma NoDup_skipn_index (l : list nat) (k i p : nat) :
  NoDup l -> nth_error l i = Some p ->
  (In p (skipn k l) <-> (k <= i)%nat).
Proof.
  intros Hnd Hi. split.
  - intros Hin. apply In_nth_error in Hin. destruct Hin as [j Hj].
    rewrite nth_error_skipn in Hj.
    assert (Hlt : (i < length l)%nat) by (apply nth_error_Some; congruence).
    rewrite NoDup_nth_error in Hnd.
    assert (i = (k + j)%nat) by (apply Hnd; [exact Hlt|congruence]). lia.
  - intros Hk. apply (nth_error_In _ (i - k)).
    rewrite nth_error_skipn. now replace (k + (i - k))%nat with i by lia.
Qed.

Lemma NoDup_head_index (l : list nat) (i p top : nat) :
  NoDup l -> nth_error l 0 = Some top -> nth_error l i = Some p ->
  (p = top <-> i = 0%nat).
Proof.
  intros Hnd H0 Hi. split.
  - intros ->. rewrite NoDup_nth_error in Hnd. apply Hnd.
    + apply nth_error_Some. congruence.
    + congruence.
  - intros ->. congruence.
Qed.

Lemma filter_all {A : Type} (f : A -> bool) (l : list A) :
  (forall a, In a l -> f a = true) -> filter f l = l.
Proof.
  induction l as [|x l IH]; intros H; simpl; [reflexivity|].
  rewrite (H x (or_introl eq_refl)). f_equal. apply IH.
  intros a Ha. apply H. now right.
Qed.

Lemma filter_none {A : Type} (f : A -> bool) (l : list A) :
  (forall a, In a l -> f a = false) -> filter f l = [].
Proof.
  induction l as [|x l IH]; intros H; simpl; [reflexivity|].
  rewrite (H x (or_introl eq_refl)). apply IH.
  intros a Ha. apply H. now right.
Qed.

Lemma ByFitness_Less_swo (h : OrgHeap) : StrictWeak (ByFitness_Less h).
Proof.
  unfold ByFitness_Less. split.
  - intros a b H. apply Qltb_lt in H. apply Qltb_ge. lra.
  - intros a b c H1 H2. apply Qltb_ge in H1. apply Qltb_ge in H2.
    apply Qltb_ge. lra.
Qed.

(** C5. On a species of at least one organism, none listed twice and no
    flag set, with [floor(survivalThreshold * n + 1.0)] a non-negative
    [int]: after [adjustFitness] the organism at index 0 is the only one
    marked champion, the organisms marked [toEliminate] are those at the
    indices from [floor(survivalThreshold * n + 1.0)] on in the sorted
    order, there are [max(0, n - floor(survivalThreshold * n + 1.0))] of
    them, and none of them is fitter than an organism that is kept.
    [floor(survivalThreshold * n + 1.0)] is [survivors]: the value the
    code computes in [float64], product and sum each rounded to the
    nearest double. *)
Theorem adjustFitness_champion_and_eliminated
  (srt : (nat -> nat -> bool) -> list nat -> list nat)
  (conf : Neat) (s : Species) (h : OrgHeap) :
  SortContract srt ->
  NoDup (Organisms s) ->
  Organisms s <> [] ->
  (forall p, In p (Organisms s) ->
             IsChampion (h p) = false /\ ToEliminate (h p) = false) ->
  0 <= survivors conf (Organisms s) <= maxInt64 ->
  exists s' h',
    adjustFitness srt conf s h = Ok (s', h') /\
    Permutation (Organisms s) (Organisms s') /\
    (forall i p, nth_error (Organisms s') i = Some p ->
       (IsChampion (h' p) = true <-> i = 0%nat) /\
       (ToEliminate (h' p) = true
        <-> survivors conf (Organisms s) <= Z.of_nat i)) /\
    len (filter (fun p => ToEliminate (h' p)) (Organisms s'))
    = Z.max 0 (len (Organisms s) - survivors conf (Organisms s)) /\
    (forall p q, In p (Organisms s') -> In q (Organisms s') ->
       ToEliminate (h' p) = false -> ToEliminate (h' q) = true ->
       (Fitness (h' q) <= Fitness (h' p))%Q).
Proof.
  intros Hsrt Hnd Hne Hflags Hnp.
  destruct (adjustFitness_runs srt conf s h Hsrt Hne Hnp)
    as (s' & h' & top & Hrun & Horgs & Htop & _ & Hfit & _ & Hchamp & Helim).
  set (h1 := adjust_loop conf s (forced_debt conf s) h) in *.
  destruct (Hsrt (ByFitness_Less h1) (Organisms s)) as [Hperm Hsorted].
  specialize (Hsorted (ByFitness_Less_swo h1)).
  set (l' := srt (ByFitness_Less h1) (Organisms s)) in *.
  set (k := Z.to_nat (survivors conf (Organisms s))) in *.
  assert (Hnd' : NoDup l') by (eapply Permutation_NoDup; eassumption).
  assert (Hin' : forall p, In p l' -> In p (Organisms s))
    by (intros p Hp; eapply Permutation_in; [apply Permutation_sym|]; eassumption).
  assert (Hel : forall p, In p l' ->
                          (ToEliminate (h' p) = true <-> In p (skipn k l'))).
  { intros p Hp. rewrite Helim.
    destruct (in_dec Nat.eq_dec p (skipn k l')) as [Hi|Hn].
    - tauto.
    - destruct (Hflags p (Hin' p Hp)) as [_ ->]. split; [discriminate|tauto]. }
  exists s', h'. rewrite Horgs.
  split; [exact Hrun|]. split; [exact Hperm|]. split; [|split].
  - intros i p Hi. assert (Hp : In p l') by (eapply nth_error_In; eassumption).
    split.
    + rewrite Hchamp. destruct (Hflags p (Hin' p Hp)) as [-> _].
      rewrite orb_false_r, Nat.eqb_eq.
      apply (NoDup_head_index l'); assumption.
    + rewrite (Hel p Hp). rewrite (NoDup_skipn_index l' k i p Hnd' Hi).
      unfold k. lia.
  - rewrite <- (firstn_skipn k l') at 1. rewrite filter_app.
    rewrite filter_none, filter_all.
    + simpl. unfold len. rewrite length_skipn.
      rewrite <- (Permutation_length Hperm). unfold k. lia.
    + intros p Hp. apply Hel; [|exact Hp].
      rewrite <- (firstn_skipn k l'). apply in_or_app. now right.
    + intros p Hp.
      assert (Hpl : In p l')
        by (rewrite <- (firstn_skipn k l'); apply in_or_app; now left).
      destruct (ToEliminate (h' p)) eqn:E; [|reflexivity].
      apply (Hel p Hpl) in E. exfalso.
      rewrite <- (firstn_skipn k l') in Hnd'.
      apply NoDup_app_remove_l in Hnd' as Hnd2.
      clear - Hnd' Hp E.
      induction (firstn k l') as [|x f IH]; [contradiction|].
      simpl in Hnd'. inversion Hnd' as [|? ? Hx Hrest]; subst.
      destruct Hp as [->|Hp]; [|now apply IH].
      apply Hx. apply in_or_app. now right.
  - intros p q Hp Hq Ep Eq.
    apply (Hel q Hq) in Eq.
    assert (Hpf : In p (firstn k l')).
    { rewrite <- (firstn_skipn k l') in Hp. apply in_app_or in Hp.
      destruct Hp as [Hp|Hp]; [exact Hp|].
      assert (In p l') by (rewrite <- (firstn_skipn k l'); apply in_or_app; now right).
      apply (Hel p H) in Hp. congruence. }
    rewrite <- (firstn_skipn k l') in Hsorted.
    pose proof (StronglySorted_app_cross _ _ _ Hsorted p q Hpf Eq) as Hle.
    simpl in Hle. unfold ByFitness_Less in Hle. apply Qltb_ge in Hle.
    rewrite !Hfit. exact Hle.
Qed.

(** C6. On a species of at least one organism, with
    [floor(survivalThreshold * n + 1.0)] a non-negative [int]: after
    [adjustFitness] the organism list is a rearrangement of the one
    before, sorted by descending adjusted fitness. *)
Theorem adjustFitness_sorted
  (srt : (nat -> nat -> bool) -> list nat -> list nat)
  (conf : Neat) (s : Species) (h : OrgHeap) :
  SortContract srt ->
  Organisms s <> [] ->
  0 <= survivors conf (Organisms s) <= maxInt64 ->
  exists s' h',
    adjustFitness srt conf s h = Ok (s', h') /\
    Permutation (Organisms s) (Organisms s') /\
    (forall i j p q, (i < j)%nat ->
       nth_error (Organisms s') i = Some p ->
       nth_error (Organisms s') j = Some q ->
       (Fitness (h' q) <= Fitness (h' p))%Q).
Proof.
  intros Hsrt Hne Hnp.
  destruct (adjustFitness_runs srt conf s h Hsrt Hne Hnp)
    as (s' & h' & top & Hrun & Horgs & _ & _ & Hfit & _).
  set (h1 := adjust_loop conf s (forced_debt conf s) h) in *.
  destruct (Hsrt (ByFitness_Less h1) (Organisms s)) as [Hperm Hsorted].
  specialize (Hsorted (ByFitness_Less_swo h1)).
  exists s', h'. rewrite Horgs.
  split; [exact Hrun|]. split; [exact Hperm|].
  intros i j p q Hij Hi Hj.
  pose proof (StronglySorted_nth _ _ Hsorted i j p q Hij Hi Hj) as Hle.
  simpl in Hle. unfold ByFitness_Less in Hle. apply Qltb_ge in Hle.
  rewrite !Hfit. exact Hle.
Qed.

Lemma adjustFitness_fitness
  (srt : (nat -> nat -> bool) -> list nat -> list nat)
  (conf : Neat) (s : Species) (h : OrgHeap) :
  SortContract srt ->
  NoDup (Organisms s) ->
  Organisms s <> [] ->
  0 <= survivors conf (Organisms s) <= maxInt64 ->
  exists s' h',
    adjustFitness srt conf s h = Ok (s', h') /\
    Permutation (Organisms s) (Organisms s') /\
    (forall p, In p (Organisms s) ->
       OriginalFitness (h' p) = Fitness (h p) /\
       Fitness (h' p)
       = spec_share s (spec_clamp (spec_boost conf s
                                     (spec_penalty conf s (Fitness (h p)))))).
Proof.
  intros Hsrt Hnd Hne Hnp.
  destruct (adjustFitness_runs srt conf s h Hsrt Hne Hnp)
    as (s' & h' & top & Hrun & Horgs & _ & _ & Hfit & Horig & _).
  destruct (Hsrt (ByFitness_Less (adjust_loop conf s (forced_debt conf s) h))
              (Organisms s)) as [Hperm _].
  exists s', h'. rewrite Horgs.
  split; [exact Hrun|]. split; [exact Hperm|].
  intros p Hp. rewrite Hfit, Horig. unfold adjust_loop.
  rewrite (fold_upd_in (adjust_org conf s (forced_debt conf s))) by assumption.
  split; [apply adjust_org_original|apply adjust_org_fitness].
Qed.

(** The three wrapping operations of line 87 amount to one: the age
    debt is [(age - ageOfLastImprovement + 1) - dropOffAge] as a 64-bit
    integer. *)
Lemma wrap64_add_l (a b : Z) : wrap64 (wrap64 a + b) = wrap64 (a + b).
Proof.
  unfold wrap64. f_equal.
  replace ((a + 2 ^ 63) mod 2 ^ 64 - 2 ^ 63 + b + 2 ^ 63)
    with ((a + 2 ^ 63) mod 2 ^ 64 + b) by ring.
  rewrite Zplus_mod_idemp_l. f_equal. ring.
Qed.

Lemma age_debt_of_formula (conf : Neat) (s : Species) :
  age_debt_of conf s
  = wrap64 (Age s - AgeOfLastImprovement s + 1 - DropOffAge conf).
Proof.
  unfold age_debt_of, sub64, add64.
  replace (wrap64 (wrap64 (Age s - AgeOfLastImprovement s) + 1)
           - DropOffAge conf)
    with (wrap64 (wrap64 (Age s - AgeOfLastImprovement s) + 1)
          + - DropOffAge conf) by ring.
  rewrite wrap64_add_l, <- Z.add_assoc, wrap64_add_l. f_equal. ring.
Qed.

(** C7. On a species of at least one organism, none listed twice:
    [adjustFitness] multiplies the fitness of every organism by 0.01,
    before the age boost, the clamp and the sharing, exactly when the age
    debt [(age - ageOfLastImprovement + 1) - dropOffAge] (a Go [int],
    so taken in 64 bits) is at least 1 or is 0; and a further call, on
    the species and the fitness values the first call left, does so
    again exactly when the condition holds for it. *)
Theorem adjustFitness_stagnation_penalty
  (srt : (nat -> nat -> bool) -> list nat -> list nat)
  (conf : Neat) (s : Species) (h : OrgHeap) :
  SortContract srt ->
  NoDup (Organisms s) ->
  Organisms s <> [] ->
  0 <= survivors conf (Organisms s) <= maxInt64 ->
  exists s' h',
    adjustFitness srt conf s h = Ok (s', h') /\
    (forall p, In p (Organisms s) ->
       OriginalFitness (h' p) = Fitness (h p) /\
       Fitness (h' p)
       = spec_share s (spec_clamp (spec_boost conf s
           (if (1 <=? wrap64 (Age s - AgeOfLastImprovement s + 1
                              - DropOffAge conf))
               || (wrap64 (Age s - AgeOfLastImprovement s + 1
                           - DropOffAge conf) =? 0)
            then (Fitness (h p) * 0.01)%Q else Fitness (h p))))) /\
    exists s'' h'',
      adjustFitness srt conf s' h' = Ok (s'', h'') /\
      (forall p, In p (Organisms s) ->
         OriginalFitness (h'' p) = Fitness (h' p) /\
         Fitness (h'' p)
         = spec_share s' (spec_clamp (spec_boost conf s'
             (if (1 <=? wrap64 (Age s' - AgeOfLastImprovement s' + 1
                                - DropOffAge conf))
                 || (wrap64 (Age s' - AgeOfLastImprovement s' + 1
                             - DropOffAge conf) =? 0)
              then (Fitness (h' p) * 0.01)%Q else Fitness (h' p))))).
Proof.
  intros Hsrt Hnd Hne Hnp.
  destruct (adjustFitness_fitness srt conf s h Hsrt Hnd Hne Hnp)
    as (s' & h' & Hrun & Hperm & Hfit).
  exists s', h'. split; [exact Hrun|]. split.
  { intros p Hp. destruct (Hfit p Hp) as [Ho Hf]. split; [exact Ho|].
    rewrite Hf. unfold spec_penalty, stagnant.
    rewrite age_debt_of_formula. reflexivity. }
  assert (Hnd' : NoDup (Organisms s')) by (eapply Permutation_NoDup; eassumption).
  assert (Hne' : Organisms s' <> []).
  { intros E. rewrite E in Hperm. apply Permutation_sym, Permutation_nil in Hperm.
    contradiction. }
  assert (Hnp' : 0 <= survivors conf (Organisms s') <= maxInt64)
    by (rewrite (survivors_perm conf _ _ Hperm); exact Hnp).
  destruct (adjustFitness_fitness srt conf s' h' Hsrt Hnd' Hne' Hnp')
    as (s'' & h'' & Hrun' & _ & Hfit').
  exists s'', h''. split; [exact Hrun'|].
  intros p Hp.
  destruct (Hfit' p (Permutation_in _ Hperm Hp)) as [Ho Hf].
  split; [exact Ho|].
  rewrite Hf. unfold spec_penalty, stagnant.
  rewrite age_debt_of_formula. reflexivity.
Qed.

Lemma float_len_pos (l : list nat) : l <> [] -> (0 < float_of_int (len l))%Q.
Proof.
  intros Hne. unfold float_of_int, len.
  destruct l as [|a l]; [contradiction|].
  change 0%Q with (inject_Z 0). rewrite <- Zlt_Qlt. simpl length. lia.
Qed.

Lemma spec_clamp_nonneg (f : Q) : (0 <= spec_clamp f)%Q.
Proof.
  unfold spec_clamp. destruct (Qltb f 0) eqn:E.
  - qcompute.
  - now apply Qltb_ge in E.
Qed.

Lemma spec_clamp_pos (f : Q) : (0 < spec_clamp f)%Q <-> ~ (f == 0)%Q.
Proof.
  unfold spec_clamp. destruct (Qltb f 0) eqn:E.
  - apply Qltb_lt in E. split.
    + intros _ H. rewrite H in E. lra.
    + intros _. qcompute.
  - apply Qltb_ge in E. split.
    + intros H H0. rewrite H0 in H. lra.
    + intros H. destruct (Qlt_le_dec 0 f) as [Hlt|Hle]; [exact Hlt|].
      exfalso. apply H. lra.
Qed.

Lemma spec_share_nonneg (s : Species) (f : Q) :
  Organisms s <> [] -> (0 <= f)%Q -> (0 <= spec_share s f)%Q.
Proof.
  intros Hne Hf. unfold spec_share.
  apply Qle_shift_div_l; [now apply float_len_pos|]. lra.
Qed.

Lemma spec_share_pos (s : Species) (f : Q) :
  Organisms s <> [] -> ((0 < spec_share s f)%Q <-> (0 < f)%Q).
Proof.
  intros Hne. pose proof (float_len_pos _ Hne) as Hpos. unfold spec_share.
  split.
  - intros H. 
    assert (E : (f == f / float_of_int (len (Organisms s)) * float_of_int (len (Organisms s)))%Q).
    { field. intros E0. rewrite E0 in Hpos. lra. }
    rewrite E. apply Qmult_lt_0_compat; assumption.
  - intros H. apply Qlt_shift_div_l; [exact Hpos|]. lra.
Qed.

(** C8. On a species of at least one organism, with
    [floor(survivalThreshold * n + 1.0)] a non-negative [int]: after
    [adjustFitness] no organism has a negative fitness; and, when no
    organism is listed twice, an organism's fitness is strictly positive
    unless its fitness after the penalty and the age boost was exactly
    0, which the clamp leaves at 0. *)
Theorem adjustFitness_fitness_nonneg
  (srt : (nat -> nat -> bool) -> list nat -> list nat)
  (conf : Neat) (s : Species) (h : OrgHeap) :
  SortContract srt ->
  Organisms s <> [] ->
  0 <= survivors conf (Organisms s) <= maxInt64 ->
  exists s' h',
    adjustFitness srt conf s h = Ok (s', h') /\
    (forall p, In p (Organisms s') -> (0 <= Fitness (h' p))%Q) /\
    (NoDup (Organisms s) ->
     forall p, In p (Organisms s') ->
       ((0 < Fitness (h' p))%Q
        <-> ~ (spec_boost conf s (spec_penalty conf s (Fitness (h p))) == 0)%Q)).
Proof.
  intros Hsrt Hne Hnp.
  destruct (adjustFitness_runs srt conf s h Hsrt Hne Hnp)
    as (s' & h' & top & Hrun & Horgs & _ & _ & Hfit & _).
  destruct (Hsrt (ByFitness_Less (adjust_loop conf s (forced_debt conf s) h))
              (Organisms s)) as [Hperm _].
  exists s', h'. rewrite Horgs. split; [exact Hrun|]. split.
  - intros p Hp. apply Permutation_sym in Hperm.
    pose proof (Permutation_in _ Hperm Hp) as Hin.
    rewrite Hfit. unfold adjust_loop.
    destruct (fold_upd_image (adjust_org conf s (forced_debt conf s))
                (Organisms s) h p Hin) as [o Ho].
    rewrite Ho, adjust_org_fitness.
    apply spec_share_nonneg; [exact Hne|apply spec_clamp_nonneg].
  - intros Hnd p Hp. apply Permutation_sym in Hperm.
    pose proof (Permutation_in _ Hperm Hp) as Hin.
    rewrite Hfit. unfold adjust_loop.
    rewrite (fold_upd_in (adjust_org conf s (forced_debt conf s))) by assumption.
    rewrite adjust_org_fitness, (spec_share_pos s _ Hne).
    apply spec_clamp_pos.
Qed.

(** *** The scenarios *)

Example adjustFitness_scenario :
  match adjustFitness (@sort_small nat) demo_conf
          (species_of [1; 2; 3; 4; 5]%nat) scenario_heap with
  | Ok (s', h') =>
      Organisms s' = [1; 2; 3; 4; 5]%nat /\
      map (fun p => IsChampion (h' p)) (Organisms s')
      = [true; false; false; false; false] /\
      map (fun p => ToEliminate (h' p)) (Organisms s')
      = [false; false; false; true; true]
  | Panic => False
  end.
Proof. vm_compute. repeat split. Qed.

(** Rounding to the nearest double: the doubles nearest 0.3 and 0.58
    are both below the decimal; ten times the first rounds up to 3.0,
    fifty times the second plus one stays below 30. *)
Example round64_values :
  round64 0.3 = (5404319552844595 # 18014398509481984)%Q /\
  round64 0.58 = (5224175567749775 # 9007199254740992)%Q /\
  (round64 (round64 0.3 * 10) == 3)%Q /\
  (round64 0.3 * 10 < 3)%Q /\
  (round64 (round64 (round64 0.58 * 50) + 1) < 30)%Q.
Proof. vm_compute. repeat split. Qed.

(** The number of parents is the one line 129 computes in [float64],
    which exact arithmetic does not always give: with a threshold of 0.3
    and 10 organisms 4 parents are kept (3 by exact arithmetic on the
    same double); with 0.58 and 50 organisms 29 are kept (30 by exact
    arithmetic on the decimal). *)
Example survivors_in_float64 :
  survivors (thresh_conf 0.3) (seq 1 10) = 4 /\
  math_Floor (round64 0.3 * 10 + 1) = 3 /\
  survivors (thresh_conf 0.58) (seq 1 50) = 29 /\
  math_Floor (0.58 * 50 + 1) = 30.
Proof. vm_compute. repeat split. Qed.

Lemma adjustFitness_champion_and_eliminated_witness :
  exists s' h',
    adjustFitness (@insertionSort nat) (thresh_conf 0.3)
      (species_of (seq 1 10)) ten_heap = Ok (s', h') /\
    len (filter (fun p => ToEliminate (h' p)) (Organisms s')) = 6 /\
    forall i p, nth_error (Organisms s') i = Some p ->
      (ToEliminate (h' p) = true <-> 4 <= Z.of_nat i).
Proof.
  destruct (adjustFitness_champion_and_eliminated (@insertionSort nat)
              (thresh_conf 0.3) (species_of (seq 1 10)) ten_heap)
    as (s' & h' & Hrun & _ & Hidx & Hcount & _).
  - exact insertionSort_contract.
  - simpl. nodup_tac.
  - discriminate.
  - simpl. intros p Hp.
    repeat (destruct Hp as [<-|Hp]; [split; reflexivity|]). destruct Hp.
  - split; qcompute.
  - exists s', h'. split; [exact Hrun|]. split.
    + rewrite Hcount. reflexivity.
    + intros i p Hi. exact (proj2 (Hidx i p Hi)).
Defined.

Lemma adjustFitness_sorted_witness :
  exists s' h',
    adjustFitness (@sort_small nat) demo_conf
      (species_of [1; 2; 3; 4; 5; 6; 7; 8]%nat) ties_heap = Ok (s', h') /\
    Permutation [1; 2; 3; 4; 5; 6; 7; 8]%nat (Organisms s').
Proof.
  destruct (adjustFitness_sorted (@sort_small nat) demo_conf
              (species_of [1; 2; 3; 4; 5; 6; 7; 8]%nat) ties_heap)
    as (s' & h' & Hrun & Hperm & _).
  - exact sort_small_contract.
  - discriminate.
  - split; qcompute.
  - exists s', h'. split; [exact Hrun|exact Hperm].
Defined.

(** C6, as stated, fails: the code hands the organisms to [sort.Sort],
    which promises a sorted rearrangement and nothing about organisms
    of equal fitness, so their order is not fixed by [adjustFitness].
    Of eight organisms the first and the second have the same fitness
    and the seventh is fitter.  Two sorts that both meet the contract
    disagree on them: under insertion sort the first stays before the
    second; under the sort that starts with a pass at distance 6 the
    first is exchanged with the seventh, and the second comes before the
    first. *)
Lemma adjustFitness_tie_order_not_fixed :
  precedes [1; 2; 3; 4; 5; 6; 7; 8]%nat 1%nat 2%nat /\
  exists srt_a srt_b : (nat -> nat -> bool) -> list nat -> list nat,
    SortContract srt_a /\ SortContract srt_b /\
    match adjustFitness srt_a demo_conf
            (species_of [1; 2; 3; 4; 5; 6; 7; 8]%nat) ties_heap,
          adjustFitness srt_b demo_conf
            (species_of [1; 2; 3; 4; 5; 6; 7; 8]%nat) ties_heap with
    | Ok (sa, ha), Ok (sb, hb) =>
        (Fitness (ha 1%nat) == Fitness (ha 2%nat))%Q /\
        (Fitness (hb 1%nat) == Fitness (hb 2%nat))%Q /\
        Organisms sa = [7; 1; 2; 3; 4; 5; 6; 8]%nat /\
        Organisms sb = [7; 2; 3; 4; 5; 6; 1; 8]%nat /\
        precedes (Organisms sa) 1%nat 2%nat /\
        precedes (Organisms sb) 2%nat 1%nat /\
        ~ precedes (Organisms sb) 1%nat 2%nat
    | _, _ => False
    end.
Proof.
  split.
  { exists 0%nat, 1%nat. repeat split. lia. }
  exists (@insertionSort nat), (@sort_small nat).
  split; [exact insertionSort_contract|].
  split; [exact sort_small_contract|].
  vm_compute. split; [reflexivity|]. split; [reflexivity|].
  split; [reflexivity|]. split; [reflexivity|]. split; [|split].
  - exists 1%nat, 2%nat. repeat split. lia.
  - exists 1%nat, 6%nat. repeat split. lia.
  - intros (i & j & Hij & Hi & Hj).
    destruct i as [|[|[|[|[|[|[|[|i]]]]]]]]; cbn in Hi; try discriminate;
      try (destruct i; discriminate).
    destruct j as [|[|[|[|[|[|[|[|j]]]]]]]]; cbn in Hj; try discriminate;
      try (destruct j; discriminate).
    lia.
Qed.

Lemma adjustFitness_stagnation_penalty_witness :
  20 - 0 + 1 - DropOffAge demo_conf = 6 /\
  exists s' h' s'' h'',
    adjustFitness (@sort_small nat) demo_conf stagnant_species scenario_heap
    = Ok (s', h') /\
    adjustFitness (@sort_small nat) demo_conf s' h' = Ok (s'', h'') /\
    forall p, In p [1; 2; 3; 4; 5]%nat ->
      (Fitness (h' p) == Fitness (scenario_heap p) * 0.01 / 5)%Q /\
      (Fitness (h'' p) == Fitness (scenario_heap p) * 0.01 / 5 * 0.01 / 5)%Q.
Proof.
  split; [reflexivity|].
  destruct (adjustFitness_stagnation_penalty (@sort_small nat) demo_conf
              stagnant_species scenario_heap)
    as (s' & h' & Hrun & Hfit & s'' & h'' & Hrun' & Hfit').
  - exact sort_small_contract.
  - simpl. nodup_tac.
  - discriminate.
  - split; qcompute.
  - exists s', h', s'', h''. split; [exact Hrun|]. split; [exact Hrun'|].
    assert (Hs : Age s' = 20 /\ AgeOfLastImprovement s' = 0
                 /\ Organisms s' = [1; 2; 3; 4; 5]%nat).
    { vm_compute in Hrun. injection Hrun as <- _. repeat split. }
    destruct Hs as (Ha & Hl & Ho).
    intros p Hp.
    destruct (Hfit p Hp) as [_ Hf]. destruct (Hfit' p Hp) as [_ Hf'].
    rewrite Hf', Hf. unfold spec_share, spec_clamp, spec_boost.
    rewrite Ha, Hl, Ho.
    simpl in Hp.
    destruct Hp as [<-|[<-|[<-|[<-|[<-|[]]]]]]; split; qcompute.
Defined.

(** C8, as stated, fails: a fitness of exactly 0 is not negative, so the
    clamp leaves it, and sharing keeps it at 0. *)
Lemma adjustFitness_zero_fitness_stays_zero :
  match adjustFitness (@sort_small nat) demo_conf (species_of [1]%nat)
          (heap_of_list [plain_org 0%Q 1]) with
  | Ok (s', h') =>
      In 1%nat (Organisms s') /\
      (Fitness (h' 1%nat) == 0)%Q /\
      ~ (0 < Fitness (h' 1%nat))%Q
  | Panic => False
  end.
Proof.
  vm_compute. split; [now left|]. split; [reflexivity|]. intros H. discriminate H.
Qed.

Lemma adjustFitness_fitness_nonneg_witness :
  exists s' h',
    adjustFitness (@sort_small nat) demo_conf (species_of [1]%nat)
      (heap_of_list [plain_org (-3)%Q 1]) = Ok (s', h') /\
    forall p, In p (Organisms s') -> (0 <= Fitness (h' p))%Q.
Proof.
  destruct (adjustFitness_fitness_nonneg (@sort_small nat) demo_conf
              (species_of [1]%nat) (heap_of_list [plain_org (-3)%Q 1]))
    as (s' & h' & Hrun & Hnonneg & _).
  - exact sort_small_contract.
  - discriminate.
  - split; qcompute.
  - exists s', h'. split; [exact Hrun|exact Hnonneg].
Defined.

(** ** Reproduction *)

(** The choice of the crossover operator (lines 339 to 348), for any two
    organisms: one call, decided by two draws in cascade.  The mating
    branch as a whole is the subject of [mate_branch_one_crossover]
    below. *)
Lemma crossover_choice {World : Type} {C : Collaborators World}
  (conf : Neat) (mom dad : nat) (count : Z) (new_genome : nat)
  (st : RState World) :
  let momo := orgs st mom in
  let dado := orgs st dad in
  let d1 := rand_Float64 (world st) in
  let d2 := rand_Float64 (snd d1) in
  exists child st' c,
    crossover conf mom dad count new_genome st = Ok (child, st') /\
    calls st' = calls st ++ [c] /\
    if Qltb (fst d1) (MateMultipointProb conf)
    then exists recv,
        c = CMateMultipoint recv (GNome dado) count
              (OriginalFitness momo) (OriginalFitness dado)
    else if Qltb (fst d2)
              (MateMultipointAvgProb conf
               / (MateMultipointAvgProb conf + MateSinglepointProb conf))%Q
    then exists recv,
        c = CMateMultipointAvg recv (GNome dado) count
              (OriginalFitness momo) (OriginalFitness dado)
    else c = CMateSinglepoint (GNome momo) (GNome dado) count /\
         child = fst (mateSinglepoint (GNome momo) (GNome dado) count (snd d2)).
Proof.
  intros momo dado d1 d2.
  unfold crossover, mbind, get_org, draw, call, ret. cbn [fst snd world orgs calls].
  fold momo dado d1.
  destruct (Qltb (fst d1) (MateMultipointProb conf)).
  - do 3 eexists. split; [reflexivity|]. split; [reflexivity|].
    eexists. reflexivity.
  - cbn [fst snd world orgs calls]. fold d2.
    destruct (Qltb (fst d2) _).
    + do 3 eexists. split; [reflexivity|]. split; [reflexivity|].
      eexists. reflexivity.
    + do 3 eexists. split; [reflexivity|]. split; [reflexivity|].
      split; reflexivity.
Qed.

(** When both draws miss their thresholds the operator called is
    singlepoint, and its call carries no fitness value. *)
Example crossover_singlepoint_without_fitness :
  match crossover demo_conf 1%nat 2%nat 0 nil_ptr
          (script_state pair_heap [1; 2]%nat 1 [1%nat] [0.9%Q; 0.9%Q]) with
  | Ok (child, st') =>
      calls st' = [CMateSinglepoint 11 12 0] /\
      (forall c, In c (calls st') -> call_fitness c = None)
  | Panic => False
  end.
Proof.
  vm_compute. split; [reflexivity|]. intros c [<-|[]]. reflexivity.
Qed.

(** When the first draw is below [mateMultipointProb], multipoint is
    called on [new_genome], here still [nil], and [new_genome] is what
    it was. *)
Example crossover_multipoint_result_dropped :
  match crossover demo_conf 1%nat 2%nat 0 nil_ptr
          (script_state pair_heap [1; 2]%nat 1 [1%nat] [0.1%Q]) with
  | Ok (child, st') =>
      calls st' = [CMateMultipoint nil_ptr 12 0 3%Q 2%Q] /\ child = nil_ptr
  | Panic => False
  end.
Proof. vm_compute. split; reflexivity. Qed.

(** C1 fails on the code: only the mating branch goes on to place the
    baby.  A species of one organism expecting one offspring takes the
    mutation-only branch; one of two organisms expecting six clones its
    champion and then, on these draws, mutates five times.  In both runs
    every baby is created, none is added to a species, no species is
    created, and the babies' [SpeciesOf] stays [nil]. *)
Theorem reproduce_offspring_left_unassigned :
  match reproduce 1 1%nat [1%nat] demo_conf
          (script_state pair_heap [1%nat] 1 [1%nat] [0.9%Q; 0.9%Q; 0.9%Q]) with
  | Ok (r, st') =>
      r = (true, None) /\
      babies st' = [10%nat] /\
      species (pop st') = [1%nat] /\
      Organisms (specs st' 1%nat) = [1%nat] /\
      SpeciesOf (orgs st' 10%nat) = nil_ptr
  | Panic => False
  end /\
  match reproduce 1 1%nat [1%nat] demo_conf
          (script_state pair_heap [1; 2]%nat 6 [1%nat] []) with
  | Ok (r, st') =>
      r = (true, None) /\
      babies st' = [10; 11; 12; 13; 14; 15]%nat /\
      species (pop st') = [1%nat] /\
      Organisms (specs st' 1%nat) = [1; 2]%nat /\
      map (fun b => SpeciesOf (orgs st' b)) (babies st')
      = [nil_ptr; nil_ptr; nil_ptr; nil_ptr; nil_ptr; nil_ptr]
  | Panic => False
  end.
Proof. split; vm_compute; repeat split. Qed.

(** In the mating branch the baby is placed: here no species is within
    [compatThreshold], and a new species, the fourth, is made for it. *)
Example reproduce_mating_places_offspring :
  match reproduce 1 1%nat [1%nat] demo_conf
          (script_state pair_heap [1; 2]%nat 1 [1%nat]
             [0.9%Q; 0%Q; 0.9%Q; 1%Q; 0.9%Q; 0.9%Q; 0.1%Q]) with
  | Ok (r, st') =>
      r = (true, None) /\
      babies st' = [10%nat] /\
      species (pop st') = [1; 4]%nat /\
      Organisms (specs st' 4%nat) = [10%nat] /\
      IsNovel (specs st' 4%nat) = true /\
      SpeciesOf (orgs st' 10%nat) = 4%nat
  | Panic => False
  end.
Proof. vm_compute. repeat split. Qed.

(** C2 fails on the code.  [reproduce] on a species without organisms
    that expects no offspring passes the guard and indexes
    [s.Organisms[0]]; [adjustFitness] on a species without organisms
    indexes [s.Organisms[0]] as well; and a Gaussian draw of -4 gives the
    interspecies index [floor(-1 * (3 - 1) + 0.5) = -2]. *)
Theorem reproduce_and_adjustFitness_panic :
  reproduce 1 1%nat [1%nat] demo_conf
    (script_state pair_heap [] 0 [1%nat] []) = Panic /\
  adjustFitness (@sort_small nat) demo_conf (species_of []) pair_heap = Panic /\
  reproduce 1 1%nat [1; 2; 3]%nat demo_conf
    (script_state pair_heap [1; 2]%nat 1 [1; 2; 3]%nat
       [0.9%Q; 0%Q; 0.1%Q; (-4)%Q]) = Panic.
Proof. repeat split; vm_compute; reflexivity. Qed.

(** With a positive number of expected offspring the guard does report
    the empty species as an error. *)
Example reproduce_empty_species_error :
  match reproduce 1 1%nat [1%nat] demo_conf
          (script_state pair_heap [] 1 [1%nat] []) with
  | Ok (r, st') => fst r = false /\ snd r <> None
  | Panic => False
  end.
Proof. vm_compute. split; [reflexivity|discriminate]. Qed.

(** *** The branches that do not place the baby *)

Section KeepsSpecies.
Context {World : Type} {C : Collaborators World}.

Lemma keeps_ret {A : Type} (a : A) : keeps_species (@ret World A a).
Proof. intros st a' st' H. injection H as _ <-. auto. Qed.

Lemma keeps_bind {A B : Type} (m : M World A) (k : A -> M World B) :
  keeps_species m -> (forall a, keeps_species (k a)) ->
  keeps_species (mbind m k).
Proof.
  intros Hm Hk st b st' H. unfold mbind in H.
  destruct (m st) as [[a st1]|] eqn:E; [|discriminate].
  destruct (Hm _ _ _ E) as [H1 H2]. destruct (Hk a _ _ _ H) as [H3 H4].
  split; congruence.
Qed.

Lemma keeps_lift {A : Type} (o : outcome A) : keeps_species (@lift World A o).
Proof.
  intros st a st' H. unfold lift in H. destruct o; [|discriminate].
  injection H as _ <-. auto.
Qed.

Lemma keeps_get_org (p : nat) : keeps_species (@get_org World p).
Proof. intros st a st' H. injection H as _ <-. auto. Qed.

Lemma keeps_get_spec (p : nat) : keeps_species (@get_spec World p).
Proof. intros st a st' H. injection H as _ <-. auto. Qed.

Lemma keeps_put_org (p : nat) (o : Organism) :
  keeps_species (@put_org World p o).
Proof. intros st a st' H. injection H as _ <-. auto. Qed.

Lemma keeps_draw {A : Type} (f : World -> A * World) :
  keeps_species (draw f).
Proof. intros st a st' H. injection H as _ <-. auto. Qed.

Lemma keeps_call {A : Type} (c : Call) (f : World -> A * World) :
  keeps_species (call c f).
Proof. intros st a st' H. injection H as _ <-. auto. Qed.

Lemma keeps_Int31n (n : Z) : keeps_species (@Int31n World C n).
Proof.
  unfold Int31n. destruct (n <=? 0); [apply keeps_lift|apply keeps_draw].
Qed.

Lemma keeps_NewOrganism (fit : Q) (g : nat) (generation : Z) :
  keeps_species (@NewOrganism World fit g generation).
Proof. intros st a st' H. injection H as _ <-. auto. Qed.

Ltac keeps :=
  repeat first
    [ apply keeps_ret | apply keeps_lift | apply keeps_get_org
    | apply keeps_get_spec | apply keeps_put_org | apply keeps_draw
    | apply keeps_call | apply keeps_Int31n | apply keeps_NewOrganism
    | apply keeps_bind; [|intros ?]
    | match goal with |- keeps_species (if ?b then _ else _) => destruct b end ].

Lemma keeps_mutate_cascade (generation : Z) (conf : Neat) (g : nat) :
  keeps_species (mutate_cascade generation conf g).
Proof. unfold mutate_cascade, call_. keeps. Qed.

(** The superchampion, species-champion and mutation-only branches
    leave every species, and the list of species, untouched. *)
Lemma non_mating_branches_keep_species
  (generation : Z) (s : nat) (conf : Neat) (poolsize : Z) (thechamp : nat)
  (count : Z) :
  keeps_species (superchamp_branch generation conf thechamp count) /\
  keeps_species (champ_clone_branch generation thechamp count) /\
  keeps_species (mutate_branch generation s conf poolsize count).
Proof.
  split; [|split].
  - unfold superchamp_branch, call_. keeps.
  - unfold champ_clone_branch. keeps.
  - unfold mutate_branch, mutate_cascade, call_. keeps.
Qed.

(** [reproduce] on a species without organisms that expects no
    offspring panics, whatever the rest of the state. *)
Lemma reproduce_empty_panics (generation : Z) (s : nat)
  (sorted_species : list nat) (conf : Neat) (st : RState World) :
  Organisms (specs st s) = [] ->
  ExpectedOffspring (specs st s) <= 0 ->
  reproduce generation s sorted_species conf st = Panic.
Proof.
  intros He Hk. unfold reproduce, mbind, get_spec. rewrite He.
  destruct (0 <? ExpectedOffspring (specs st s)) eqn:E.
  - apply Z.ltb_lt in E. lia.
  - reflexivity.
Qed.
End KeepsSpecies.

(** [adjustFitness] on a species without organisms panics, whatever the
    sort. *)
Lemma adjustFitness_empty_panics
  (srt : (nat -> nat -> bool) -> list nat -> list nat)
  (conf : Neat) (s : Species) (h : OrgHeap) :
  SortContract srt -> Organisms s = [] ->
  adjustFitness srt conf s h = Panic.
Proof.
  intros Hsrt He. unfold adjustFitness.
  destruct (Hsrt (ByFitness_Less (adjust_loop conf s (forced_debt conf s) h))
              (Organisms s)) as [Hperm _].
  rewrite He in Hperm at 1. apply Permutation_nil in Hperm.
  cbn [Organisms set_Organisms]. rewrite Hperm. reflexivity.
Qed.

(* ================================================================= *)
(** * Further properties of the code *)

(** ** Aggregates *)

Lemma computeMaxFitness_fold (h : OrgHeap) (l : list nat) :
  forall m : Q,
    let r := fold_left
               (fun m o => if Qltb m (Fitness (h o)) then Fitness (h o) else m)
               l m in
    (m <= r)%Q /\
    (forall p, In p l -> (Fitness (h p) <= r)%Q) /\
    (r = m \/ exists p, In p l /\ r = Fitness (h p)).
Proof.
  induction l as [|o l IH]; intros m; cbv zeta; cbn [fold_left].
  - split; [apply Qle_refl|]. split; [intros p []|now left].
  - destruct (Qltb m (Fitness (h o))) eqn:E.
    + apply Qltb_lt in E.
      destruct (IH (Fitness (h o))) as (H1 & H2 & H3).
      split; [lra|]. split.
      * intros p [<-|Hp]; [exact H1|now apply H2].
      * right. destruct H3 as [H3|(p & Hp & H3)].
        -- exists o. split; [now left|exact H3].
        -- exists p. split; [now right|exact H3].
    + apply Qltb_ge in E.
      destruct (IH m) as (H1 & H2 & H3).
      split; [exact H1|]. split.
      * intros p [<-|Hp]; [lra|now apply H2].
      * destruct H3 as [H3|(p & Hp & H3)]; [now left|].
        right. exists p. split; [now right|exact H3].
Qed.

(** X1. [computeMaxFitness] stores and returns the greatest fitness of
    the organisms, but never less than 0: the result is at least 0 and
    at least every organism's fitness, and it is 0 or the fitness of one
    of the organisms.  The organism list is left as it was. *)
Theorem computeMaxFitness_greatest (s : Species) (h : OrgHeap) :
  let r := computeMaxFitness s h in
  MaxFitness (snd r) = fst r /\
  Organisms (snd r) = Organisms s /\
  (0 <= fst r)%Q /\
  (forall p, In p (Organisms s) -> (Fitness (h p) <= fst r)%Q) /\
  (fst r = 0%Q \/ exists p, In p (Organisms s) /\ fst r = Fitness (h p)).
Proof.
  cbv zeta. unfold computeMaxFitness. cbn [fst snd MaxFitness set_MaxFitness Organisms].
  destruct (computeMaxFitness_fold h (Organisms s) 0%Q) as (H1 & H2 & H3).
  auto.
Qed.

Lemma sum_fitness_bounds (h : OrgHeap) (l : list nat) (lo hi : Q) :
  (forall p, In p l -> (lo <= Fitness (h p) <= hi)%Q) ->
  forall acc : Q,
    let t := fold_left (fun t o => (t + Fitness (h o))%Q) l acc in
    (acc + lo * float_of_int (len l) <= t)%Q /\
    (t <= acc + hi * float_of_int (len l))%Q.
Proof.
  unfold float_of_int, len.
  induction l as [|o l IH]; intros Hb acc; cbv zeta; cbn [fold_left].
  - change (inject_Z (Z.of_nat (length (@nil nat)))) with 0%Q. lra.
  - assert (Hl : forall p, In p l -> (lo <= Fitness (h p) <= hi)%Q)
      by (intros p Hp; apply Hb; now right).
    destruct (Hb o (or_introl eq_refl)) as [Ho1 Ho2].
    destruct (IH Hl (acc + Fitness (h o))%Q) as [H1 H2].
    assert (E : (inject_Z (Z.of_nat (length (o :: l)))
                 == inject_Z (Z.of_nat (length l)) + 1)%Q).
    { cbn [length]. rewrite Nat2Z.inj_succ. unfold Z.succ.
      rewrite inject_Z_plus. reflexivity. }
    rewrite E. split; lra.
Qed.

(** X2. On a species with at least one organism, [computeAvgFitness]
    stores and returns a value that lies between any lower and upper
    bound of the organisms' fitness, and that, multiplied by the number
    of organisms, is the sum of their fitness. *)
Theorem computeAvgFitness_between (s : Species) (h : OrgHeap) (lo hi : Q) :
  Organisms s <> [] ->
  (forall p, In p (Organisms s) -> (lo <= Fitness (h p) <= hi)%Q) ->
  let r := computeAvgFitness s h in
  AvgFitness (snd r) = fst r /\
  Organisms (snd r) = Organisms s /\
  (lo <= fst r <= hi)%Q /\
  (fst r * float_of_int (len (Organisms s))
   == fold_right (fun o t => (Fitness (h o) + t)%Q) 0%Q (Organisms s))%Q.
Proof.
  intros Hne Hb. cbv zeta. unfold computeAvgFitness.
  cbn [fst snd AvgFitness set_AvgFitness Organisms].
  pose proof (float_len_pos _ Hne) as Hpos.
  destruct (sum_fitness_bounds h (Organisms s) lo hi Hb 0%Q) as [H1 H2].
  cbv zeta in H1, H2.
  set (t := fold_left (fun t o => (t + Fitness (h o))%Q) (Organisms s) 0%Q) in *.
  set (n := float_of_int (len (Organisms s))) in *.
  split; [reflexivity|]. split; [reflexivity|]. split; [split|].
  - apply Qle_shift_div_l; [exact Hpos|]. lra.
  - apply Qle_shift_div_r; [exact Hpos|]. lra.
  - assert (Et : (t / n * n == t)%Q) by (field; lra).
    rewrite Et. unfold t. clear.
    assert (G : forall l acc,
               (fold_left (fun t o => (t + Fitness (h o))%Q) l acc
                == acc + fold_right (fun o t => (Fitness (h o) + t)%Q) 0%Q l)%Q).
    { induction l as [|o l IH]; intros acc; cbn [fold_left fold_right]; [lra|].
      rewrite IH. lra. }
    rewrite G. lra.
Qed.

(** ** Membership, once more *)

Lemma filter_neq_count (o : nat) (l : list nat) :
  (length (filter (fun x => negb (Nat.eqb x o)) l) + count_occ Nat.eq_dec l o
   = length l)%nat.
Proof.
  induction l as [|a l IH]; [reflexivity|].
  cbn [filter count_occ length].
  destruct (Nat.eq_dec a o) as [->|Hne].
  - rewrite Nat.eqb_refl. cbn [negb]. lia.
  - apply Nat.eqb_neq in Hne. rewrite Hne. cbn [negb length]. lia.
Qed.

(** X3. [removeOrganism] succeeds exactly when the organism is listed
    once.  When it is absent, and also when it is listed more than once,
    the call returns [false] with an error and the species is left as it
    was. *)
Theorem removeOrganism_succeeds_iff_listed_once (s : Species) (org : nat) :
  (fst (fst (removeOrganism s org)) = true
   <-> count_occ Nat.eq_dec (Organisms s) org = 1%nat) /\
  (fst (fst (removeOrganism s org)) = true ->
   snd (fst (removeOrganism s org)) = None) /\
  (fst (fst (removeOrganism s org)) = false ->
   snd (fst (removeOrganism s org)) <> None /\ snd (removeOrganism s org) = s).
Proof.
  unfold removeOrganism.
  pose proof (filter_neq_count org (Organisms s)) as Hc.
  destruct (len (filter (fun o => negb (Nat.eqb o org)) (Organisms s))
            =? len (Organisms s) - 1) eqn:E; cbn [negb fst snd].
  - apply Z.eqb_eq in E. unfold len in E.
    split; [split; [intros _; lia|reflexivity]|].
    split; [reflexivity|discriminate].
  - apply Z.eqb_neq in E. unfold len in E.
    split; [split; [discriminate|intros H; lia]|].
    split; [discriminate|]. intros _. split; [discriminate|reflexivity].
Qed.

(** X4. Removing an organism that is listed once takes it out and keeps
    the other organisms in their order; the species is one organism
    smaller and its other fields are untouched. *)
Theorem removeOrganism_removes (s : Species) (org : nat) (l1 l2 : list nat) :
  Organisms s = l1 ++ org :: l2 ->
  ~ In org l1 -> ~ In org l2 ->
  removeOrganism s org = ((true, None), set_Organisms s (l1 ++ l2)) /\
  size (snd (removeOrganism s org)) = size s - 1 /\
  ~ In org (Organisms (snd (removeOrganism s org))).
Proof.
  intros E H1 H2.
  assert (Hrun : removeOrganism s org = ((true, None), set_Organisms s (l1 ++ l2))).
  { unfold removeOrganism. rewrite E, filter_app. cbn [filter].
    rewrite Nat.eqb_refl. cbn [negb].
    rewrite (filter_neq_notin org l1 H1), (filter_neq_notin org l2 H2).
    unfold len. rewrite !length_app. cbn [length].
    destruct (Z.of_nat (length l1 + length l2)
              =? Z.of_nat (length l1 + S (length l2)) - 1) eqn:E';
      [reflexivity|]. apply Z.eqb_neq in E'. lia. }
  rewrite Hrun. cbn [snd]. split; [reflexivity|]. split.
  - unfold size, len. cbn [Organisms set_Organisms]. rewrite E.
    rewrite !length_app. cbn [length]. lia.
  - cbn [Organisms set_Organisms]. rewrite in_app_iff. tauto.
Qed.

Lemma removeOrganism_removes_witness :
  removeOrganism (species_of [4; 5; 6]%nat) 5%nat
  = ((true, None), set_Organisms (species_of [4; 5; 6]%nat) ([4] ++ [6])%nat).
Proof.
  apply (removeOrganism_removes (species_of [4; 5; 6]%nat) 5%nat [4%nat] [6%nat]).
  - reflexivity.
  - simpl. intros [H|[]]. discriminate.
  - simpl. intros [H|[]]. discriminate.
Defined.

(** ** Fitness adjustment: the resulting species and store *)

Lemma adjustFitness_result
  (srt : (nat -> nat -> bool) -> list nat -> list nat)
  (conf : Neat) (s : Species) (h : OrgHeap) :
  SortContract srt ->
  Organisms s <> [] ->
  0 <= survivors conf (Organisms s) <= maxInt64 ->
  let h1 := adjust_loop conf s (forced_debt conf s) h in
  let l' := srt (ByFitness_Less h1) (Organisms s) in
  exists top rest,
    l' = top :: rest /\
    adjustFitness srt conf s h
    = Ok (if Qltb (MaxFitnessEver s) (OriginalFitness (h1 top))
          then set_improved (set_Organisms s l') (OriginalFitness (h1 top))
          else set_Organisms s l',
          fold_left (fun h p => upd h p (set_ToEliminate (h p) true))
            (skipn (Z.to_nat (survivors conf (Organisms s))) l')
            (upd h1 top (set_IsChampion (h1 top) true))).
Proof.
  intros Hsrt Hne Hnp h1 l'.
  destruct (Hsrt (ByFitness_Less h1) (Organisms s)) as [Hperm _].
  fold l' in Hperm.
  destruct l' as [|top rest] eqn:El'.
  { apply Permutation_sym, Permutation_nil in Hperm. contradiction. }
  exists top, rest. split; [reflexivity|].
  set (s1 := set_Organisms s (top :: rest)).
  set (s2 := if Qltb (MaxFitnessEver s1) (OriginalFitness (h1 top))
             then set_improved s1 (OriginalFitness (h1 top)) else s1).
  assert (Hs2 : Organisms s2 = top :: rest)
    by (unfold s2; destruct (Qltb _ _); reflexivity).
  change (if Qltb (MaxFitnessEver s) (OriginalFitness (h1 top))
          then set_improved s1 (OriginalFitness (h1 top)) else s1) with s2.
  unfold adjustFitness. fold h1. fold l'. rewrite El'. fold s1.
  cbn [Organisms set_Organisms s1 index bind Z.ltb Z.compare Z.to_nat nth_error].
  fold s1. fold s2. rewrite Hs2. unfold num_parents_of.
  rewrite (survivors_perm conf _ _ Hperm).
  rewrite int_of_float_small by (unfold minInt64; lia).
  cbn [bind]. rewrite mark_eliminate_ok by lia. reflexivity.
Qed.

(** X5. After [adjustFitness] on a species of at least one organism,
    none listed twice: [MaxFitnessEver] has not decreased and is at
    least the original fitness of the organism now first; when that
    original fitness exceeds the previous [MaxFitnessEver] it becomes the
    new one, [AgeOfLastImprovement] is set to [Age] and [lastImproved]
    is 0; otherwise both are left alone.  [Id], [Age] and
    [ExpectedOffspring] are never changed. *)
Theorem adjustFitness_improvement
  (srt : (nat -> nat -> bool) -> list nat -> list nat)
  (conf : Neat) (s : Species) (h : OrgHeap) :
  SortContract srt ->
  NoDup (Organisms s) ->
  Organisms s <> [] ->
  0 <= survivors conf (Organisms s) <= maxInt64 ->
  exists s' h' top,
    adjustFitness srt conf s h = Ok (s', h') /\
    nth_error (Organisms s') 0 = Some top /\
    Id s' = Id s /\ Age s' = Age s /\
    ExpectedOffspring s' = ExpectedOffspring s /\
    (MaxFitnessEver s <= MaxFitnessEver s')%Q /\
    (Fitness (h top) <= MaxFitnessEver s')%Q /\
    if Qltb (MaxFitnessEver s) (Fitness (h top))
    then MaxFitnessEver s' = Fitness (h top) /\
         AgeOfLastImprovement s' = Age s /\ lastImproved s' = 0
    else MaxFitnessEver s' = MaxFitnessEver s /\
         AgeOfLastImprovement s' = AgeOfLastImprovement s.
Proof.
  intros Hsrt Hnd Hne Hnp.
  destruct (adjustFitness_result srt conf s h Hsrt Hne Hnp)
    as (top & rest & El & Hrun).
  set (h1 := adjust_loop conf s (forced_debt conf s) h) in *.
  destruct (Hsrt (ByFitness_Less h1) (Organisms s)) as [Hperm _].
  assert (Htop : In top (Organisms s)).
  { apply (Permutation_in top (Permutation_sym Hperm)). rewrite El. now left. }
  assert (Horig : OriginalFitness (h1 top) = Fitness (h top)).
  { unfold h1, adjust_loop.
    rewrite (fold_upd_in (adjust_org conf s (forced_debt conf s))) by assumption.
    apply adjust_org_original. }
  rewrite Horig in Hrun. rewrite El in Hrun.
  eexists _, _, top. split; [exact Hrun|].
  destruct (Qltb (MaxFitnessEver s) (Fitness (h top))) eqn:E.
  - apply Qltb_lt in E.
    cbn [Organisms set_Organisms set_improved Id Age ExpectedOffspring
         MaxFitnessEver AgeOfLastImprovement nth_error].
    repeat split; try reflexivity; try lra.
    unfold lastImproved, sub64.
    cbn [Age AgeOfLastImprovement set_improved set_Organisms].
    rewrite Z.sub_diag. reflexivity.
  - apply Qltb_ge in E.
    cbn [Organisms set_Organisms Id Age ExpectedOffspring
         MaxFitnessEver AgeOfLastImprovement nth_error].
    repeat split; try reflexivity; try lra.
Qed.

(** X6. [adjustFitness] touches only the organisms of the species: the
    record of every other organism is left as it was; and of the
    organisms of the species it changes no field but [Fitness],
    [OriginalFitness], [IsChampion] and [ToEliminate]: each of the ten
    other fields of the record keeps its value. *)
Theorem adjustFitness_frame
  (srt : (nat -> nat -> bool) -> list nat -> list nat)
  (conf : Neat) (s : Species) (h : OrgHeap) :
  SortContract srt ->
  Organisms s <> [] ->
  0 <= survivors conf (Organisms s) <= maxInt64 ->
  exists s' h',
    adjustFitness srt conf s h = Ok (s', h') /\
    (forall p, ~ In p (Organisms s) -> h' p = h p) /\
    (forall p,
       GNome (h' p) = GNome (h p) /\
       SpeciesOf (h' p) = SpeciesOf (h p) /\
       OrgExpectedOffspring (h' p) = OrgExpectedOffspring (h p) /\
       SuperChampOffspring (h' p) = SuperChampOffspring (h p) /\
       IsPopulationChampion (h' p) = IsPopulationChampion (h p) /\
       IsPopulationChampionChild (h' p) = IsPopulationChampionChild (h p) /\
       highestFitness (h' p) = highestFitness (h p) /\
       Generation (h' p) = Generation (h p) /\
       mutationStructBaby (h' p) = mutationStructBaby (h p) /\
       mateBaby (h' p) = mateBaby (h p)).
Proof.
  intros Hsrt Hne Hnp.
  destruct (adjustFitness_result srt conf s h Hsrt Hne Hnp)
    as (top & rest & El & Hrun).
  set (h1 := adjust_loop conf s (forced_debt conf s) h) in *.
  destruct (Hsrt (ByFitness_Less h1) (Organisms s)) as [Hperm _].
  set (l' := srt (ByFitness_Less h1) (Organisms s)) in *.
  eexists _, _. split; [exact Hrun|]. split.
  - intros p Hp.
    assert (Hp' : ~ In p l')
      by (intros H; apply Hp; apply (Permutation_in p (Permutation_sym Hperm) H)).
    rewrite (fold_upd_notin (fun o => set_ToEliminate o true)).
    + rewrite upd_other.
      * unfold h1, adjust_loop.
        apply (fold_upd_notin (adjust_org conf s (forced_debt conf s))). exact Hp.
      * intros ->. apply Hp'. rewrite El. now left.
    + intros H. apply Hp'.
      rewrite <- (firstn_skipn (Z.to_nat (survivors conf (Organisms s))) l').
      apply in_or_app. now right.
  - assert (Hadj : forall (B : Type) (proj : Organism -> B),
               (forall o f, proj (set_Fitness o f) = proj o) ->
               (forall o f, proj (set_OriginalFitness o f) = proj o) ->
               (forall o b, proj (set_IsChampion o b) = proj o) ->
               (forall o b, proj (set_ToEliminate o b) = proj o) ->
               forall p,
                 proj (fold_left (fun h p => upd h p (set_ToEliminate (h p) true))
                         (skipn (Z.to_nat (survivors conf (Organisms s))) l')
                         (upd h1 top (set_IsChampion (h1 top) true)) p)
                 = proj (h p)).
    { intros B proj P1 P2 P3 P4 p.
      rewrite (fold_upd_proj (fun o => set_ToEliminate o true) proj)
        by (intros o; apply P4).
      assert (E1 : proj (upd h1 top (set_IsChampion (h1 top) true) p) = proj (h1 p)).
      { unfold upd. destruct (Nat.eqb p top) eqn:E; [|reflexivity].
        apply Nat.eqb_eq in E. subst. apply P3. }
      rewrite E1. unfold h1, adjust_loop.
      apply (fold_upd_proj (adjust_org conf s (forced_debt conf s)) proj).
      intros o. unfold adjust_org.
      repeat match goal with
             | |- context [if ?b then _ else _] => destruct b
             | |- _ => rewrite P1
             | |- _ => rewrite P2
             end; reflexivity. }
    intros p.
    repeat split; apply Hadj; reflexivity.
Qed.

(** X7. [adjustFitness] only ever sets the two flags: an organism that
    was marked champion, or marked for elimination, before the call is
    still so marked after it, whatever its new rank. *)
Theorem adjustFitness_never_clears_flags
  (srt : (nat -> nat -> bool) -> list nat -> list nat)
  (conf : Neat) (s : Species) (h : OrgHeap) :
  SortContract srt ->
  Organisms s <> [] ->
  0 <= survivors conf (Organisms s) <= maxInt64 ->
  exists s' h',
    adjustFitness srt conf s h = Ok (s', h') /\
    (forall p, IsChampion (h p) = true -> IsChampion (h' p) = true) /\
    (forall p, ToEliminate (h p) = true -> ToEliminate (h' p) = true).
Proof.
  intros Hsrt Hne Hnp.
  destruct (adjustFitness_runs srt conf s h Hsrt Hne Hnp)
    as (s' & h' & top & Hrun & _ & _ & _ & _ & _ & Hchamp & Helim).
  exists s', h'. split; [exact Hrun|]. split.
  - intros p Hp. rewrite Hchamp, Hp. apply orb_true_r.
  - intros p Hp. rewrite Helim, Hp. now destruct (in_dec _ _ _).
Qed.

Lemma adjustFitness_top_greatest
  (srt : (nat -> nat -> bool) -> list nat -> list nat)
  (conf : Neat) (s : Species) (h : OrgHeap) :
  SortContract srt ->
  Organisms s <> [] ->
  0 <= survivors conf (Organisms s) <= maxInt64 ->
  exists s' h' top,
    adjustFitness srt conf s h = Ok (s', h') /\
    nth_error (Organisms s') 0 = Some top /\
    (0 <= Fitness (h' top))%Q /\
    (forall q, In q (Organisms s') -> (Fitness (h' q) <= Fitness (h' top))%Q).
Proof.
  intros Hsrt Hne Hnp.
  destruct (adjustFitness_runs srt conf s h Hsrt Hne Hnp)
    as (s' & h' & top & Hrun & Horgs & Htop & _ & Hfit & _).
  set (h1 := adjust_loop conf s (forced_debt conf s) h) in *.
  destruct (Hsrt (ByFitness_Less h1) (Organisms s)) as [Hperm Hsorted].
  specialize (Hsorted (ByFitness_Less_swo h1)).
  set (l' := srt (ByFitness_Less h1) (Organisms s)) in *.
  exists s', h', top. rewrite Horgs.
  split; [exact Hrun|]. split; [exact Htop|].
  destruct l' as [|t rest] eqn:El; [discriminate|].
  injection Htop as ->.
  split.
  - assert (Hin : In top (Organisms s))
      by (apply (Permutation_in top (Permutation_sym Hperm)); now left).
    rewrite Hfit. unfold h1, adjust_loop.
    destruct (fold_upd_image (adjust_org conf s (forced_debt conf s))
                (Organisms s) h top Hin) as [o Ho].
    rewrite Ho, adjust_org_fitness.
    apply spec_share_nonneg; [exact Hne|apply spec_clamp_nonneg].
  - intros q [<-|Hq]; [apply Qle_refl|].
    inversion Hsorted as [|? ? _ Hall]; subst.
    rewrite Forall_forall in Hall. specialize (Hall q Hq).
    unfold ByFitness_Less in Hall. apply Qltb_ge in Hall.
    rewrite !Hfit. exact Hall.
Qed.

(** X8. Right after [adjustFitness], [computeMaxFitness] returns the
    fitness of the organism at index 0. *)
Theorem computeMaxFitness_after_adjustFitness
  (srt : (nat -> nat -> bool) -> list nat -> list nat)
  (conf : Neat) (s : Species) (h : OrgHeap) :
  SortContract srt ->
  Organisms s <> [] ->
  0 <= survivors conf (Organisms s) <= maxInt64 ->
  exists s' h' top,
    adjustFitness srt conf s h = Ok (s', h') /\
    nth_error (Organisms s') 0 = Some top /\
    (fst (computeMaxFitness s' h') == Fitness (h' top))%Q.
Proof.
  intros Hsrt Hne Hnp.
  destruct (adjustFitness_top_greatest srt conf s h Hsrt Hne Hnp)
    as (s' & h' & top & Hrun & Htop & Hpos & Hmax).
  exists s', h', top. split; [exact Hrun|]. split; [exact Htop|].
  unfold computeMaxFitness. cbn [fst].
  destruct (computeMaxFitness_fold h' (Organisms s') 0%Q) as (_ & H2 & H3).
  cbv zeta in H2, H3.
  assert (Hin : In top (Organisms s')) by (eapply nth_error_In; eassumption).
  specialize (H2 top Hin).
  apply Qle_antisym; [|exact H2].
  destruct H3 as [->|(p & Hp & ->)]; [exact Hpos|now apply Hmax].
Qed.

(** X9. Right after [adjustFitness], [findChampion] returns the organism
    at index 0 when its fitness is positive, and no organism when it is
    0. *)
Theorem findChampion_after_adjustFitness
  (srt : (nat -> nat -> bool) -> list nat -> list nat)
  (conf : Neat) (s : Species) (h : OrgHeap) :
  SortContract srt ->
  Organisms s <> [] ->
  0 <= survivors conf (Organisms s) <= maxInt64 ->
  exists s' h' top,
    adjustFitness srt conf s h = Ok (s', h') /\
    nth_error (Organisms s') 0 = Some top /\
    findChampion s' h'
    = if Qltb 0 (Fitness (h' top)) then Some top else None.
Proof.
  intros Hsrt Hne Hnp.
  destruct (adjustFitness_top_greatest srt conf s h Hsrt Hne Hnp)
    as (s' & h' & top & Hrun & Htop & Hpos & Hmax).
  exists s', h', top. split; [exact Hrun|]. split; [exact Htop|].
  assert (Hin : In top (Organisms s')) by (eapply nth_error_In; eassumption).
  unfold findChampion.
  destruct (findChampion_fold h' (Organisms s') 0%Q None)
    as [[Hr Hall]|(i & c0 & Hn & Hr & Hlt & Hall & Hbef)]; rewrite Hr; cbn [snd].
  - specialize (Hall top Hin).
    destruct (Qltb 0 (Fitness (h' top))) eqn:E; [|reflexivity].
    apply Qltb_lt in E. lra.
  - destruct i as [|i].
    + rewrite Htop in Hn. injection Hn as <-.
      apply Qltb_lt in Hlt. now rewrite Hlt.
    + exfalso. assert (Hc : In c0 (Organisms s')) by (eapply nth_error_In; eassumption).
      specialize (Hmax c0 Hc).
      specialize (Hbef 0%nat top ltac:(lia) Htop). lra.
Qed.

(** X16. With a survival threshold that is not negative, the organism
    that [adjustFitness] puts first is not marked for elimination
    (unless it was marked before the call): adding 1.0 to the product
    keeps at least one parent. *)
Theorem adjustFitness_keeps_a_parent
  (srt : (nat -> nat -> bool) -> list nat -> list nat)
  (conf : Neat) (s : Species) (h : OrgHeap) :
  SortContract srt ->
  NoDup (Organisms s) ->
  Organisms s <> [] ->
  (0 <= SurvivalThresh conf)%Q ->
  survivors conf (Organisms s) <= maxInt64 ->
  (forall p, In p (Organisms s) -> ToEliminate (h p) = false) ->
  1 <= survivors conf (Organisms s) /\
  exists s' h' top,
    adjustFitness srt conf s h = Ok (s', h') /\
    nth_error (Organisms s') 0 = Some top /\
    ToEliminate (h' top) = false.
Proof.
  intros Hsrt Hnd Hne Hth Hmax Hflags.
  assert (H1 : 1 <= survivors conf (Organisms s)).
  { unfold survivors, math_Floor. apply Qfloor_ge_1, round64_ge_1.
    pose proof (float_len_pos _ Hne) as Hpos.
    pose proof (round64_nonneg (SurvivalThresh conf) Hth) as Ht.
    assert (Hn : (0 <= round64 (float_of_int (len (Organisms s))))%Q)
      by (apply round64_nonneg; lra).
    pose proof (round64_nonneg _ (Qmult_le_0_compat _ _ Ht Hn)) as Hp.
    lra. }
  split; [exact H1|].
  destruct (adjustFitness_runs srt conf s h Hsrt Hne ltac:(lia))
    as (s' & h' & top & Hrun & Horgs & Htop & _ & _ & _ & _ & Helim).
  destruct (Hsrt (ByFitness_Less (adjust_loop conf s (forced_debt conf s) h))
              (Organisms s)) as [Hperm _].
  exists s', h', top. rewrite Horgs.
  split; [exact Hrun|]. split; [exact Htop|].
  assert (Hnd' : NoDup (srt (ByFitness_Less
                              (adjust_loop conf s (forced_debt conf s) h))
                          (Organisms s)))
    by (eapply Permutation_NoDup; eassumption).
  rewrite Helim.
  destruct (in_dec Nat.eq_dec top _) as [Hin|Hn].
  - apply (NoDup_skipn_index _ _ 0 top Hnd' Htop) in Hin. lia.
  - apply Hflags. apply (Permutation_in top (Permutation_sym Hperm)).
    eapply nth_error_In; eassumption.
Qed.

(** ** Placing a baby in a species *)

Lemma find_split {A : Type} (f : A -> bool) (l : list A) :
  match find f l with
  | Some a => exists l1 l2, l = l1 ++ a :: l2 /\
                            Forall (fun x => f x = false) l1 /\ f a = true
  | None => Forall (fun x => f x = false) l
  end.
Proof.
  induction l as [|x l IH]; cbn [find]; [constructor|].
  destruct (f x) eqn:E.
  - exists [], l. repeat split; [constructor|exact E].
  - destruct (find f l) as [a|].
    + destruct IH as (l1 & l2 & -> & H1 & H2).
      exists (x :: l1), l2. repeat split; [now constructor|exact H2].
    + now constructor.
Qed.

Section Placing.
Context {World : Type} {C : Collaborators World}.

Lemma find_species_run (conf : Neat) (baby : nat) (st : RState World) :
  forall sps,
    find_species conf sps baby st
    = match find (compatible_species conf st baby) sps with
      | Some sp =>
          Ok (true,
              mkRState
                (upd (orgs st) baby (set_SpeciesOf (orgs st baby) sp))
                (next_org st)
                (upd (specs st) sp (addOrganism (specs st sp) baby))
                (next_spec st) (pop st) (world st) (calls st) (babies st))
      | None => Ok (false, st)
      end.
Proof.
  induction sps as [|sp sps IH]; [reflexivity|].
  cbn [find_species find]. unfold compatible_species at 1.
  unfold mbind at 1. unfold get_spec at 1.
  destruct (0 <? len (Organisms (specs st sp))) eqn:E; cbn [andb].
  - destruct (Organisms (specs st sp)) as [|o os] eqn:Eo; [discriminate|].
    unfold mbind, lift, get_org, ask, put_spec, put_org, ret.
    cbn [index Z.ltb Z.compare Z.to_nat nth_error hd orgs world specs].
    destruct (Qltb _ _); [reflexivity|exact IH].
  - exact IH.
Qed.

(** X10. Placing a baby never fails, and puts it in one species: the
    first species of the population's list, in order, that has an
    organism and whose first organism is at a compatibility distance
    below [CompatThreshold] from the baby, the baby being added at the
    end of its organisms; or, when there is none, a new species appended
    to the list, novel, of age 1, with the next species id, whose only
    organism is the baby.  The baby's [SpeciesOf] is that species; no
    other species and no other organism is changed. *)
Theorem assign_species_places (conf : Neat) (baby : nat) (st : RState World) :
  exists st' sp,
    assign_species conf baby st = Ok (tt, st') /\
    In sp (species (pop st')) /\
    SpeciesOf (orgs st' baby) = sp /\
    (forall p, p <> baby -> orgs st' p = orgs st p) /\
    (forall sp', sp' <> sp -> specs st' sp' = specs st sp') /\
    ((exists l1 l2,
         species (pop st) = l1 ++ sp :: l2 /\
         Forall (fun x => compatible_species conf st baby x = false) l1 /\
         compatible_species conf st baby sp = true /\
         pop st' = pop st /\
         specs st' sp = addOrganism (specs st sp) baby)
     \/
     (Forall (fun x => compatible_species conf st baby x = false)
        (species (pop st)) /\
      sp = next_spec st /\
      species (pop st') = species (pop st) ++ [sp] /\
      lastSpecies (pop st') = add64 (lastSpecies (pop st)) 1 /\
      specs st' sp
      = addOrganism (NewSpeciesNovel (add64 (lastSpecies (pop st)) 1) true) baby)).
Proof.
  assert (Hrun : assign_species conf baby st
                 = match find (compatible_species conf st baby) (species (pop st)) with
                   | Some sp =>
                       Ok (tt,
                           mkRState
                             (upd (orgs st) baby (set_SpeciesOf (orgs st baby) sp))
                             (next_org st)
                             (upd (specs st) sp (addOrganism (specs st sp) baby))
                             (next_spec st) (pop st) (world st) (calls st)
                             (babies st))
                   | None => createFirstSpecies baby st
                   end).
  { unfold assign_species, mbind, get_pop. cbn [fst snd].
    destruct (species (pop st)) as [|x xs] eqn:Es; [reflexivity|].
    rewrite find_species_run.
    destruct (find _ _); reflexivity. }
  rewrite Hrun.
  pose proof (find_split (compatible_species conf st baby) (species (pop st))) as Hf.
  destruct (find (compatible_species conf st baby) (species (pop st))) as [sp|].
  - destruct Hf as (l1 & l2 & El & H1 & H2).
    eexists _, sp. split; [reflexivity|].
    cbn [pop orgs specs]. split; [rewrite El; apply in_elt|].
    split; [rewrite upd_same; reflexivity|].
    split; [intros p Hp; now apply upd_other|].
    split; [intros sp' Hsp; now apply upd_other|].
    left. exists l1, l2. rewrite upd_same. auto.
  - unfold createFirstSpecies. eexists _, (next_spec st).
    split; [reflexivity|].
    cbn [pop orgs specs species lastSpecies].
    split; [apply in_or_app; right; now left|].
    split; [rewrite upd_same; reflexivity|].
    split; [intros p Hp; now apply upd_other|].
    split; [intros sp' Hsp; now apply upd_other|].
    right. rewrite upd_same. auto.
Qed.
End Placing.

(** ** The choice of a species to mate with *)

Lemma index_in_range {A : Type} (l : list A) (i : Z) :
  0 <= i < len l -> exists a, index l i = Ok a /\ In a l.
Proof.
  intros [H0 H1]. unfold index.
  destruct (i <? 0) eqn:E; [apply Z.ltb_lt in E; lia|].
  destruct (nth_error l (Z.to_nat i)) as [a|] eqn:En.
  - exists a. split; [reflexivity|]. eapply nth_error_In; eassumption.
  - apply nth_error_None in En. unfold len in H1. lia.
Qed.

Lemma randspeciesnum_in_range (g : Q) (n : Z) :
  (0 <= g)%Q -> 1 <= n <= maxInt64 ->
  let randmult := (g / 4)%Q in
  let randmult := if Qltb 1 randmult then 1%Q else randmult in
  0 <= int_of_float (math_Floor (randmult * (float_of_int n - 1) + 0.5)%Q) < n.
Proof.
  intros Hg [Hn1 Hn2]. cbv zeta. unfold math_Floor, float_of_int.
  set (rm := if Qltb 1 (g / 4) then 1%Q else (g / 4)%Q).
  assert (Hrm : (0 <= rm <= 1)%Q).
  { unfold rm. destruct (Qltb 1 (g / 4)) eqn:E.
    - split; [discriminate|apply Qle_refl].
    - apply Qltb_ge in E. split; [|exact E].
      apply Qle_shift_div_l; [reflexivity|]. lra. }
  pose proof (inject_Z_le_mono 1 n Hn1) as HN.
  change (inject_Z 1) with 1%Q in HN.
  set (N := inject_Z n) in *.
  assert (Hm0 : (0 <= rm * (N - 1))%Q)
    by (apply Qmult_le_0_compat; lra).
  assert (Hm1 : (rm * (N - 1) <= 1 * (N - 1))%Q)
    by (apply Qmult_le_compat_r; lra).
  set (x := (rm * (N - 1) + 0.5)%Q) in *.
  assert (Hx : (0 <= x)%Q /\ (x < N)%Q) by (unfold x; split; lra).
  destruct Hx as [Hx0 Hx1].
  pose proof (Qfloor_nonneg x Hx0) as Hf0.
  pose proof (Qfloor_le x) as Hf1.
  assert (Hf2 : Qfloor x < n).
  { rewrite Zlt_Qlt. fold N. clearbody x N. lra. }
  rewrite int_of_float_small; [lia|]. unfold minInt64. lia.
Qed.

(** X11. When the list of ranked species is not empty and the Gaussian
    generator yields no negative value, the choice of a species to mate
    with never indexes out of range: it returns, after at most [fuel]
    draws, a species of the list (or the species it was started with,
    when that one is not [s] or no attempt is left). *)
Theorem pick_randspecies_in_range {World : Type} {C : Collaborators World}
  (P : World -> Prop) (s : nat) (sorted_species : list nat) :
  sorted_species <> [] ->
  len sorted_species <= maxInt64 ->
  (forall w, P w ->
             (0 <= fst (gaussian_StdGaussian w))%Q /\
             P (snd (gaussian_StdGaussian w))) ->
  forall (fuel randspecies : nat) (st : RState World),
    P (world st) ->
    exists rs st',
      pick_randspecies s sorted_species fuel randspecies st = Ok (rs, st') /\
      P (world st') /\
      (rs = randspecies \/ In rs sorted_species) /\
      ((0 < fuel)%nat -> randspecies = s -> In rs sorted_species).
Proof.
  intros Hne Hlen Hgen.
  assert (Hn : 1 <= len sorted_species <= maxInt64).
  { split; [|exact Hlen]. destruct sorted_species; [contradiction|].
    unfold len. cbn [length]. lia. }
  induction fuel as [|fuel IH]; intros rs0 st HP.
  - exists rs0, st. cbn [pick_randspecies]. unfold ret.
    split; [reflexivity|]. split; [exact HP|]. split; [now left|lia].
  - cbn [pick_randspecies].
    destruct (Nat.eqb rs0 s) eqn:E.
    + destruct (Hgen _ HP) as [Hg HP'].
      unfold mbind at 1. unfold draw at 1. cbn [fst snd].
      pose proof (randspeciesnum_in_range _ _ Hg Hn) as Hidx. cbv zeta in Hidx.
      destruct (index_in_range sorted_species _ Hidx) as (a & Ha & Hin).
      unfold mbind at 1. unfold lift at 1. rewrite Ha.
      match goal with
      | |- context [pick_randspecies s sorted_species fuel a ?st1] =>
          destruct (IH a st1 HP') as (rs & st' & Hrun & HP'' & Hor & _)
      end.
      exists rs, st'. split; [exact Hrun|]. split; [exact HP''|].
      assert (In rs sorted_species) by (destruct Hor as [->|H]; assumption).
      split; [now right|auto].
    + exists rs0, st. unfold ret. split; [reflexivity|]. split; [exact HP|].
      split; [now left|]. intros _ ->. rewrite Nat.eqb_refl in E. discriminate.
Qed.

Lemma pick_randspecies_in_range_witness :
  exists rs st',
    pick_randspecies 1%nat [1; 2; 3]%nat 5 1%nat
      (script_state pair_heap [1; 2]%nat 1 [1; 2; 3]%nat [0%Q; 2.5%Q])
    = Ok (rs, st') /\
    In rs [1; 2; 3]%nat.
Proof.
  destruct (pick_randspecies_in_range
              (fun w : Script => Forall (fun q => (0 <= q)%Q) (script w))
              1%nat [1; 2; 3]%nat ltac:(discriminate) ltac:(qcompute)) with
    (fuel := 5%nat) (randspecies := 1%nat)
    (st := script_state pair_heap [1; 2]%nat 1 [1; 2; 3]%nat [0%Q; 2.5%Q])
    as (rs & st' & Hrun & _ & _ & Hin).
  - intros w Hw. cbn [gaussian_StdGaussian ScriptCollab next_draw fst snd script].
    destruct (script w) as [|q qs]; cbn [hd tl].
    + split; [apply Qle_refl|constructor].
    + inversion Hw; subst. split; assumption.
  - cbn [world script_state script]. repeat constructor; qcompute.
  - exists rs, st'. split; [exact Hrun|]. apply Hin; [lia|reflexivity].
Defined.

(** ** The number of organisms [reproduce] creates *)

Section Creates.
Context {World : Type} {C : Collaborators World}.

Lemma creates_bind {A B : Type} (n k : nat) (m : M World A) (f : A -> M World B) :
  creates n m -> (forall a, creates k (f a)) -> creates (n + k) (mbind m f).
Proof.
  intros Hm Hf st b st' H. unfold mbind in H.
  destruct (m st) as [[a st1]|] eqn:E; [|discriminate].
  destruct (Hm _ _ _ E) as [H1 H2]. destruct (Hf a _ _ _ H) as [H3 H4].
  split; [lia|]. rewrite H4, H2, H1, seq_app, app_assoc. reflexivity.
Qed.

Lemma creates_bind00 {A B : Type} (m : M World A) (f : A -> M World B) :
  creates 0 m -> (forall a, creates 0 (f a)) -> creates 0 (mbind m f).
Proof. apply (creates_bind 0 0). Qed.

Lemma creates_bind01 {A B : Type} (m : M World A) (f : A -> M World B) :
  creates 0 m -> (forall a, creates 1 (f a)) -> creates 1 (mbind m f).
Proof. apply (creates_bind 0 1). Qed.

Lemma creates_bind10 {A B : Type} (m : M World A) (f : A -> M World B) :
  creates 1 m -> (forall a, creates 0 (f a)) -> creates 1 (mbind m f).
Proof. apply (creates_bind 1 0). Qed.

Lemma creates_same {A : Type} (m : M World A) :
  (forall st a st', m st = Ok (a, st') ->
                    next_org st' = next_org st /\ babies st' = babies st) ->
  creates 0 m.
Proof.
  intros H st a st' E. destruct (H _ _ _ E) as [H1 H2].
  cbn [seq]. rewrite app_nil_r. split; [lia|exact H2].
Qed.

Lemma creates_ret {A : Type} (a : A) : creates 0 (@ret World A a).
Proof. apply creates_same. intros st a' st' H. injection H as _ <-. auto. Qed.

Lemma creates_lift {A : Type} (o : outcome A) : creates 0 (@lift World A o).
Proof.
  apply creates_same. intros st a st' H. unfold lift in H.
  destruct o; [|discriminate]. injection H as _ <-. auto.
Qed.

Lemma creates_get_org (p : nat) : creates 0 (@get_org World p).
Proof. apply creates_same. intros st a st' H. injection H as _ <-. auto. Qed.

Lemma creates_get_spec (p : nat) : creates 0 (@get_spec World p).
Proof. apply creates_same. intros st a st' H. injection H as _ <-. auto. Qed.

Lemma creates_get_pop : creates 0 (@get_pop World).
Proof. apply creates_same. intros st a st' H. injection H as _ <-. auto. Qed.

Lemma creates_put_org (p : nat) (o : Organism) : creates 0 (@put_org World p o).
Proof. apply creates_same. intros st a st' H. injection H as _ <-. auto. Qed.

Lemma creates_put_spec (p : nat) (sp : Species) :
  creates 0 (@put_spec World p sp).
Proof. apply creates_same. intros st a st' H. injection H as _ <-. auto. Qed.

Lemma creates_ask {A : Type} (f : World -> A) : creates 0 (ask f).
Proof. apply creates_same. intros st a st' H. injection H as _ <-. auto. Qed.

Lemma creates_draw {A : Type} (f : World -> A * World) : creates 0 (draw f).
Proof. apply creates_same. intros st a st' H. injection H as _ <-. auto. Qed.

Lemma creates_call {A : Type} (c : Call) (f : World -> A * World) :
  creates 0 (call c f).
Proof. apply creates_same. intros st a st' H. injection H as _ <-. auto. Qed.

Lemma creates_Int31n (n : Z) : creates 0 (@Int31n World C n).
Proof.
  unfold Int31n. destruct (n <=? 0); [apply creates_lift|apply creates_draw].
Qed.

Lemma creates_createFirstSpecies (baby : nat) :
  creates 0 (@createFirstSpecies World baby).
Proof. apply creates_same. intros st a st' H. injection H as _ <-. auto. Qed.

Lemma creates_NewOrganism (fit : Q) (g : nat) (generation : Z) :
  creates 1 (@NewOrganism World fit g generation).
Proof.
  intros st a st' H. injection H as _ <-. cbn [next_org babies seq].
  split; [lia|reflexivity].
Qed.

Ltac zero :=
  repeat first
    [ apply creates_ret | apply creates_lift | apply creates_get_org
    | apply creates_get_spec | apply creates_get_pop | apply creates_put_org
    | apply creates_put_spec | apply creates_ask | apply creates_draw
    | apply creates_call | apply creates_Int31n
    | apply creates_createFirstSpecies
    | apply creates_bind00; [|intros ?]
    | match goal with
      | |- creates 0 (if ?b then _ else _) => destruct b
      end ].

Lemma creates_find_species (conf : Neat) (baby : nat) (sps : list nat) :
  creates 0 (find_species conf sps baby).
Proof.
  induction sps as [|sp sps IH]; cbn [find_species]; [apply creates_ret|].
  apply creates_bind00; [apply creates_get_spec|intros spv].
  destruct (0 <? len (Organisms spv)); [|exact IH].
  do 4 (apply creates_bind00; [zero|intros ?]).
  match goal with |- creates 0 (if ?b then _ else _) => destruct b end;
    [zero|exact IH].
Qed.

Lemma creates_assign_species (conf : Neat) (baby : nat) :
  creates 0 (assign_species conf baby).
Proof.
  unfold assign_species. apply creates_bind00; [zero|intros p].
  destruct (species p); [zero|].
  apply creates_bind00; [apply creates_find_species|intros b].
  destruct b; zero.
Qed.

Lemma creates_pick_randspecies (s : nat) (sorted_species : list nat) (fuel : nat) :
  forall rs, creates 0 (pick_randspecies s sorted_species fuel rs).
Proof.
  induction fuel as [|fuel IH]; intros rs; cbn [pick_randspecies]; [zero|].
  destruct (Nat.eqb rs s); [|zero].
  apply creates_bind00; [zero|intros g].
  apply creates_bind00; [zero|intros r]. apply IH.
Qed.

Lemma creates_mutate_cascade (generation : Z) (conf : Neat) (g : nat) :
  creates 0 (mutate_cascade generation conf g).
Proof. unfold mutate_cascade, call_. zero. Qed.

Lemma creates_crossover (conf : Neat) (mom dad : nat) (count : Z) (g : nat) :
  creates 0 (crossover conf mom dad count g).
Proof. unfold crossover. zero. Qed.

Lemma creates_choose_dad (s : nat) (sorted_species : list nat) (conf : Neat)
  (poolsize : Z) :
  creates 0 (choose_dad s sorted_species conf poolsize).
Proof.
  unfold choose_dad. apply creates_bind00; [zero|intros r].
  destruct (Qltb _ _); [zero|].
  apply creates_bind00; [apply creates_pick_randspecies|intros rs]. zero.
Qed.

Lemma creates_superchamp_branch (generation : Z) (conf : Neat)
  (thechamp : nat) (count : Z) :
  creates 1 (superchamp_branch generation conf thechamp count).
Proof.
  unfold superchamp_branch, call_.
  do 4 (apply creates_bind01; [zero|intros ?]).
  apply creates_bind10; [apply creates_NewOrganism|intros ?]. zero.
Qed.

Lemma creates_champ_clone_branch (generation : Z) (thechamp : nat) (count : Z) :
  creates 1 (champ_clone_branch generation thechamp count).
Proof.
  unfold champ_clone_branch.
  do 2 (apply creates_bind01; [zero|intros ?]).
  apply creates_bind10; [apply creates_NewOrganism|intros ?]. zero.
Qed.

Lemma creates_mutate_branch (generation : Z) (s : nat) (conf : Neat)
  (poolsize count : Z) :
  creates 1 (mutate_branch generation s conf poolsize count).
Proof.
  unfold mutate_branch.
  do 5 (apply creates_bind01; [zero|intros ?]).
  apply creates_bind01; [apply creates_mutate_cascade|intros ?].
  apply creates_bind10; [apply creates_NewOrganism|intros ?]. zero.
Qed.

Lemma creates_mate_branch (generation : Z) (s : nat) (sorted_species : list nat)
  (conf : Neat) (poolsize count : Z) (g : nat) :
  creates 1 (mate_branch generation s sorted_species conf poolsize count g).
Proof.
  unfold mate_branch.
  do 3 (apply creates_bind01; [zero|intros ?]).
  apply creates_bind01; [apply creates_choose_dad|intros ?].
  apply creates_bind01; [apply creates_crossover|intros ?].
  do 6 (apply creates_bind01; [zero|intros ?]).
  apply creates_bind01.
  { match goal with |- creates 0 (if ?b then _ else _) => destruct b end;
      [apply creates_mutate_cascade|zero]. }
  intros ?.
  apply creates_bind10; [apply creates_NewOrganism|intros ?].
  do 2 (apply creates_bind00; [zero|intros ?]).
  apply creates_bind00; [apply creates_assign_species|intros ?]. zero.
Qed.

Lemma creates_reproduce_one (generation : Z) (s : nat)
  (sorted_species : list nat) (conf : Neat) (poolsize : Z) (thechamp : nat)
  (count : Z) (loc : nat * bool) :
  creates 1 (reproduce_one generation s sorted_species conf poolsize thechamp
               count loc).
Proof.
  unfold reproduce_one.
  do 2 (apply creates_bind01; [zero|intros ?]).
  destruct (0 <? _).
  { apply creates_bind10; [apply creates_superchamp_branch|intros ?]. zero. }
  destruct (negb _ && _).
  { apply creates_bind10; [apply creates_champ_clone_branch|intros ?]. zero. }
  apply creates_bind01; [zero|intros ?].
  destruct (_ || _).
  - apply creates_bind10; [apply creates_mutate_branch|intros ?]. zero.
  - apply creates_bind10; [apply creates_mate_branch|intros ?]. zero.
Qed.

Lemma creates_reproduce_loop (generation : Z) (s : nat)
  (sorted_species : list nat) (conf : Neat) (poolsize : Z) (thechamp : nat)
  (fuel : nat) :
  forall count loc,
    creates fuel (reproduce_loop generation s sorted_species conf fuel
                    poolsize thechamp count loc).
Proof.
  induction fuel as [|fuel IH]; intros count loc; cbn [reproduce_loop].
  - apply creates_ret.
  - apply (creates_bind 1 fuel); [apply creates_reproduce_one|intros ?]. apply IH.
Qed.

(** X12. Every call of [reproduce] that returns either reports the
    empty species (positive [ExpectedOffspring], no organism: the result
    is [false] with an error, and nothing has changed), or returns
    [(true, nil)] after creating exactly [ExpectedOffspring] organisms
    (none when that number is negative), at the next free addresses and
    in that order. *)
Theorem reproduce_creates_expected (generation : Z) (s : nat)
  (sorted_species : list nat) (conf : Neat) (st st' : RState World)
  (r : bool * error) :
  reproduce generation s sorted_species conf st = Ok (r, st') ->
  (0 < ExpectedOffspring (specs st s) /\ Organisms (specs st s) = [] /\
   fst r = false /\ snd r <> None /\ st' = st) \/
  (Organisms (specs st s) <> [] /\ r = (true, None) /\
   babies st'
   = babies st
     ++ seq (next_org st) (Z.to_nat (ExpectedOffspring (specs st s)))).
Proof.
  intros H. unfold reproduce in H. unfold mbind at 1 in H.
  unfold get_spec at 1 in H.
  destruct (Organisms (specs st s)) as [|o os] eqn:Eo.
  - left. destruct (0 <? ExpectedOffspring (specs st s)) eqn:E.
    + cbn in H. injection H as <- <-. apply Z.ltb_lt in E.
      repeat split; [exact E|discriminate].
    + cbn in H. discriminate.
  - right. split; [discriminate|].
    rewrite andb_false_r in H.
    unfold mbind at 1 in H. cbn [lift index Z.ltb Z.compare Z.to_nat nth_error] in H.
    unfold mbind in H.
    match type of H with
    | context [reproduce_loop ?g ?s0 ?ss ?c ?f ?p ?t ?cnt ?l st] =>
        destruct (reproduce_loop g s0 ss c f p t cnt l st) as [[u st1]|] eqn:El;
          [|discriminate];
        pose proof (creates_reproduce_loop g s0 ss c p t f cnt l _ _ _ El) as [_ Hb]
    end.
    unfold ret in H. injection H as <- <-. split; [reflexivity|exact Hb].
Qed.
End Creates.

(** ** A species of one organism *)

Section Steady.
Context {World : Type} {C : Collaborators World}.

Lemma steady_bind {A B : Type} (m : M World A) (f : A -> M World B)
  (st : RState World) :
  steady_at m st ->
  (forall a st1, m st = Ok (a, st1) -> steady_at (f a) st1) ->
  steady_at (mbind m f) st.
Proof.
  intros (a & st1 & Hm & Hs & Hp & cs & Hc & Hf) Hk.
  destruct (Hk a st1 Hm) as (b & st2 & Hm2 & Hs2 & Hp2 & cs2 & Hc2 & Hf2).
  exists b, st2. unfold mbind. rewrite Hm.
  split; [exact Hm2|]. split; [congruence|]. split; [congruence|].
  exists (cs ++ cs2). split.
  - rewrite Hc2, Hc, app_assoc. reflexivity.
  - apply Forall_app. split; assumption.
Qed.

Lemma steady_quiet {A : Type} (m : M World A) (st : RState World) (a : A)
  (st' : RState World) :
  m st = Ok (a, st') -> specs st' = specs st -> pop st' = pop st ->
  calls st' = calls st ->
  steady_at m st.
Proof.
  intros Hm Hs Hp Hc. exists a, st'. split; [exact Hm|]. split; [exact Hs|].
  split; [exact Hp|]. exists []. rewrite app_nil_r. split; [exact Hc|constructor].
Qed.

Lemma steady_ret {A : Type} (a : A) st : steady_at (@ret World A a) st.
Proof. eapply steady_quiet; reflexivity. Qed.

Lemma steady_get_org (p : nat) st : steady_at (@get_org World p) st.
Proof. eapply steady_quiet; reflexivity. Qed.

Lemma steady_get_spec (p : nat) st : steady_at (@get_spec World p) st.
Proof. eapply steady_quiet; reflexivity. Qed.

Lemma steady_put_org (p : nat) (o : Organism) st :
  steady_at (@put_org World p o) st.
Proof. eapply steady_quiet; reflexivity. Qed.

Lemma steady_draw {A : Type} (f : World -> A * World) st :
  steady_at (draw f) st.
Proof. eapply steady_quiet; reflexivity. Qed.

Lemma steady_NewOrganism (fit : Q) (g : nat) (generation : Z) st :
  steady_at (@NewOrganism World fit g generation) st.
Proof. eapply steady_quiet; reflexivity. Qed.

Lemma steady_call {A : Type} (c : Call) (f : World -> A * World) st :
  is_crossover c = false -> steady_at (call c f) st.
Proof.
  intros Hc. eexists _, _. split; [reflexivity|]. split; [reflexivity|].
  split; [reflexivity|]. exists [c]. split; [reflexivity|]. now constructor.
Qed.

Ltac steady :=
  repeat first
    [ apply steady_ret | apply steady_get_org | apply steady_get_spec
    | apply steady_put_org | apply steady_draw | apply steady_NewOrganism
    | apply steady_call; reflexivity
    | apply steady_bind; [|intros ? ? _]
    | match goal with
      | |- steady_at (if ?b then _ else _) _ => destruct b
      end ].

Lemma steady_mutate_cascade (generation : Z) (conf : Neat) (g : nat) st :
  steady_at (mutate_cascade generation conf g) st.
Proof. unfold mutate_cascade, call_. steady. Qed.

Lemma steady_superchamp_branch (generation : Z) (conf : Neat) (thechamp : nat)
  (count : Z) st :
  steady_at (superchamp_branch generation conf thechamp count) st.
Proof. unfold superchamp_branch, call_. steady. Qed.

Lemma steady_champ_clone_branch (generation : Z) (thechamp : nat) (count : Z) st :
  steady_at (champ_clone_branch generation thechamp count) st.
Proof. unfold champ_clone_branch. steady. Qed.

Variables (generation : Z) (s : nat) (sorted_species : list nat) (conf : Neat)
          (o : nat).
Hypothesis Int31n_one : forall w, fst (rand_Int31n 1 w) = 0.

Lemma steady_mutate_branch_single (count : Z) st :
  Organisms (specs st s) = [o] ->
  steady_at (mutate_branch generation s conf 1 count) st.
Proof.
  intros Ho. unfold mutate_branch.
  apply steady_bind; [unfold Int31n; cbn [Z.leb Z.compare]; steady|].
  intros orgnum st1 H1.
  assert (orgnum = 0 /\ specs st1 = specs st) as [-> Hs1].
  { unfold Int31n, draw in H1. cbn [Z.leb Z.compare] in H1.
    injection H1 as <- <-. split; [apply Int31n_one|reflexivity]. }
  apply steady_bind; [steady|]. intros sp st2 H2.
  unfold get_spec in H2. injection H2 as <- <-. rewrite Hs1, Ho.
  cbn [index Z.ltb Z.compare Z.to_nat nth_error].
  apply steady_bind; [eapply steady_quiet; reflexivity|]. intros mom st3 _.
  apply steady_bind; [steady|]. intros momo st4 _.
  apply steady_bind; [steady|]. intros g st5 _.
  apply steady_bind; [apply steady_mutate_cascade|]. intros b st6 _.
  steady.
Qed.

Lemma steady_reproduce_one_single (thechamp : nat) (count : Z)
  (loc : nat * bool) st :
  Organisms (specs st s) = [o] ->
  steady_at (reproduce_one generation s sorted_species conf 1 thechamp count loc)
    st.
Proof.
  intros Ho. unfold reproduce_one.
  apply steady_bind; [steady|]. intros champ st1 H1.
  injection H1 as _ <-.
  apply steady_bind; [steady|]. intros sp st2 H2.
  injection H2 as _ <-.
  destruct (0 <? _).
  { apply steady_bind; [apply steady_superchamp_branch|]. intros; steady. }
  destruct (negb _ && _).
  { apply steady_bind; [apply steady_champ_clone_branch|]. intros; steady. }
  apply steady_bind; [steady|]. intros r st3 H3.
  injection H3 as _ <-. cbn [Z.eqb Pos.eqb]. rewrite orb_true_r.
  apply steady_bind; [|intros; steady].
  apply steady_mutate_branch_single. exact Ho.
Qed.

Lemma steady_reproduce_loop_single (thechamp : nat) (fuel : nat) :
  forall count loc st,
    Organisms (specs st s) = [o] ->
    steady_at (reproduce_loop generation s sorted_species conf fuel 1 thechamp
                 count loc) st.
Proof.
  induction fuel as [|fuel IH]; intros count loc st Ho; cbn [reproduce_loop].
  - apply steady_ret.
  - apply steady_bind; [now apply steady_reproduce_one_single|].
    intros loc' st1 H1. apply IH.
    destruct (steady_reproduce_one_single thechamp count loc st Ho)
      as (a & st' & Hm & Hs & _).
    rewrite H1 in Hm. injection Hm as _ <-. rewrite Hs. exact Ho.
Qed.

End Steady.

(** ** The mating branch *)

Section Mating.
Context {World : Type} {C : Collaborators World}.
Variable P : Call -> Prop.

Lemma gentle_quiet {A : Type} (m : M World A) :
  (forall st a st', m st = Ok (a, st') ->
     orgs st' = orgs st /\ next_org st' = next_org st /\
     babies st' = babies st /\ calls st' = calls st) ->
  gentle P m.
Proof.
  intros H st a st' Hm. destruct (H st a st' Hm) as (Ho & Hn & Hb & Hc).
  repeat (split; [assumption|]). exists []. rewrite app_nil_r.
  split; [exact Hc|constructor].
Qed.

Lemma gentle_ret {A : Type} (a : A) : gentle P (@ret World A a).
Proof.
  apply gentle_quiet. intros st x st' H. injection H as _ <-. auto.
Qed.

Lemma gentle_lift {A : Type} (o : outcome A) : gentle P (@lift World A o).
Proof.
  apply gentle_quiet. intros st x st' H. unfold lift in H.
  destruct o; [|discriminate]. injection H as _ <-. auto.
Qed.

Lemma gentle_get_org (p : nat) : gentle P (@get_org World p).
Proof.
  apply gentle_quiet. intros st x st' H. injection H as _ <-. auto.
Qed.

Lemma gentle_get_spec (p : nat) : gentle P (@get_spec World p).
Proof.
  apply gentle_quiet. intros st x st' H. injection H as _ <-. auto.
Qed.

Lemma gentle_ask {A : Type} (f : World -> A) : gentle P (ask f).
Proof.
  apply gentle_quiet. intros st x st' H. injection H as _ <-. auto.
Qed.

Lemma gentle_draw {A : Type} (f : World -> A * World) : gentle P (draw f).
Proof.
  apply gentle_quiet. intros st x st' H. injection H as _ <-. auto.
Qed.

Lemma gentle_Int31n (n : Z) : gentle P (@Int31n World C n).
Proof.
  unfold Int31n. destruct (n <=? 0); [apply gentle_lift|apply gentle_draw].
Qed.

Lemma gentle_call {A : Type} (c : Call) (f : World -> A * World) :
  P c -> gentle P (call c f).
Proof.
  intros Hc st x st' H. injection H as _ <-. cbn.
  repeat (split; [reflexivity|]). exists [c]. split; [reflexivity|].
  now constructor.
Qed.

Lemma gentle_bind {A B : Type} (m : M World A) (k : A -> M World B) :
  gentle P m -> (forall a, gentle P (k a)) -> gentle P (mbind m k).
Proof.
  intros Hm Hk st b st' H. unfold mbind in H.
  destruct (m st) as [[a st1]|] eqn:E; [|discriminate].
  destruct (Hm _ _ _ E) as (Ho & Hn & Hb & cs & Hc & Hf).
  destruct (Hk a _ _ _ H) as (Ho' & Hn' & Hb' & cs' & Hc' & Hf').
  split; [congruence|]. split; [congruence|]. split; [congruence|].
  exists (cs ++ cs'). split.
  - rewrite Hc', Hc, app_assoc. reflexivity.
  - apply Forall_app. split; assumption.
Qed.
End Mating.

Ltac gentle :=
  repeat first
    [ apply gentle_ret | apply gentle_lift | apply gentle_get_org
    | apply gentle_get_spec | apply gentle_ask | apply gentle_draw
    | apply gentle_Int31n
    | apply gentle_call; reflexivity
    | apply gentle_bind; [|intros ?]
    | match goal with |- gentle _ (if ?b then _ else _) => destruct b end ].

Section MatingBranch.
Context {World : Type} {C : Collaborators World}.

(** With no call allowed, the list of calls is as it was. *)
Lemma gentle_silent {A : Type} (m : M World A) (st : RState World) (a : A)
  (st' : RState World) :
  gentle (fun _ => False) m -> m st = Ok (a, st') ->
  orgs st' = orgs st /\ next_org st' = next_org st /\
  babies st' = babies st /\ calls st' = calls st.
Proof.
  intros Hg Hm. destruct (Hg _ _ _ Hm) as (Ho & Hn & Hb & cs & Hc & Hf).
  repeat (split; [assumption|]).
  destruct cs as [|c cs]; [now rewrite app_nil_r in Hc|].
  inversion Hf as [|? ? []].
Qed.

Lemma gentle_pick_randspecies (s : nat) (sorted_species : list nat) (fuel : nat) :
  forall rs, gentle (fun _ => False)
               (@pick_randspecies World C s sorted_species fuel rs).
Proof.
  induction fuel as [|fuel IH]; intros rs; cbn [pick_randspecies].
  - apply gentle_ret.
  - destruct (Nat.eqb rs s); [|apply gentle_ret].
    apply gentle_bind; [apply gentle_draw|intros g].
    apply gentle_bind; [apply gentle_lift|intros rs']. apply IH.
Qed.

Lemma gentle_choose_dad (s : nat) (sorted_species : list nat) (conf : Neat)
  (poolsize : Z) :
  gentle (fun _ => False) (choose_dad s sorted_species conf poolsize).
Proof.
  unfold choose_dad. apply gentle_bind; [apply gentle_draw|intros r].
  destruct (Qltb _ _).
  - gentle.
  - apply gentle_bind; [apply gentle_pick_randspecies|intros rs]. gentle.
Qed.

Lemma gentle_mutate_cascade (generation : Z) (conf : Neat) (g : nat) :
  gentle (fun c => is_crossover c = false) (mutate_cascade generation conf g).
Proof. unfold mutate_cascade, call_. gentle. Qed.

Lemma gentle_crossover (conf : Neat) (mom dad : nat) (count : Z) (g : nat) :
  gentle (fun c => is_crossover c = true) (crossover conf mom dad count g).
Proof. unfold crossover. gentle. Qed.


(** Placing a baby changes no genome and no origin flag, and calls no
    genome operator. *)
Lemma assign_species_genomes (conf : Neat) (baby : nat) (st : RState World) :
  exists st',
    assign_species conf baby st = Ok (tt, st') /\
    calls st' = calls st /\ babies st' = babies st /\
    forall p, GNome (orgs st' p) = GNome (orgs st p) /\
              mateBaby (orgs st' p) = mateBaby (orgs st p).
Proof.
  assert (Hupd : forall sp p,
             GNome (upd (orgs st) baby (set_SpeciesOf (orgs st baby) sp) p)
             = GNome (orgs st p) /\
             mateBaby (upd (orgs st) baby (set_SpeciesOf (orgs st baby) sp) p)
             = mateBaby (orgs st p)).
  { intros sp p. unfold upd. destruct (Nat.eqb p baby) eqn:E.
    - apply Nat.eqb_eq in E. subst p. split; reflexivity.
    - split; reflexivity. }
  assert (Hfirst : exists st',
             createFirstSpecies baby st = Ok (tt, st') /\
             calls st' = calls st /\ babies st' = babies st /\
             forall p, GNome (orgs st' p) = GNome (orgs st p) /\
                       mateBaby (orgs st' p) = mateBaby (orgs st p)).
  { eexists. split; [reflexivity|]. cbn [calls babies orgs].
    split; [reflexivity|]. split; [reflexivity|]. apply Hupd. }
  unfold assign_species, mbind, get_pop. cbn [fst snd].
  destruct (species (pop st)) as [|x xs] eqn:Es; [exact Hfirst|].
  rewrite find_species_run.
  destruct (find _ _) as [sp|]; [|exact Hfirst].
  eexists. split; [reflexivity|]. cbn [calls babies orgs].
  split; [reflexivity|]. split; [reflexivity|]. apply Hupd.
Qed.

(** C4. In the mating branch, once the two parents are chosen ([mom] at
    a random index of the species, [dad] by [choose_dad]), the branch
    returns having called exactly one crossover operator, before any
    other genome call: multipoint when the first draw is below
    [mateMultipointProb]; else multipoint-average when a second draw is
    below
    [mateMultipointAvgProb / (mateMultipointAvgProb + mateSinglepointProb)];
    else singlepoint.  The two multipoint operators are given the second
    parent's genome, the offspring index and both parents'
    [originalFitness]; singlepoint is called on the first parent's genome
    with the second parent's genome and the offspring index only, and
    its result is the child genome.  The one organism the branch creates
    carries the child genome and is marked as born of mating. *)
Theorem mate_branch_one_crossover
  (generation : Z) (s : nat) (sorted_species : list nat) (conf : Neat)
  (poolsize count : Z) (new_genome : nat) (st st1 st2 : RState World)
  (orgnum : Z) (mom dad : nat) :
  Int31n poolsize st = Ok (orgnum, st1) ->
  index (Organisms (specs st1 s)) orgnum = Ok mom ->
  choose_dad s sorted_species conf poolsize st1 = Ok (dad, st2) ->
  let momo := orgs st mom in
  let dado := orgs st dad in
  let d1 := rand_Float64 (world st2) in
  let d2 := rand_Float64 (snd d1) in
  exists child st' c cs baby,
    mate_branch generation s sorted_species conf poolsize count new_genome st
    = Ok (child, st') /\
    calls st' = calls st ++ c :: cs /\
    is_crossover c = true /\
    Forall (fun x => is_crossover x = false) cs /\
    (if Qltb (fst d1) (MateMultipointProb conf)
     then exists recv,
         c = CMateMultipoint recv (GNome dado) count
               (OriginalFitness momo) (OriginalFitness dado)
     else if Qltb (fst d2)
               (MateMultipointAvgProb conf
                / (MateMultipointAvgProb conf + MateSinglepointProb conf))%Q
     then exists recv,
         c = CMateMultipointAvg recv (GNome dado) count
               (OriginalFitness momo) (OriginalFitness dado)
     else c = CMateSinglepoint (GNome momo) (GNome dado) count /\
          child = fst (mateSinglepoint (GNome momo) (GNome dado) count (snd d2))) /\
    babies st' = babies st ++ [baby] /\
    GNome (orgs st' baby) = child /\
    mateBaby (orgs st' baby) = true.
Proof.
  intros H1 H2 H3 momo dado d1 d2.
  destruct (gentle_silent _ _ _ _ (gentle_Int31n _ poolsize) H1)
    as (Ho1 & Hn1 & Hb1 & Hc1).
  destruct (gentle_silent _ _ _ _
              (gentle_choose_dad s sorted_species conf poolsize) H3)
    as (Ho2 & Hn2 & Hb2 & Hc2).
  destruct (crossover_choice conf mom dad count new_genome st2)
    as (child & st3 & c & Hx & Hcx & Hcase).
  destruct (gentle_crossover conf mom dad count new_genome _ _ _ Hx)
    as (Ho3 & Hn3 & Hb3 & _).
  set (st4 := mkRState (orgs st3) (next_org st3) (specs st3) (next_spec st3)
                (pop st3) (snd (rand_Float64 (world st3))) (calls st3)
                (babies st3)).
  set (r := fst (rand_Float64 (world st3))).
  set (cond := Qltb (MateOnlyProb conf) r
               || (GenomeId (GNome (orgs st4 dad)) (world st4)
                   =? GenomeId (GNome (orgs st4 mom)) (world st4))
               || Qeq_bool (compatibility (GNome (orgs st4 dad))
                              (GNome (orgs st4 mom)) (world st4)) 0%Q).
  assert (Hmut : exists b st5 cs,
             (if cond then mutate_cascade generation conf child
              else ret false) st4 = Ok (b, st5) /\
             orgs st5 = orgs st4 /\ next_org st5 = next_org st4 /\
             babies st5 = babies st4 /\
             calls st5 = calls st4 ++ cs /\
             Forall (fun x => is_crossover x = false) cs).
  { destruct cond.
    - destruct (steady_mutate_cascade generation conf child st4)
        as (b & st5 & Hm & _ & _ & _).
      destruct (gentle_mutate_cascade generation conf child _ _ _ Hm)
        as (Ho & Hn & Hb & cs & Hc & Hf).
      exists b, st5, cs. auto 10.
    - exists false, st4, []. rewrite app_nil_r.
      repeat (split; [reflexivity|]). constructor. }
  destruct Hmut as (b & st5 & cs & Hm & Ho5 & Hn5 & Hb5 & Hc5 & Hf5).
  set (baby := next_org st5).
  set (st7 := mkRState
                (upd (upd (orgs st5) baby (NewOrganism_value 0 child generation))
                   baby (set_origin (NewOrganism_value 0 child generation) b true))
                (S baby) (specs st5) (next_spec st5) (pop st5) (world st5)
                (calls st5) (babies st5 ++ [baby])).
  destruct (assign_species_genomes conf baby st7)
    as (st8 & Ha & Hc8 & Hb8 & Hg8).
  exists child, st8, c, cs, baby.
  split.
  { unfold mate_branch. unfold mbind at 1. rewrite H1.
    unfold mbind at 1. unfold get_spec at 1.
    unfold mbind at 1. unfold lift at 1. rewrite H2.
    unfold mbind at 1. rewrite H3.
    unfold mbind at 1. rewrite Hx.
    unfold mbind at 1. unfold draw at 1. cbn [fst snd]. fold st4. fold r.
    unfold mbind at 1. unfold get_org at 1.
    unfold mbind at 1. unfold get_org at 1.
    unfold mbind at 1. unfold ask at 1.
    unfold mbind at 1. unfold ask at 1.
    unfold mbind at 1. unfold ask at 1.
    unfold mbind at 1. fold cond. rewrite Hm.
    unfold mbind at 1. unfold NewOrganism at 1. fold baby.
    unfold mbind at 1. unfold get_org at 1. cbn [orgs].
    rewrite upd_same.
    unfold mbind at 1. unfold put_org at 1.
    cbn [orgs next_org specs next_spec pop world calls babies].
    fold st7.
    unfold mbind at 1. rewrite Ha. reflexivity. }
  split.
  { rewrite Hc8. unfold st7. cbn [calls]. rewrite Hc5. unfold st4. cbn [calls].
    rewrite Hcx, Hc2, Hc1, <- app_assoc. reflexivity. }
  split.
  { destruct (Qltb (fst (rand_Float64 (world st2))) (MateMultipointProb conf)).
    - destruct Hcase as [recv ->]. reflexivity.
    - destruct (Qltb _ _).
      + destruct Hcase as [recv ->]. reflexivity.
      + destruct Hcase as [-> _]. reflexivity. }
  split; [exact Hf5|].
  split.
  { unfold momo, dado, d1, d2. rewrite <- Ho1, <- Ho2. exact Hcase. }
  split.
  { rewrite Hb8. unfold st7. cbn [babies]. rewrite Hb5. unfold st4. cbn [babies].
    rewrite Hb3, Hb2, Hb1. reflexivity. }
  destruct (Hg8 baby) as [-> ->]. unfold st7. cbn [orgs].
  rewrite !upd_same. split; reflexivity.
Qed.
End MatingBranch.

Lemma mate_branch_one_crossover_witness :
  exists child st' cs,
    mate_branch 1 1%nat [1%nat] demo_conf 2 0 nil_ptr
      (script_state pair_heap [1; 2]%nat 1 [1%nat]
         [0%Q; 0.9%Q; 1%Q; 0.9%Q; 0.9%Q; 0.1%Q])
    = Ok (child, st') /\
    calls st' = CMateSinglepoint 11 12 0 :: cs /\
    Forall (fun x => is_crossover x = false) cs /\
    child = 20%nat.
Proof.
  edestruct (@mate_branch_one_crossover Script ScriptCollab 1 1%nat [1%nat]
               demo_conf 2 0 nil_ptr
               (script_state pair_heap [1; 2]%nat 1 [1%nat]
                  [0%Q; 0.9%Q; 1%Q; 0.9%Q; 0.9%Q; 0.1%Q]))
    as (child & st' & c & cs & baby & Hrun & Hcalls & _ & Hcs & Hcase & _).
  - vm_compute. reflexivity.
  - vm_compute. reflexivity.
  - vm_compute. reflexivity.
  - vm_compute in Hcase. destruct Hcase as [-> ->].
    exists 20%nat, st', cs. split; [exact Hrun|].
    split; [exact Hcalls|]. split; [exact Hcs|reflexivity].
Defined.

(** C4, as stated, fails: in this run of [reproduce] the one offspring
    is made in the mating branch, both draws miss their thresholds, the
    only operator called is singlepoint, and its call carries no fitness
    value. *)
Lemma reproduce_singlepoint_without_fitness :
  match reproduce 1 1%nat [1%nat] demo_conf
          (script_state pair_heap [1; 2]%nat 1 [1%nat]
             [0.9%Q; 0%Q; 0.9%Q; 1%Q; 0.9%Q; 0.9%Q; 0.1%Q]) with
  | Ok (r, st') =>
      r = (true, None) /\
      calls st' = [CMateSinglepoint 11 12 0] /\
      (forall c, In c (calls st') -> call_fitness c = None) /\
      babies st' = [10%nat] /\
      mateBaby (orgs st' 10%nat) = true /\
      GNome (orgs st' 10%nat) = 20%nat
  | Panic => False
  end.
Proof.
  vm_compute. split; [reflexivity|]. split; [reflexivity|].
  split; [intros c [<-|[]]; reflexivity|]. repeat split.
Qed.

(** ** A species of one organism: its offspring are clones *)

Section Wp.
Context {World : Type} {C : Collaborators World}.

Lemma wp_bind {A B : Type} (m : M World A) (k : A -> M World B) st Q :
  wp m st (fun a st1 => wp (k a) st1 Q) -> wp (mbind m k) st Q.
Proof.
  intros (a & st1 & Hm & b & st2 & Hk & HQ).
  exists b, st2. unfold mbind. rewrite Hm. auto.
Qed.

Lemma wp_ret {A : Type} (a : A) st (Q : A -> RState World -> Prop) :
  Q a st -> wp (ret a) st Q.
Proof. intros H. exists a, st. auto. Qed.

Lemma wp_step {A : Type} (m : M World A) st (a : A) st' Q :
  m st = Ok (a, st') -> Q a st' -> wp m st Q.
Proof. intros Hm HQ. exists a, st'. auto. Qed.

Lemma wp_steady {A : Type} (m : M World A) st (P : Call -> Prop)
  (Q : A -> RState World -> Prop) :
  steady_at m st -> gentle P m ->
  (forall a st', orgs st' = orgs st -> next_org st' = next_org st ->
                 (exists cs, calls st' = calls st ++ cs /\ Forall P cs) ->
                 Q a st') ->
  wp m st Q.
Proof.
  intros (a & st' & Hm & _) Hg HQ.
  destruct (Hg _ _ _ Hm) as (Ho & Hn & _ & Hc).
  exists a, st'. split; [exact Hm|]. now apply HQ.
Qed.
End Wp.

(** Runs the steps that compute. *)
Ltac wp_go :=
  repeat match goal with
         | |- wp (mbind _ _) _ _ => apply wp_bind
         | |- wp (if ?b then _ else _) _ _ => destruct b
         | |- wp _ _ _ =>
             eapply wp_step; [reflexivity|];
             cbn [orgs next_org specs next_spec pop world calls babies fst snd]
         end.

Section Cloning.
Context {World : Type} {C : Collaborators World}.

Lemma cloned_refl (g0 : nat) (st : RState World) : cloned g0 0 st st.
Proof.
  split; [lia|]. split; [reflexivity|]. split; [intros b Hb; lia|].
  exists []. rewrite app_nil_r. split; [reflexivity|constructor].
Qed.

Lemma clone_call_mono (g0 : nat) (h h' : OrgHeap) (from from' : nat)
  (k k' : nat) (c : Call) :
  (from' <= from)%nat -> (from + k <= from' + k')%nat ->
  (forall b, (from <= b < from + k)%nat -> GNome (h' b) = GNome (h b)) ->
  clone_call g0 h from k c -> clone_call g0 h' from' k' c.
Proof.
  intros H1 H2 Hh. unfold clone_call.
  destruct c; try exact (fun H => H);
    intros (b & Hb & E); exists b; (split; [lia|]);
    rewrite (Hh b Hb); exact E.
Qed.

Lemma cloned_trans (g0 : nat) (k1 k2 : nat) (st st1 st2 : RState World) :
  cloned g0 k1 st st1 -> cloned g0 k2 st1 st2 -> cloned g0 (k1 + k2) st st2.
Proof.
  intros (Hn1 & Hp1 & Hb1 & cs1 & Hc1 & Hf1) (Hn2 & Hp2 & Hb2 & cs2 & Hc2 & Hf2).
  split; [lia|]. split.
  { intros p Hp. rewrite Hp2 by lia. now apply Hp1. }
  split.
  { intros b Hb. destruct (Nat.lt_ge_cases b (next_org st1)) as [Hlt|Hge].
    - rewrite Hp2 by exact Hlt. apply Hb1. lia.
    - apply Hb2. lia. }
  exists (cs1 ++ cs2). split.
  { rewrite Hc2, Hc1, app_assoc. reflexivity. }
  apply Forall_app. split.
  - eapply Forall_impl; [|exact Hf1]. intros c.
    apply clone_call_mono; [lia|lia|].
    intros b Hb. apply Hp2. lia.
  - eapply Forall_impl; [|exact Hf2]. intros c.
    apply clone_call_mono; [lia|lia|]. reflexivity.
Qed.
End Cloning.

Lemma GNome_upd (h : OrgHeap) (p q : nat) (v : Organism) :
  GNome (upd h p v q) = if Nat.eqb q p then GNome v else GNome (h q).
Proof. unfold upd. destruct (Nat.eqb q p); reflexivity. Qed.

Lemma GNome_set_PopChampChild (x : Organism) (f : Q) :
  GNome (set_PopChampChild x f) = GNome x.
Proof. reflexivity. Qed.

Lemma GNome_set_SuperChampOffspring (x : Organism) (n : Z) :
  GNome (set_SuperChampOffspring x n) = GNome x.
Proof. reflexivity. Qed.

Lemma GNome_NewOrganism_value (f : Q) (g : nat) (n : Z) :
  GNome (NewOrganism_value f g n) = g.
Proof. reflexivity. Qed.

(** Normal form of a genome read through updates of the store. *)
Ltac genome_norm :=
  repeat first
    [ rewrite GNome_upd | rewrite GNome_set_PopChampChild
    | rewrite GNome_set_SuperChampOffspring | rewrite GNome_NewOrganism_value
    | rewrite Nat.eqb_refl
    | match goal with
      | H : Nat.eqb ?a ?b = _ |- context [Nat.eqb ?a ?b] => rewrite H
      end ].

(** The end of a branch that clones the genome of [o] once, the new
    organism being at [next_org st]. *)
Ltac cloned_leaf st o Ho :=
  unfold cloned;
  cbn [orgs next_org specs next_spec pop world calls babies fst snd];
  let Hon := fresh "Hon" in
  let Hno := fresh "Hno" in
  assert (Hon : Nat.eqb o (next_org st) = false) by (apply Nat.eqb_neq; lia);
  assert (Hno : Nat.eqb (next_org st) o = false) by (apply Nat.eqb_neq; lia);
  split; [lia|]; split; [|split];
  [ let p := fresh "p" in
    let Hp := fresh "Hp" in
    let Hpn := fresh "Hpn" in
    let E := fresh "E" in
    intros p Hp;
    assert (Hpn : Nat.eqb p (next_org st) = false) by (apply Nat.eqb_neq; lia);
    destruct (Nat.eqb p o) eqn:E;
    [apply Nat.eqb_eq in E; subst p|]; genome_norm; reflexivity
  | let b := fresh "b" in
    let Hb := fresh "Hb" in
    intros b Hb; replace b with (next_org st) by lia;
    genome_norm; eexists _, _; reflexivity
  | rewrite <- ?app_assoc; eexists; split; [reflexivity|];
    repeat (apply Forall_cons;
            [first [ reflexivity
                   | exists (next_org st); split; [lia|];
                     cbn [call_receiver]; genome_norm; reflexivity ]|]);
    apply Forall_nil ].

Section CloningRun.
Context {World : Type} {C : Collaborators World}.
Variables (generation : Z) (s : nat) (sorted_species : list nat) (conf : Neat)
          (o : nat).
Hypothesis Int31n_one : forall w, fst (rand_Int31n 1 w) = 0.

Lemma cloned_superchamp_branch (count : Z) (st : RState World) :
  (o < next_org st)%nat ->
  wp (superchamp_branch generation conf o count) st
     (fun _ st' => cloned (GNome (orgs st o)) 1 st st').
Proof.
  intros Ho. unfold superchamp_branch, call_. wp_go.
  all: cloned_leaf st o Ho.
Qed.

Lemma cloned_champ_clone_branch (count : Z) (st : RState World) :
  (o < next_org st)%nat ->
  wp (champ_clone_branch generation o count) st
     (fun _ st' => cloned (GNome (orgs st o)) 1 st st').
Proof.
  intros Ho. unfold champ_clone_branch. wp_go.
  all: cloned_leaf st o Ho.
Qed.


Lemma gentle_mutate_cascade_on (g : nat) :
  gentle (mutation_on g) (mutate_cascade generation conf g).
Proof.
  unfold mutate_cascade, call_.
  repeat first
    [ apply gentle_ret | apply gentle_draw
    | apply gentle_call; reflexivity
    | apply gentle_bind; [|intros ?]
    | match goal with |- gentle _ (if ?b then _ else _) => destruct b end ].
Qed.

Lemma cloned_mutate_branch (count : Z) (st : RState World) :
  Organisms (specs st s) = [o] ->
  (o < next_org st)%nat ->
  wp (mutate_branch generation s conf 1 count) st
     (fun _ st' => cloned (GNome (orgs st o)) 1 st st').
Proof.
  intros Hs Ho. unfold mutate_branch.
  apply wp_bind. unfold Int31n. cbn [Z.leb Z.compare].
  eapply wp_step; [reflexivity|]. cbn [fst snd]. rewrite Int31n_one.
  apply wp_bind. eapply wp_step; [reflexivity|]. cbn [specs]. rewrite Hs.
  apply wp_bind. eapply wp_step; [reflexivity|].
  apply wp_bind. eapply wp_step; [reflexivity|].
  apply wp_bind. eapply wp_step; [reflexivity|].
  cbn [orgs next_org specs next_spec pop world calls babies fst snd].
  set (g := fst (duplicate (GNome (orgs st o)) count _)).
  apply wp_bind.
  eapply wp_steady;
    [apply steady_mutate_cascade|apply gentle_mutate_cascade_on|].
  cbn [orgs next_org specs next_spec pop world calls babies fst snd].
  intros b st5 Hor Hn (cs & Hc & Hf).
  wp_go. unfold cloned.
  cbn [orgs next_org specs next_spec pop world calls babies fst snd].
  rewrite Hor, Hn, Hc.
  split; [lia|]. split; [|split].
  - intros p Hp. rewrite GNome_upd.
    replace (Nat.eqb p (next_org st)) with false
      by (symmetry; apply Nat.eqb_neq; lia).
    reflexivity.
  - intros b' Hb. replace b' with (next_org st) by lia.
    rewrite GNome_upd, Nat.eqb_refl. eexists _, _. reflexivity.
  - rewrite <- app_assoc. eexists. split; [reflexivity|].
    apply Forall_cons; [reflexivity|].
    eapply Forall_impl; [|exact Hf].
    intros c Hm. unfold clone_call.
    destruct c; cbn in Hm; try contradiction;
      (exists (next_org st); split; [lia|];
       rewrite GNome_upd, Nat.eqb_refl; exact Hm).
Qed.

Lemma cloned_reproduce_one (count : Z) (loc : nat * bool) (st : RState World) :
  Organisms (specs st s) = [o] ->
  (o < next_org st)%nat ->
  wp (reproduce_one generation s sorted_species conf 1 o count loc) st
     (fun _ st' => cloned (GNome (orgs st o)) 1 st st').
Proof.
  intros Hs Ho. unfold reproduce_one.
  apply wp_bind. eapply wp_step; [reflexivity|].
  apply wp_bind. eapply wp_step; [reflexivity|].
  destruct (0 <? _).
  { apply wp_bind.
    destruct (cloned_superchamp_branch count st Ho) as (g & st' & Hm & Hq).
    exists g, st'. split; [exact Hm|]. now apply wp_ret. }
  destruct (negb _ && _).
  { apply wp_bind.
    destruct (cloned_champ_clone_branch count st Ho) as (g & st' & Hm & Hq).
    exists g, st'. split; [exact Hm|]. now apply wp_ret. }
  apply wp_bind. eapply wp_step; [reflexivity|].
  cbn [Z.eqb Pos.eqb]. rewrite orb_true_r.
  apply wp_bind.
  match goal with
  | |- wp _ ?st1 _ =>
      destruct (cloned_mutate_branch count st1 Hs Ho) as (g & st' & Hm & Hq)
  end.
  exists g, st'. split; [exact Hm|]. apply wp_ret.
  exact Hq.
Qed.

Lemma cloned_reproduce_loop (fuel : nat) :
  forall count loc (st : RState World),
    Organisms (specs st s) = [o] ->
    (o < next_org st)%nat ->
    wp (reproduce_loop generation s sorted_species conf fuel 1 o count loc) st
       (fun _ st' => cloned (GNome (orgs st o)) fuel st st').
Proof.
  induction fuel as [|fuel IH]; intros count loc st Hs Ho; cbn [reproduce_loop].
  - apply wp_ret, cloned_refl.
  - apply wp_bind.
    destruct (cloned_reproduce_one count loc st Hs Ho) as (loc' & st1 & Hm & Hq).
    exists loc', st1. split; [exact Hm|].
    destruct (steady_reproduce_one_single generation s sorted_species conf o
                Int31n_one o count loc st Hs)
      as (a & st1' & Hm' & Hs1 & _).
    rewrite Hm in Hm'. injection Hm' as _ <-.
    assert (Ho1 : (o < next_org st1)%nat) by (destruct Hq as (-> & _); lia).
    assert (Hg : GNome (orgs st1 o) = GNome (orgs st o))
      by (destruct Hq as (_ & Hp & _); now apply Hp).
    assert (Hs1' : Organisms (specs st1 s) = [o]) by (rewrite Hs1; exact Hs).
    destruct (IH (add64 count 1) loc' st1 Hs1' Ho1) as (u & st2 & Hm2 & Hq2).
    exists u, st2. split; [exact Hm2|].
    rewrite Hg in Hq2.
    change (S fuel) with (1 + fuel)%nat.
    eapply cloned_trans; eassumption.
Qed.

(** X13. On a species of exactly one organism [reproduce] always
    returns [(true, nil)] and never mates: it calls no crossover
    operator, whatever the random draws, and creates its
    [ExpectedOffspring] organisms by cloning or mutating that organism;
    no species gains a member and no species is created.  When the
    organism is an allocated one, its genome is left in place, the
    genome of every organism created is a result of [duplicate] on that
    genome, every duplication made is of that genome, and every other
    call is made on the genome of one of the organisms created. *)
Theorem reproduce_single_organism (st : RState World) :
  Organisms (specs st s) = [o] ->
  exists st' cs,
    reproduce generation s sorted_species conf st = Ok ((true, None), st') /\
    babies st'
    = babies st ++ seq (next_org st) (Z.to_nat (ExpectedOffspring (specs st s))) /\
    specs st' = specs st /\
    pop st' = pop st /\
    calls st' = calls st ++ cs /\
    Forall (fun c => is_crossover c = false) cs /\
    ((o < next_org st)%nat ->
     GNome (orgs st' o) = GNome (orgs st o) /\
     (forall b,
        In b (seq (next_org st) (Z.to_nat (ExpectedOffspring (specs st s)))) ->
        exists n w,
          GNome (orgs st' b) = fst (duplicate (GNome (orgs st o)) n w)) /\
     Forall (clone_call (GNome (orgs st o)) (orgs st') (next_org st)
               (Z.to_nat (ExpectedOffspring (specs st s)))) cs).
Proof.
  intros Ho.
  destruct (steady_reproduce_loop_single generation s sorted_species conf o
              Int31n_one o
              (Z.to_nat (ExpectedOffspring (specs st s))) 0 (nil_ptr, false) st Ho)
    as (u & st' & Hm & Hs & Hp & cs & Hc & Hf).
  assert (Hrun : reproduce generation s sorted_species conf st
                 = Ok ((true, None), st')).
  { unfold reproduce. unfold mbind at 1. unfold get_spec at 1. rewrite Ho.
    cbn [len length Z.of_nat Z.eqb andb]. rewrite andb_false_r.
    unfold mbind at 1. cbn [lift index Z.ltb Z.compare Z.to_nat nth_error].
    unfold mbind. change (Z.pos (Pos.of_succ_nat 0)) with 1. rewrite Hm.
    reflexivity. }
  exists st', cs. split; [exact Hrun|].
  destruct (creates_reproduce_loop _ _ _ _ _ _ _ _ _ _ _ _ Hm) as [_ Hb].
  do 5 (split; [assumption|]).
  intros Hlt.
  destruct (cloned_reproduce_loop
              (Z.to_nat (ExpectedOffspring (specs st s))) 0 (nil_ptr, false)
              st Ho Hlt)
    as (u' & st'' & Hm' & _ & Hpres & Hbab & cs' & Hc' & Hf').
  rewrite Hm in Hm'. injection Hm' as _ <-.
  split; [now apply Hpres|]. split.
  - intros b Hb'. apply Hbab. apply in_seq in Hb'. exact Hb'.
  - rewrite Hc in Hc'. apply app_inv_head in Hc'. subst cs'. exact Hf'.
Qed.
End CloningRun.

Lemma reproduce_single_organism_witness :
  exists st' cs,
    reproduce 1 1%nat [1%nat] demo_conf
      (script_state pair_heap [1%nat] 3 [1%nat] [0.9%Q; 0.2%Q]) = Ok ((true, None), st') /\
    babies st' = [10; 11; 12]%nat /\
    calls st' = cs /\
    Forall (fun c => is_crossover c = false) cs /\
    GNome (orgs st' 1%nat) = 11%nat /\
    Forall (clone_call 11%nat (orgs st') 10%nat 3%nat) cs.
Proof.
  destruct (@reproduce_single_organism Script ScriptCollab
              1 1%nat [1%nat] demo_conf 1%nat
              (fun w : Script => Z.mod_1_r (Qfloor (fst (next_draw w))))
              (script_state pair_heap [1%nat] 3 [1%nat] [0.9%Q; 0.2%Q])
              eq_refl)
    as (st' & cs & Hrun & Hb & _ & _ & Hc & Hf & Hclone).
  destruct Hclone as (Hg & _ & Hcl); [vm_compute; lia|].
  exists st', cs. split; [exact Hrun|]. split; [exact Hb|].
  split; [exact Hc|]. split; [exact Hf|]. split; [exact Hg|exact Hcl].
Defined.

(** ** The mutation cascade and the superchampion's clones *)

(** X14. The mutation cascade applies exactly one kind of mutation,
    chosen by two draws in cascade: add-node when the first draw is
    below [MutateAddNodeProb]; else add-link, after a call of [genesis],
    when a second draw is below [MutateAddLinkProb]; else the
    non-structural mutations.  It reports a structural mutation in the
    first two cases only, and changes no organism and no species. *)
Theorem mutate_cascade_one_kind {World : Type} {C : Collaborators World}
  (generation : Z) (conf : Neat) (g : nat) (st : RState World) :
  let d1 := rand_Float64 (world st) in
  let d2 := rand_Float64 (snd d1) in
  exists b st',
    mutate_cascade generation conf g st = Ok (b, st') /\
    orgs st' = orgs st /\ specs st' = specs st /\ pop st' = pop st /\
    babies st' = babies st /\
    if Qltb (fst d1) (MutateAddNodeProb conf)
    then calls st' = calls st ++ [CMutateAddNode g] /\ b = true
    else if Qltb (fst d2) (MutateAddLinkProb conf)
    then calls st'
         = calls st ++ [CGenesis g generation;
                        CMutateAddLink g (NewLinkTries conf)] /\ b = true
    else calls st' = calls st ++ [CMutateAllNonstructural g] /\ b = false.
Proof.
  intros d1 d2.
  unfold mutate_cascade, call_, mbind, draw, call, ret.
  cbn [fst snd world orgs calls specs pop babies]. fold d1.
  destruct (Qltb (fst d1) (MutateAddNodeProb conf)).
  - eexists _, _. split; [reflexivity|].
    cbn [fst snd world orgs calls specs pop babies]. repeat split.
  - cbn [fst snd world orgs calls specs pop babies]. fold d2.
    destruct (Qltb (fst d2) (MutateAddLinkProb conf)).
    + eexists _, _. split; [reflexivity|].
      cbn [fst snd world orgs calls specs pop babies].
      rewrite <- app_assoc. repeat split.
    + eexists _, _. split; [reflexivity|].
      cbn [fst snd world orgs calls specs pop babies]. repeat split.
Qed.

(** X15. An iteration of the superchampion branch, on a champion stored
    apart from the new organism with a positive counter, makes one baby
    from a duplicate of the champion's genome and lowers the counter by
    one.  On the last one (counter 1) the genome is left as duplicated,
    and the baby is marked as the population champion's child, with the
    champion's original fitness as its highest fitness, exactly when the
    champion is the population champion.  Before the last one the
    duplicate gets one mutation (link weights, or [genesis] and
    add-link) and the baby is not marked. *)
Theorem superchamp_branch_effect {World : Type} {C : Collaborators World}
  (generation : Z) (conf : Neat) (thechamp : nat) (count : Z)
  (st : RState World) :
  thechamp <> next_org st ->
  0 < SuperChampOffspring (orgs st thechamp) <= maxInt64 ->
  let champ := orgs st thechamp in
  let baby := next_org st in
  exists g st' cs,
    superchamp_branch generation conf thechamp count st = Ok (g, st') /\
    g = fst (duplicate (GNome champ) count (world st)) /\
    babies st' = babies st ++ [baby] /\
    GNome (orgs st' baby) = g /\
    SuperChampOffspring (orgs st' thechamp) = SuperChampOffspring champ - 1 /\
    calls st' = calls st ++ CDuplicate (GNome champ) count :: cs /\
    if SuperChampOffspring champ =? 1
    then cs = [] /\
         IsPopulationChampionChild (orgs st' baby) = IsPopulationChampion champ /\
         (IsPopulationChampion champ = true ->
          highestFitness (orgs st' baby) = OriginalFitness champ)
    else (cs = [CMutateLinkWeights g (WeightMutPower conf) 1%Q] \/
          cs = [CGenesis g generation; CMutateAddLink g (NewLinkTries conf)]) /\
         IsPopulationChampionChild (orgs st' baby) = false.
Proof.
  intros Hne [Hpos Hmax] champ baby. subst champ baby.
  assert (Hb : Nat.eqb thechamp (next_org st) = false) by now apply Nat.eqb_neq.
  assert (Hbt : Nat.eqb (next_org st) thechamp = false)
    by (apply Nat.eqb_neq; intros H; apply Hne; now rewrite <- H).
  assert (Hdec : sub64 (SuperChampOffspring (orgs st thechamp)) 1
                 = SuperChampOffspring (orgs st thechamp) - 1).
  { unfold sub64. apply wrap64_small. unfold minInt64, maxInt64 in *. lia. }
  unfold superchamp_branch, call_, mbind, get_org, call, draw, NewOrganism,
    put_org, ret.
  cbn [fst snd world orgs calls specs pop babies next_org next_spec].
  destruct (1 <? SuperChampOffspring (orgs st thechamp)) eqn:E1.
  - apply Z.ltb_lt in E1.
    assert (E2 : (SuperChampOffspring (orgs st thechamp) =? 1) = false)
      by (apply Z.eqb_neq; lia).
    destruct (Qltb _ _ || Qeq_bool _ _);
      cbn [fst snd world orgs calls specs pop babies next_org next_spec];
      unfold upd; rewrite ?Hb, ?Hbt, ?Nat.eqb_refl, ?E2;
      cbn [fst snd world orgs calls specs pop babies next_org next_spec];
      rewrite ?Hb, ?Hbt, ?Nat.eqb_refl;
      eexists _, _, _; (split; [reflexivity|]);
      cbn [fst snd world orgs calls specs pop babies next_org next_spec];
      rewrite ?Hb, ?Hbt, ?Nat.eqb_refl, ?E2;
      cbn [GNome SuperChampOffspring set_SuperChampOffspring NewOrganism_value
           IsPopulationChampionChild];
      rewrite ?Hdec, <- ?app_assoc; cbn [app]; repeat split; auto.
  - apply Z.ltb_ge in E1.
    assert (E2 : (SuperChampOffspring (orgs st thechamp) =? 1) = true)
      by (apply Z.eqb_eq; lia).
    cbn [fst snd world orgs calls specs pop babies next_org next_spec].
    unfold upd. rewrite ?Hb, ?Hbt, ?Nat.eqb_refl, ?E2.
    destruct (IsPopulationChampion (orgs st thechamp)) eqn:Ep;
      cbn [fst snd world orgs calls specs pop babies next_org next_spec];
      rewrite ?Hb, ?Hbt, ?Nat.eqb_refl;
      eexists _, _, _; (split; [reflexivity|]);
      cbn [fst snd world orgs calls specs pop babies next_org next_spec];
      rewrite ?Hb, ?Hbt, ?Nat.eqb_refl, ?E2;
      cbn [GNome SuperChampOffspring set_SuperChampOffspring NewOrganism_value
           IsPopulationChampionChild set_PopChampChild highestFitness];
      rewrite ?Hdec; repeat split; auto; discriminate.
Qed.

(** *** Instances *)

Lemma computeAvgFitness_between_witness :
  (2 <= fst (computeAvgFitness (species_of [1; 2; 3; 4; 5]%nat) scenario_heap)
   <= 10)%Q.
Proof.
  apply (computeAvgFitness_between (species_of [1; 2; 3; 4; 5]%nat)
           scenario_heap 2%Q 10%Q).
  - discriminate.
  - simpl. intros p [<-|[<-|[<-|[<-|[<-|[]]]]]]; split; qcompute.
Defined.

Lemma adjustFitness_improvement_witness :
  exists s' h',
    adjustFitness (@sort_small nat) demo_conf
      (species_of [1; 2; 3; 4; 5]%nat) scenario_heap = Ok (s', h') /\
    (0 <= MaxFitnessEver s')%Q.
Proof.
  destruct (adjustFitness_improvement (@sort_small nat) demo_conf
              (species_of [1; 2; 3; 4; 5]%nat) scenario_heap)
    as (s' & h' & top & Hrun & _ & _ & _ & _ & Hmax & _).
  - exact sort_small_contract.
  - simpl. nodup_tac.
  - discriminate.
  - split; qcompute.
  - exists s', h'. split; [exact Hrun|exact Hmax].
Defined.

Lemma adjustFitness_frame_witness :
  exists s' h',
    adjustFitness (@sort_small nat) demo_conf
      (species_of [1; 2; 3]%nat) scenario_heap = Ok (s', h') /\
    h' 5%nat = scenario_heap 5%nat.
Proof.
  destruct (adjustFitness_frame (@sort_small nat) demo_conf
              (species_of [1; 2; 3]%nat) scenario_heap)
    as (s' & h' & Hrun & Hout & _).
  - exact sort_small_contract.
  - discriminate.
  - split; qcompute.
  - exists s', h'. split; [exact Hrun|]. apply Hout.
    simpl. intros [H|[H|[H|[]]]]; discriminate.
Defined.

Lemma adjustFitness_never_clears_flags_witness :
  exists s' h',
    adjustFitness (@sort_small nat) demo_conf
      (species_of [1; 2; 3]%nat)
      (heap_of_list [plain_org 1%Q 1; plain_org 2%Q 2;
                     set_IsChampion (plain_org 1%Q 3) true]) = Ok (s', h') /\
    IsChampion (h' 3%nat) = true.
Proof.
  destruct (adjustFitness_never_clears_flags (@sort_small nat) demo_conf
              (species_of [1; 2; 3]%nat)
              (heap_of_list [plain_org 1%Q 1; plain_org 2%Q 2;
                             set_IsChampion (plain_org 1%Q 3) true]))
    as (s' & h' & Hrun & Hc & _).
  - exact sort_small_contract.
  - discriminate.
  - split; qcompute.
  - exists s', h'. split; [exact Hrun|]. apply Hc. reflexivity.
Defined.

Lemma computeMaxFitness_after_adjustFitness_witness :
  exists s' h' top,
    adjustFitness (@sort_small nat) demo_conf
      (species_of [1; 2; 3; 4; 5]%nat) scenario_heap = Ok (s', h') /\
    (fst (computeMaxFitness s' h') == Fitness (h' top))%Q.
Proof.
  destruct (computeMaxFitness_after_adjustFitness (@sort_small nat) demo_conf
              (species_of [1; 2; 3; 4; 5]%nat) scenario_heap)
    as (s' & h' & top & Hrun & _ & Hmax).
  - exact sort_small_contract.
  - discriminate.
  - split; qcompute.
  - exists s', h', top. split; [exact Hrun|exact Hmax].
Defined.

Lemma findChampion_after_adjustFitness_witness :
  exists s' h' top,
    adjustFitness (@sort_small nat) demo_conf
      (species_of [1; 2; 3; 4; 5]%nat) scenario_heap = Ok (s', h') /\
    findChampion s' h' = if Qltb 0 (Fitness (h' top)) then Some top else None.
Proof.
  destruct (findChampion_after_adjustFitness (@sort_small nat) demo_conf
              (species_of [1; 2; 3; 4; 5]%nat) scenario_heap)
    as (s' & h' & top & Hrun & _ & Hc).
  - exact sort_small_contract.
  - discriminate.
  - split; qcompute.
  - exists s', h', top. split; [exact Hrun|exact Hc].
Defined.

Lemma adjustFitness_keeps_a_parent_witness :
  1 <= survivors demo_conf (Organisms (species_of [1; 2; 3; 4; 5]%nat)).
Proof.
  apply (adjustFitness_keeps_a_parent (@sort_small nat) demo_conf
           (species_of [1; 2; 3; 4; 5]%nat) scenario_heap).
  - exact sort_small_contract.
  - simpl. nodup_tac.
  - discriminate.
  - qcompute.
  - qcompute.
  - simpl. intros p [<-|[<-|[<-|[<-|[<-|[]]]]]]; reflexivity.
Defined.

Lemma reproduce_creates_expected_witness :
  exists r st',
    reproduce 1 1%nat [1%nat] demo_conf
      (script_state pair_heap [1; 2]%nat 6 [1%nat] []) = Ok (r, st') /\
    babies st' = [10; 11; 12; 13; 14; 15]%nat.
Proof.
  destruct (reproduce 1 1%nat [1%nat] demo_conf
              (script_state pair_heap [1; 2]%nat 6 [1%nat] []))
    as [[r st']|] eqn:E.
  - exists r, st'. split; [reflexivity|].
    destruct (reproduce_creates_expected _ _ _ _ _ _ _ E)
      as [(_ & He & _)|(_ & _ & Hb)]; [discriminate He|exact Hb].
  - exfalso. vm_compute in E. discriminate E.
Defined.

Lemma superchamp_branch_effect_witness :
  exists g st',
    superchamp_branch 1 demo_conf 1%nat 0
      (script_state
         (heap_of_list [set_SuperChampOffspring (plain_org 3%Q 11) 1])
         [1%nat] 1 [1%nat] []) = Ok (g, st') /\
    SuperChampOffspring (orgs st' 1%nat) = 0.
Proof.
  destruct (superchamp_branch_effect 1 demo_conf 1%nat 0
              (script_state
                 (heap_of_list [set_SuperChampOffspring (plain_org 3%Q 11) 1])
                 [1%nat] 1 [1%nat] []))
    as (g & st' & cs & Hrun & _ & _ & _ & Hc & _).
  - discriminate.
  - split; qcompute.
  - exists g, st'. split; [exact Hrun|exact Hc].
Defined.
